(** * The call-context engine of [src/engine/engine.js]

    A shallow embedding of the closure installed as [globalThis.__engine__]:
    the two identifier cursors, the two [Map]s, the active call context and
    the six exported functions.  Call contexts are JavaScript objects which
    are shared between the registry, the active-context variable and the
    values handed back to the host, so they live in an explicit object store
    and are referred to by location. *)

From stdpp Require Import base gmap list fin_maps.
From Stdlib Require Import ZArith Lia.

Local Open Scope Z_scope.

(** ** JavaScript values and objects *)

(** The 31-bit identifier mask of line 8. *)
Definition MAX_ID_MASK : Z := 0x7FFFFFFF.

(** Values that travel through the engine as arguments and results. *)
Inductive value : Type :=
  | VNull
  | VUndefined
  | VNum (n : Z).

(** Object identity of a call context. *)
Abbreviation loc := nat.

(** What a variable holding "a call context" can contain. *)
Inductive ref : Type :=
  | RNull
  | RUndefined
  | RObj (l : loc).

Global Instance value_eq_dec : EqDecision value.
Proof. solve_decision. Defined.
Global Instance ref_eq_dec : EqDecision ref.
Proof. solve_decision. Defined.

(** The object literal of lines 40-48. *)
Module CallContext.
Record t : Type := mk {
  id : Z;
  replied : value;
  rejected : value;
  pending_calls : Z;
}.
Definition set_replied (v : value) (c : t) : t :=
  mk (id c) v (rejected c) (pending_calls c).
Definition set_rejected (v : value) (c : t) : t :=
  mk (id c) (replied c) v (pending_calls c).
Definition set_pending_calls (n : Z) (c : t) : t :=
  mk (id c) (replied c) (rejected c) n.
End CallContext.

(** Promises are runtime objects; the one made by [createCallback] is told
    apart from those made by user code. *)
Inductive promise : Type :=
  | CallbackPromise (n : nat)
  | UserPromise (n : nat).

Global Instance promise_eq_dec : EqDecision promise.
Proof. solve_decision. Defined.
Global Instance promise_countable : Countable promise.
Proof.
  refine (inj_countable'
    (λ p, match p with CallbackPromise n => inl n | UserPromise n => inr n end)
    (λ s, match s with inl n => CallbackPromise n | inr n => UserPromise n end) _).
  by intros [].
Defined.

(** The object literal of lines 114-119.  [reply] and [reject] are the two
    resolving functions of [promise], so the promise stands for them. *)
Module Callback.
Record t : Type := mk {
  call_context_id : Z;
  promise : promise;
}.
End Callback.

(** How a promise was settled. *)
Inductive settlement : Type :=
  | Fulfill (v : value)
  | Reject (e : value).

(** The state of a promise: pending, with the number of reaction pairs that
    [executeEndpoint] attached to it (lines 73-75), or settled. *)
Inductive promise_state : Type :=
  | Pending (reactions : nat)
  | Settled (s : settlement).

(** A queued reaction job: one of the two arrow functions of lines 74-75
    together with the settlement value it will receive. *)
Inductive job : Type :=
  | OnFulfilled (r : value)
  | OnRejected (e : value).

(** ** The state of the closure and of the runtime *)

Record State : Type := mkState {
  call_context_id : Z;
  call_contexts : gmap Z loc;
  callback_id : Z;
  callbacks : gmap Z Callback.t;
  entered_call_context : ref;
  (* the JavaScript runtime *)
  heap : gmap loc CallContext.t;
  next_loc : loc;
  promises : gmap promise promise_state;
  next_promise : nat;
  jobs : list job;
}.

(** The state right after the closure of lines 4-153 has run. *)
Definition init : State :=
  mkState 0 ∅ 0 ∅ RNull ∅ 0%nat ∅ 0%nat [].

Definition set_call_context_id (x : Z) (s : State) : State :=
  mkState x (call_contexts s) (callback_id s) (callbacks s)
    (entered_call_context s) (heap s) (next_loc s) (promises s)
    (next_promise s) (jobs s).
Definition set_call_contexts (x : gmap Z loc) (s : State) : State :=
  mkState (call_context_id s) x (callback_id s) (callbacks s)
    (entered_call_context s) (heap s) (next_loc s) (promises s)
    (next_promise s) (jobs s).
Definition set_callback_id (x : Z) (s : State) : State :=
  mkState (call_context_id s) (call_contexts s) x (callbacks s)
    (entered_call_context s) (heap s) (next_loc s) (promises s)
    (next_promise s) (jobs s).
Definition set_callbacks (x : gmap Z Callback.t) (s : State) : State :=
  mkState (call_context_id s) (call_contexts s) (callback_id s) x
    (entered_call_context s) (heap s) (next_loc s) (promises s)
    (next_promise s) (jobs s).
Definition set_entered_call_context (x : ref) (s : State) : State :=
  mkState (call_context_id s) (call_contexts s) (callback_id s) (callbacks s)
    x (heap s) (next_loc s) (promises s) (next_promise s) (jobs s).
Definition set_heap (x : gmap loc CallContext.t) (s : State) : State :=
  mkState (call_context_id s) (call_contexts s) (callback_id s) (callbacks s)
    (entered_call_context s) x (next_loc s) (promises s) (next_promise s)
    (jobs s).
Definition set_next_loc (x : loc) (s : State) : State :=
  mkState (call_context_id s) (call_contexts s) (callback_id s) (callbacks s)
    (entered_call_context s) (heap s) x (promises s) (next_promise s)
    (jobs s).
Definition set_promises (x : gmap promise promise_state) (s : State) : State :=
  mkState (call_context_id s) (call_contexts s) (callback_id s) (callbacks s)
    (entered_call_context s) (heap s) (next_loc s) x (next_promise s)
    (jobs s).
Definition set_next_promise (x : nat) (s : State) : State :=
  mkState (call_context_id s) (call_contexts s) (callback_id s) (callbacks s)
    (entered_call_context s) (heap s) (next_loc s) (promises s) x (jobs s).
Definition set_jobs (x : list job) (s : State) : State :=
  mkState (call_context_id s) (call_contexts s) (callback_id s) (callbacks s)
    (entered_call_context s) (heap s) (next_loc s) (promises s)
    (next_promise s) x.

(** ** Computations: state, exceptions and divergence *)

(** The exceptions the engine can raise: dereferencing [null] or
    [undefined] is a [TypeError]; a method may throw a value of its own. *)
Inductive exn : Type :=
  | TypeError
  | Thrown (e : value).

(** A call returns, throws, or never comes back (the [do ... while] loops of
    lines 52-54 and 127-129 on a full registry).  State changes made before
    a throw stay. *)
Inductive outcome (A : Type) : Type :=
  | Ok (a : A)
  | Throw (e : exn)
  | Loops.
Arguments Ok {A} a.
Arguments Throw {A} e.
Arguments Loops {A}.

Definition M (A : Type) : Type := State → outcome A * State.

Definition ret {A} (a : A) : M A := λ s, (Ok a, s).
Definition bind {A B} (m : M A) (k : A → M B) : M B :=
  λ s, match m s with
       | (Ok a, s') => k a s'
       | (Throw e, s') => (Throw e, s')
       | (Loops, s') => (Loops, s')
       end.
Definition throw {A} (e : exn) : M A := λ s, (Throw e, s).
Definition loops {A} : M A := λ s, (Loops, s).
Definition gets {A} (f : State → A) : M A := λ s, (Ok (f s), s).
Definition modify (f : State → State) : M unit := λ s, (Ok tt, f s).

Global Instance M_ret : MRet M := @ret.
Global Instance M_bind : MBind M := λ A B k m, bind m k.

(** Property access on something that should be a call context. *)
Definition deref (r : ref) : M loc :=
  match r with
  | RObj l => ret l
  | RNull | RUndefined => throw TypeError
  end.

(** Reading and writing the fields of the object at [l].  References are
    made from allocated objects only, so the missing case does not arise
    ([inv_registered], [inv_entered]). *)
Definition read (l : loc) : M CallContext.t :=
  λ s, match heap s !! l with
       | Some c => (Ok c, s)
       | None => (Throw TypeError, s)
       end.
Definition write (l : loc) (f : CallContext.t → CallContext.t) : M unit :=
  c ← read l;
  modify (λ s, set_heap (<[l := f c]> (heap s)) s).

(** Truthiness of a call-context variable (line 27). *)
Definition truthy (r : ref) : bool :=
  match r with RObj _ => true | _ => false end.

(** ** The promise runtime the engine relies on *)

(** What a method hands back: a plain value or a promise object. *)
Inductive js_result : Type :=
  | Plain (v : value)
  | PromiseOf (p : promise).

Definition job_of (st : settlement) : job :=
  match st with
  | Fulfill v => OnFulfilled v
  | Reject e => OnRejected e
  end.

Definition enqueue (js : list job) : M unit :=
  modify (λ s, set_jobs (jobs s ++ js) s).

(** [new Promise(...)] of line 112. *)
Definition new_promise : M promise :=
  n ← gets next_promise;
  modify (λ s, set_next_promise (S n)
                 (set_promises (<[CallbackPromise n := Pending 0]> (promises s)) s));;
  mret (CallbackPromise n).

(** Calling a resolving function of [p]: the first settlement wins and
    queues one job per attached reaction pair. *)
Definition settle_promise (p : promise) (st : settlement) : M unit :=
  ps ← gets (λ s, promises s !! p);
  match ps with
  | Some (Settled _) => mret tt
  | Some (Pending n) =>
      modify (λ s, set_promises (<[p := Settled st]> (promises s)) s);;
      enqueue (replicate n (job_of st))
  | None =>
      modify (λ s, set_promises (<[p := Settled st]> (promises s)) s)
  end.

(** [Promise.resolve(result).then(f, g)] of lines 73-75, [f] and [g] being
    the two arrow functions there: on a plain value or a settled promise the
    reaction is queued at once, on a pending promise it is attached. *)
Definition promise_resolve_then (result : js_result) : M unit :=
  match result with
  | Plain v => enqueue [OnFulfilled v]
  | PromiseOf p =>
      ps ← gets (λ s, promises s !! p);
      match ps with
      | Some (Settled st) => enqueue [job_of st]
      | Some (Pending n) =>
          modify (λ s, set_promises (<[p := Pending (S n)]> (promises s)) s)
      | None =>
          modify (λ s, set_promises (<[p := Pending 1]> (promises s)) s)
      end
  end.

(** [f(...args)] for a function that takes one argument. *)
Definition arg0 (args : list value) : value := hd VUndefined args.

(** ** The engine *)

(** The loops of lines 52-54 and 127-129: step the cursor, masked, until it
    is not a key of the map.  At most [fuel] rounds are tried. *)
Fixpoint find_next {A} (fuel : nat) (m : gmap Z A) (id : Z) : option Z :=
  match fuel with
  | O => None
  | S fuel' =>
      let id' := Z.land (id + 1) MAX_ID_MASK in
      match m !! id' with
      | Some _ => find_next fuel' m id'
      | None => Some id'
      end
  end.

(** One more round than the map has keys is enough whenever any number of
    rounds is ([find_next_complete], [find_next_never] below). *)
Definition next_free {A} (m : gmap Z A) (id : Z) : M Z :=
  match find_next (S (size m)) m id with
  | Some id' => mret id'
  | None => loops
  end.

(** Lines 26-36. *)
Definition enterCallContext (call_context : ref) : M unit :=
  entered ← gets entered_call_context;
  (if truthy entered && bool_decide (entered ≠ call_context) then
     l ← deref entered;
     c ← read l;
     if bool_decide (CallContext.pending_calls c = 0) then
       modify (λ s, set_call_contexts (delete (CallContext.id c) (call_contexts s)) s)
     else mret tt
   else mret tt);;
  modify (set_entered_call_context call_context);;
  l ← deref call_context;
  write l (CallContext.set_replied VNull);;
  write l (CallContext.set_rejected VNull).

(** Lines 39-57. *)
Definition newCallContext : M loc :=
  id ← gets call_context_id;
  new_call_context ← gets next_loc;
  modify (λ s, set_next_loc (S new_call_context)
                 (set_heap (<[new_call_context := CallContext.mk id VNull VNull 0]> (heap s)) s));;
  modify (λ s, set_call_contexts (<[id := new_call_context]> (call_contexts s)) s);;
  m ← gets call_contexts;
  id' ← next_free m id;
  modify (set_call_context_id id');;
  mret new_call_context.

(** Lines 109-132. *)
Definition createCallback : M (Z * promise) :=
  promise ← new_promise;
  entered ← gets entered_call_context;
  l ← deref entered;
  c ← read l;
  let callback := Callback.mk (CallContext.id c) promise in
  id ← gets callback_id;
  modify (λ s, set_callbacks (<[id := callback]> (callbacks s)) s);;
  write l (λ c, CallContext.set_pending_calls (CallContext.pending_calls c + 1) c);;
  let result := id in
  m ← gets callbacks;
  id' ← next_free m id;
  modify (set_callback_id id');;
  mret (result, promise).

(** Lines 135-137. *)
Definition removeCallback (callback_id : Z) : M unit :=
  modify (λ s, set_callbacks (delete callback_id (callbacks s)) s).

(** Lines 140-142. *)
Definition getEnteredCallContext : M ref :=
  gets entered_call_context.

(** [callback.reply.call(globalThis, ...args)] and
    [callback.reject.call(globalThis, ...args)]: the two resolving functions
    of the promise made on line 112. *)
Definition reply (callback : Callback.t) (args : list value) : M unit :=
  settle_promise (Callback.promise callback) (Fulfill (arg0 args)).

Definition reject (callback : Callback.t) (args : list value) : M unit :=
  settle_promise (Callback.promise callback) (Reject (arg0 args)).

(** Lines 81-92 and 95-106 differ only in the handler they call on
    lines 89 and 103. *)
Definition executeCallback (handler : Callback.t → list value → M unit)
    (callback_id : Z) (args : list value) : M ref :=
  callback ← gets (λ s, callbacks s !! callback_id);
  modify (λ s, set_callbacks (delete callback_id (callbacks s)) s);;
  cb ← match callback with
       | Some cb => mret cb
       | None => throw TypeError
       end;
  call_context ← gets (λ s,
    match call_contexts s !! Callback.call_context_id cb with
    | Some l => RObj l
    | None => RUndefined
    end);
  enterCallContext call_context;;
  l ← deref call_context;
  write l (λ c, CallContext.set_pending_calls (CallContext.pending_calls c - 1) c);;
  handler cb args;;
  gets entered_call_context.

Definition executeReplyCallback : Z → list value → M ref :=
  executeCallback reply.

Definition executeRejectCallback : Z → list value → M ref :=
  executeCallback reject.

(** ** User code *)

(** What user code can do to the engine while it runs: the functions the
    host exposes to it end up in [createCallback] and [removeCallback], it
    can look at the active call context, and it settles promises of its
    own.  The three host entry points are not among them: the host calls
    them one at a time, never from inside a running method.  User code
    does not write to the call-context objects it can see. *)
Inductive client_op : Type :=
  | CreateCallback
  | RemoveCallback (callback_id : Z)
  | GetEnteredCallContext
  | SettleUserPromise (n : nat) (st : settlement).

Inductive completion : Type :=
  | Return (result : js_result)
  | Raise (e : value).

(** A method, seen from the engine: given its arguments, the engine calls
    it makes before giving control back, and how it completes.  The
    identifiers it passes are written out: whichever ones the code
    computes, some script names them. *)
Definition Method : Type := list value → list client_op * completion.

Inductive retval : Type :=
  | RetUnit
  | RetRef (r : ref)
  | RetCallback (id : Z) (p : promise).

Definition call_op (op : client_op) : M retval :=
  match op with
  | CreateCallback => r ← createCallback; mret (RetCallback r.1 r.2)
  | RemoveCallback id => removeCallback id;; mret RetUnit
  | GetEnteredCallContext => r ← getEnteredCallContext; mret (RetRef r)
  | SettleUserPromise n st => settle_promise (UserPromise n) st;; mret RetUnit
  end.

Fixpoint run_ops (ops : list client_op) : M unit :=
  match ops with
  | [] => mret tt
  | op :: ops' => call_op op;; run_ops ops'
  end.

(** [method.call(globalThis, ...args)] of line 66. *)
Definition call_method (method : Method) (args : list value) : M js_result :=
  run_ops (method args).1;;
  match (method args).2 with
  | Return result => mret result
  | Raise e => throw (Thrown e)
  end.

(** Lines 60-78. *)
Definition executeEndpoint (method : Method) (args : list value) : M ref :=
  call_context ← newCallContext;
  enterCallContext (RObj call_context);;
  result ← call_method method args;
  promise_resolve_then result;;
  gets entered_call_context.

(** ** Reaction jobs *)

(** The arrow functions of lines 74 and 75, run as jobs. *)
Definition run_job (j : job) : M unit :=
  entered ← gets entered_call_context;
  l ← deref entered;
  match j with
  | OnFulfilled r => write l (CallContext.set_replied r)
  | OnRejected e => write l (CallContext.set_rejected e)
  end.

(** The runtime takes the oldest job off the queue and runs it. *)
Definition run_next_job : M unit :=
  js ← gets jobs;
  match js with
  | [] => mret tt
  | j :: js' => modify (set_jobs js');; run_job j
  end.

(** Running the queue until it is empty; an exception inside a job ends
    that job only.  The reaction jobs queue nothing themselves. *)
Fixpoint drain (n : nat) (s : State) : State :=
  match n with
  | O => s
  | S n' => drain n' (run_next_job s).2
  end.
Definition run_jobs (s : State) : State := drain (length (jobs s)) s.

(** ** Runs of the engine *)

(** What can happen next: the host calls one of its three entry points,
    user code that was resumed by a job calls into the engine, or the
    runtime runs a queued reaction. *)
Inductive event : Type :=
  | ExecuteEndpoint (method : Method) (args : list value)
  | ExecuteReplyCallback (callback_id : Z) (args : list value)
  | ExecuteRejectCallback (callback_id : Z) (args : list value)
  | ClientCall (op : client_op)
  | RunJob.

Definition step (e : event) : M retval :=
  match e with
  | ExecuteEndpoint method args => r ← executeEndpoint method args; mret (RetRef r)
  | ExecuteReplyCallback id args => r ← executeReplyCallback id args; mret (RetRef r)
  | ExecuteRejectCallback id args => r ← executeRejectCallback id args; mret (RetRef r)
  | ClientCall op => call_op op
  | RunJob => run_next_job;; mret RetUnit
  end.

(** An event that never returns has no state after it. *)
Definition after (e : event) (s : State) : option State :=
  match step e s with
  | (Loops, _) => None
  | (_, s') => Some s'
  end.

Fixpoint run (es : list event) (s : State) : option State :=
  match es with
  | [] => Some s
  | e :: es' =>
      match after e s with
      | Some s' => run es' s'
      | None => None
      end
  end.

Inductive reachable : State → Prop :=
  | reachable_init : reachable init
  | reachable_step s e s' : reachable s → after e s = Some s' → reachable s'.

(** Does the event switch call contexts? *)
Definition is_switch (e : event) : bool :=
  match e with
  | ExecuteEndpoint _ _ | ExecuteReplyCallback _ _ | ExecuteRejectCallback _ _ => true
  | _ => false
  end.

(** A method that ignores its arguments. *)
Definition const_method (ops : list client_op) (c : completion) : Method :=
  λ _, (ops, c).

(** ** States and notions used in the statements *)

(** The number of registered callbacks whose [call_context_id] is [k]. *)
Definition owned (k : Z) (cbs : gmap Z Callback.t) : Z :=
  Z.of_nat (size (filter (λ kv, Callback.call_context_id kv.2 = k) cbs)).

(** The registry after the eviction test of lines 27-32. *)
Definition evict (call_context : ref) (s : State) : gmap Z loc :=
  match entered_call_context s with
  | RObj l0 =>
      match heap s !! l0 with
      | Some c0 =>
          if bool_decide (RObj l0 ≠ call_context)
             && bool_decide (CallContext.pending_calls c0 = 0)
          then delete (CallContext.id c0) (call_contexts s)
          else call_contexts s
      | None => call_contexts s
      end
  | _ => call_contexts s
  end.

(** Lines 34-35 on the object [c]. *)
Definition reset_outcome (c : CallContext.t) : CallContext.t :=
  CallContext.mk (CallContext.id c) VNull VNull (CallContext.pending_calls c).

(** The state after [enterCallContext] on a live object. *)
Definition entered_state (l : loc) (c : CallContext.t) (s : State) : State :=
  set_heap (<[l := reset_outcome c]> (heap s))
    (set_entered_call_context (RObj l) (set_call_contexts (evict (RObj l) s) s)).

(** [pending_calls] of the object at [l], if there is one. *)
Definition pending_at (s : State) (l : loc) : option Z :=
  CallContext.pending_calls <$> heap s !! l.

(** What holds of the engine between any two events. *)
Record Inv (s : State) : Prop := {
  (* the cursors stay in the identifier space and point at free slots *)
  inv_cursor_range : 0 ≤ call_context_id s ≤ MAX_ID_MASK;
  inv_cb_cursor_range : 0 ≤ callback_id s ≤ MAX_ID_MASK;
  inv_cursor_free : call_contexts s !! call_context_id s = None;
  inv_cb_cursor_free : callbacks s !! callback_id s = None;
  (* the registry maps an identifier to a live object carrying it *)
  inv_registered : ∀ k l, call_contexts s !! k = Some l →
    ∃ c, heap s !! l = Some c ∧ CallContext.id c = k;
  (* the active call context, once there is one, is a registered object *)
  inv_entered : match entered_call_context s with
    | RNull => callbacks s = ∅
    | RUndefined => False
    | RObj l => ∃ c, heap s !! l = Some c ∧ call_contexts s !! CallContext.id c = Some l
    end;
  (* every callback belongs to a registered call context ... *)
  inv_owner : ∀ i cb, callbacks s !! i = Some cb →
    is_Some (call_contexts s !! Callback.call_context_id cb);
  (* ... which counts at least the callbacks it owns *)
  inv_owned : ∀ k l c, call_contexts s !! k = Some l → heap s !! l = Some c →
    owned k (callbacks s) ≤ CallContext.pending_calls c;
  (* objects are allocated at fresh locations *)
  inv_heap : ∀ l, (next_loc s ≤ l)%nat → heap s !! l = None;
}.

(** The state after [newCallContext] when the loop stops at [id']. *)
Definition allocated_state (id' : Z) (s : State) : State :=
  set_call_context_id id'
    (set_call_contexts (<[call_context_id s := next_loc s]> (call_contexts s))
      (set_next_loc (S (next_loc s))
        (set_heap (<[next_loc s := CallContext.mk (call_context_id s) VNull VNull 0]> (heap s)) s))).

(** Where the loop of lines 52-54 stops, if it does. *)
Definition next_call_context_id (s : State) : option Z :=
  let m := <[call_context_id s := next_loc s]> (call_contexts s) in
  find_next (S (size m)) m (call_context_id s).

(** [s'] differs from [s] in the promise table and the job queue only. *)
Definition runtime_only (s s' : State) : Prop :=
  ∃ ps np js, s' = set_jobs js (set_next_promise np (set_promises ps s)).

(** Where the loop of lines 127-129 stops, if it does, once callback [cb]
    has been stored. *)
Definition next_callback_id (s : State) (cb : Callback.t) : option Z :=
  let m := <[callback_id s := cb]> (callbacks s) in
  find_next (S (size m)) m (callback_id s).

(** The state after [createCallback] in call context [l] when the loop
    stops at [id']. *)
Definition created_state (l : loc) (c : CallContext.t) (id' : Z) (s : State) : State :=
  let cb := Callback.mk (CallContext.id c) (CallbackPromise (next_promise s)) in
  set_callback_id id'
    (set_heap (<[l := CallContext.set_pending_calls (CallContext.pending_calls c + 1) c]> (heap s))
      (set_callbacks (<[callback_id s := cb]> (callbacks s))
        (set_next_promise (S (next_promise s))
          (set_promises (<[CallbackPromise (next_promise s) := Pending 0]> (promises s)) s)))).

(** The state in which [executeReplyCallback] and [executeRejectCallback]
    call the handler of a registered callback: the callback is gone, its
    call context [l] is active with its outcome reset and one pending call
    less. *)
Definition resumed_state (callback_id : Z) (l : loc) (c : CallContext.t)
    (s : State) : State :=
  let s1 := entered_state l c (set_callbacks (delete callback_id (callbacks s)) s) in
  set_heap
    (<[l := CallContext.set_pending_calls (CallContext.pending_calls c - 1) (reset_outcome c)]>
       (heap s1)) s1.

(** What a call made by user code can change besides the callbacks and the
    promise runtime: the count of pending calls of the active call
    context, upwards. *)
Record client_step (s s' : State) : Prop := {
  cs_call_contexts : call_contexts s' = call_contexts s;
  cs_call_context_id : call_context_id s' = call_context_id s;
  cs_entered : entered_call_context s' = entered_call_context s;
  cs_next_loc : next_loc s' = next_loc s;
  cs_heap : ∀ l, heap s' !! l = heap s !! l ∨
    entered_call_context s = RObj l ∧
    ∃ c n, heap s !! l = Some c ∧ 0 ≤ n ∧
      heap s' !! l = Some (CallContext.set_pending_calls (CallContext.pending_calls c + n) c);
}.

(** The state in which [executeEndpoint] calls the method (line 66): a new
    call context has been made and entered. *)
Definition started_state (id' : Z) (s : State) : State :=
  entered_state (next_loc s) (CallContext.mk (call_context_id s) VNull VNull 0)
    (allocated_state id' s).

(** The two callback events, seen together. *)
Definition callback_event (e : event) (callback_id : Z) : Prop :=
  ∃ args, e = ExecuteReplyCallback callback_id args ∨
          e = ExecuteRejectCallback callback_id args.

(** A method that returns 42 at once, and the states after one and after
    two endpoints running it. *)
Definition returns_42 : Method := const_method [] (Return (Plain (VNum 42))).

Definition after_one_endpoint : State :=
  Eval vm_compute in
    default init (run [ExecuteEndpoint returns_42 []; RunJob] init).

Definition after_two_endpoints : State :=
  Eval vm_compute in
    default init (after (ExecuteEndpoint returns_42 []) after_one_endpoint).

(** A call context with one registered callback: the method registers it
    and hands back its promise. *)
Definition one_call : Method :=
  const_method [CreateCallback] (Return (PromiseOf (CallbackPromise 0))).

Definition with_one_callback : State :=
  Eval vm_compute in default init (run [ExecuteEndpoint one_call []] init).

(** Is the event a call of [executeEndpoint]? *)
Definition is_endpoint (e : event) : bool :=
  match e with ExecuteEndpoint _ _ => true | _ => false end.

(** The call context an event enters, if it enters one; otherwise the
    active call context stays. *)
Definition entered_by (e : event) (s : State) : ref :=
  match e with
  | ExecuteEndpoint _ _ => RObj (next_loc s)
  | ExecuteReplyCallback id _ | ExecuteRejectCallback id _ =>
      match callbacks s !! id with
      | Some cb =>
          match call_contexts s !! Callback.call_context_id cb with
          | Some l => RObj l
          | None => RUndefined
          end
      | None => entered_call_context s
      end
  | ClientCall _ | RunJob => entered_call_context s
  end.

(** Modelled from the spec: the host side of the engine (engine/mod.rs) is
    not among the sources.  Following section 4.5 (handlers run to a
    quiescent point before control returns) the host is taken to let the
    runtime run every queued job before it looks at the call context it
    was handed. *)
Definition back_at_host (s : State) : State := run_jobs s.

(** [n] calls of [createCallback] in a row, with the identifiers they
    return; a call that does not return ends the series. *)
Fixpoint create_n (n : nat) (s : State) : list Z * State :=
  match n with
  | O => ([], s)
  | S n' =>
      match createCallback s with
      | (Ok r, s') => let '(ids, s'') := create_n n' s' in (r.1 :: ids, s'')
      | (_, s') => ([], s')
      end
  end.

(** [removeCallback] on each identifier of the list. *)
Definition remove_all (ids : list Z) (s : State) : State :=
  foldl (λ s id, (removeCallback id s).2) s ids.

(** The identifiers [c], [c + 1], ... ([n] of them), wrapping at 2^31. *)
Definition ids_from (c : Z) (n : nat) : list Z :=
  (λ i : nat, (c + Z.of_nat i) mod 2 ^ 31) <$> seq 0 n.

Arguments ids_from : simpl never.

(** Freed identifiers come back: [n] identifiers are allocated on the
    callback stream, all are freed, and the next [n] allocations give the
    same identifiers again. *)
Definition ids_reused (n : nat) (s : State) : Prop :=
  let '(ids, s1) := create_n n s in
  (create_n n (remove_all ids s1)).1 = ids.

(** The two outcome fields of a call context. *)
Definition outcome_of (c : CallContext.t) : value * value :=
  (CallContext.replied c, CallContext.rejected c).

(** An outcome is set once: when one of the two outcome fields of a call
    context is set, the outcome of that call context stays what it is. *)
Definition outcome_set_once : Prop :=
  ∀ es1 es2 s1 s2 l c1 c2,
    run es1 init = Some s1 → run es2 s1 = Some s2 →
    heap s1 !! l = Some c1 → heap s2 !! l = Some c2 →
    outcome_of c1 ≠ (VNull, VNull) → outcome_of c2 = outcome_of c1.

(** An endpoint registers a callback and returns 1; a second endpoint
    returns the promise of that callback; then the callback is replied to
    with 2. *)
Definition first_endpoint : list event :=
  [ExecuteEndpoint (const_method [CreateCallback] (Return (Plain (VNum 1)))) []; RunJob].
Definition second_endpoint : list event :=
  [ExecuteEndpoint (const_method [] (Return (PromiseOf (CallbackPromise 0)))) []].
Definition reply_arrives : list event := [ExecuteReplyCallback 0 [VNum 2]].

(** The outcome of the call context at [l] after the run [es]. *)
Definition outcome_in (es : list event) (l : loc) : option (value * value) :=
  s ← run es init; outcome_of <$> heap s !! l.

(** The states along that run. *)
Definition state_first : State :=
  Eval vm_compute in default init (run first_endpoint init).
Definition state_second : State :=
  Eval vm_compute in default init (run second_endpoint state_first).
Definition state_cleared : State :=
  Eval vm_compute in default init (run reply_arrives state_second).

(** ** Further notions *)

(** An identifier of the 31-bit space of line 8. *)
Definition in_range (k : Z) : Prop := 0 ≤ k ≤ MAX_ID_MASK.

(** Every callback key and every identifier stored in a call context is
    in the identifier space. *)
Definition Range (s : State) : Prop :=
  (∀ i cb, callbacks s !! i = Some cb → in_range i) ∧
  (∀ l c, heap s !! l = Some c → in_range (CallContext.id c)).

(** A registered call context without pending calls is the active one. *)
Definition Idle_active (s : State) : Prop :=
  ∀ k l c, call_contexts s !! k = Some l → heap s !! l = Some c →
    CallContext.pending_calls c = 0 → entered_call_context s = RObj l.

(** The call context [l], registered under [k], counts more pending calls
    than there are callbacks naming it. *)
Definition overcounted (k : Z) (l : loc) (s : State) : Prop :=
  ∃ c, call_contexts s !! k = Some l ∧ heap s !! l = Some c ∧
       owned k (callbacks s) < CallContext.pending_calls c.

(** How [Promise.resolve(result)] is settled when line 73 runs, if it is. *)
Definition settled_at_once (result : js_result) (s : State) : option settlement :=
  match result with
  | Plain v => Some (Fulfill v)
  | PromiseOf p =>
      match promises s !! p with
      | Some (Settled st) => Some st
      | _ => None
      end
  end.

(** The outcome a settlement leaves in a call context whose outcome was
    reset. *)
Definition outcome_after (st : settlement) : value * value :=
  match st with
  | Fulfill v => (v, VNull)
  | Reject e => (VNull, e)
  end.

(** Before any call context was entered no reaction is queued or
    attached. *)
Definition No_reaction_without_context (s : State) : Prop :=
  entered_call_context s = RNull →
  jobs s = [] ∧ ∀ p n, promises s !! p = Some (Pending n) → n = 0%nat.

(** The state after a callback has been registered and removed again and
    two more endpoints have run. *)
Definition after_removal_and_switch : State :=
  Eval vm_compute in
    default init
      (run [ClientCall (RemoveCallback 0); ExecuteEndpoint returns_42 []; RunJob;
            ExecuteEndpoint returns_42 []] with_one_callback).

(** The state after an endpoint whose method throws 13. *)
Definition after_throwing_method : State :=
  Eval vm_compute in
    default init (after (ExecuteEndpoint (const_method [] (Raise (VNum 13))) []) init).

(** The state in which user code has rejected a promise of its own with
    9 before any endpoint ran. *)
Definition rejected_promise : State :=
  Eval vm_compute in
    default init (run [ClientCall (SettleUserPromise 0 (Reject (VNum 9)))] init).

(** The state right after an endpoint returned 1, its reaction still
    queued. *)
Definition state_first_queued : State :=
  Eval vm_compute in
    default init
      (run [ExecuteEndpoint (const_method [CreateCallback] (Return (Plain (VNum 1)))) []] init).

(** The engine's own variables and the call contexts, without the promise
    runtime. *)
Definition engine_view (s : State) :
    Z * gmap Z loc * Z * gmap Z Callback.t * ref * gmap loc CallContext.t :=
  (call_context_id s, call_contexts s, callback_id s, callbacks s,
   entered_call_context s, heap s).

(** The state with two callbacks registered by one call context. *)
Definition with_two_callbacks : State :=
  Eval vm_compute in
    default init
      (run [ExecuteEndpoint
              (const_method [CreateCallback; CreateCallback]
                 (Return (PromiseOf (UserPromise 0)))) []] init).

(** Calls of user code that register no callback and settle no promise. *)
Definition passive (op : client_op) : bool :=
  match op with
  | RemoveCallback _ | GetEnteredCallContext => true
  | CreateCallback | SettleUserPromise _ _ => false
  end.

(** Does the call issue an outgoing call? *)
Definition issues_call (op : client_op) : bool :=
  match op with CreateCallback => true | _ => false end.

(** An endpoint whose method issues no outgoing call and returns the plain
    value 42 hands back a call context with [replied = 42] and [rejected]
    unset, [host_looks] saying when the host reads it: right at the return
    ([id]) or after the runtime has run the queued jobs
    ([back_at_host]). *)
Definition plain_42_succeeds (host_looks : State → State) : Prop :=
  ∀ s method args r s1,
    reachable s →
    forallb (λ op, negb (issues_call op)) (method args).1 = true →
    (method args).2 = Return (Plain (VNum 42)) →
    executeEndpoint method args s = (Ok r, s1) →
    ∃ l c, r = RObj l ∧ heap (host_looks s1) !! l = Some c ∧
           outcome_of c = (VNum 42, VNull).

(** An endpoint has returned a promise of the user code that is still
    pending; the method of the next endpoint rejects that promise with 9 and
    returns 42. *)
Definition state_waiting : State :=
  Eval vm_compute in
    default init
      (run [ExecuteEndpoint (const_method [] (Return (PromiseOf (UserPromise 0)))) []] init).
Definition rejecting_method : Method :=
  const_method [SettleUserPromise 0 (Reject (VNum 9))] (Return (Plain (VNum 42))).
Definition state_rejecting_returned : State :=
  Eval vm_compute in (executeEndpoint rejecting_method [] state_waiting).2.
Definition state_rejecting_drained : State :=
  Eval vm_compute in back_at_host state_rejecting_returned.

(** The states when an endpoint returning 42 has returned, from the
    initial state and from the state with one registered callback. *)
Definition state_42_returned : State :=
  Eval vm_compute in (executeEndpoint returns_42 [] init).2.
Definition state_42_beside_callback : State :=
  Eval vm_compute in (executeEndpoint returns_42 [] with_one_callback).2.

(** A state with the call-context cursor at the top of the identifier
    space. *)
Definition cursor_at_top : State := set_call_context_id MAX_ID_MASK init.

(** ** The allocation loop *)

Lemma land_mask (x : Z) : Z.land x MAX_ID_MASK = x mod 2 ^ 31.
Proof. change MAX_ID_MASK with (Z.ones 31). by rewrite Z.land_ones. Qed.

Lemma land_mask_range (x : Z) : 0 ≤ Z.land x MAX_ID_MASK ≤ MAX_ID_MASK.
Proof.
  rewrite land_mask. unfold MAX_ID_MASK.
  pose proof (Z.mod_pos_bound x (2 ^ 31)). lia.
Qed.

Lemma land_mask_succ (x : Z) :
  0 ≤ x < MAX_ID_MASK → Z.land (x + 1) MAX_ID_MASK = x + 1.
Proof.
  intros Hx. rewrite land_mask. unfold MAX_ID_MASK in Hx.
  apply Z.mod_small. lia.
Qed.

Lemma find_next_Some {A} fuel (m : gmap Z A) id id' :
  find_next fuel m id = Some id' → m !! id' = None ∧ 0 ≤ id' ≤ MAX_ID_MASK.
Proof.
  revert id. induction fuel as [|fuel IH]; intros id; simpl; [done|].
  destruct (m !! Z.land (id + 1) MAX_ID_MASK) eqn:E.
  - apply IH.
  - intros [= <-]. split; [done|apply land_mask_range].
Qed.

Lemma find_next_free {A} fuel (m : gmap Z A) id :
  m !! Z.land (id + 1) MAX_ID_MASK = None →
  find_next (S fuel) m id = Some (Z.land (id + 1) MAX_ID_MASK).
Proof. intros H. simpl. by rewrite H. Qed.

Lemma find_next_None {A} fuel (m : gmap Z A) id :
  find_next fuel m id = None →
  ∀ i, 0 ≤ i < Z.of_nat fuel → is_Some (m !! ((id + 1 + i) mod 2 ^ 31)).
Proof.
  revert id. induction fuel as [|fuel IH]; intros id; simpl; [lia|].
  destruct (m !! Z.land (id + 1) MAX_ID_MASK) eqn:E; [|done].
  intros Hn i Hi. destruct (decide (i = 0)) as [->|Hne].
  - rewrite Z.add_0_r, <- land_mask. eauto.
  - specialize (IH _ Hn (i - 1)). rewrite land_mask in IH.
    replace ((id + 1 + i) mod 2 ^ 31)
      with (((id + 1) mod 2 ^ 31 + 1 + (i - 1)) mod 2 ^ 31); [apply IH; lia|].
    rewrite <- !Z.add_assoc, Zplus_mod_idemp_l. f_equal. lia.
Qed.

Lemma mod_shift_inj (a i j : Z) :
  0 ≤ i < 2 ^ 31 → 0 ≤ j < 2 ^ 31 →
  (a + i) mod 2 ^ 31 = (a + j) mod 2 ^ 31 → i = j.
Proof.
  intros Hi Hj Heq.
  pose proof (Z.div_mod (a + i) (2 ^ 31) ltac:(lia)) as H1.
  pose proof (Z.div_mod (a + j) (2 ^ 31) ltac:(lia)) as H2.
  rewrite Heq in H1.
  assert ((a + i) `div` 2 ^ 31 = (a + j) `div` 2 ^ 31) by nia.
  lia.
Qed.

(** The loop ends unless every identifier of the space is taken. *)
Lemma find_next_complete {A} (m : gmap Z A) id :
  Z.of_nat (size m) < 2 ^ 31 → is_Some (find_next (S (size m)) m id).
Proof.
  intros Hsz. destruct (find_next (S (size m)) m id) eqn:E; [eauto|].
  exfalso. pose proof (find_next_None _ _ _ E) as Hall.
  set (L := (λ i, (id + 1 + i) mod 2 ^ 31) <$> seqZ 0 (Z.of_nat (S (size m)))).
  assert (NoDup L) as Hnd.
  { apply NoDup_fmap_2_strong; [|apply NoDup_seqZ].
    intros i j Hi%elem_of_seqZ Hj%elem_of_seqZ. apply mod_shift_inj; lia. }
  assert (list_to_set L ⊆ dom m) as Hsub.
  { intros x Hx%elem_of_list_to_set. apply list_elem_of_fmap in Hx as (i & -> & Hi%elem_of_seqZ).
    apply elem_of_dom, Hall. lia. }
  apply subseteq_size in Hsub.
  rewrite size_list_to_set, size_dom in Hsub by done.
  unfold L in Hsub. rewrite length_fmap, length_seqZ in Hsub. lia.
Qed.

(** When the bounded loop gives up, every identifier is taken and no
    number of rounds would do. *)
Lemma find_next_never {A} (m : gmap Z A) id :
  find_next (S (size m)) m id = None → ∀ fuel, find_next fuel m id = None.
Proof.
  intros E.
  assert (¬ Z.of_nat (size m) < 2 ^ 31) as Hfull.
  { intros H. destruct (find_next_complete m id H) as [x Hx]. congruence. }
  pose proof (find_next_None _ _ _ E) as Hall.
  assert (∀ r, 0 ≤ r < 2 ^ 31 → is_Some (m !! r)) as Htaken.
  { intros r Hr. set (i := (r - id - 1) mod 2 ^ 31).
    assert (0 ≤ i < 2 ^ 31) as Hi by (apply Z.mod_pos_bound; lia).
    assert ((id + 1 + i) mod 2 ^ 31 = r) as Heq.
    { unfold i. rewrite Zplus_mod_idemp_r.
      replace (id + 1 + (r - id - 1)) with r by lia. apply Z.mod_small; lia. }
    rewrite <- Heq. apply Hall. lia. }
  clear E Hall. intros fuel. revert id.
  induction fuel as [|fuel IH]; intros id; [done|].
  simpl. pose proof (Z.mod_pos_bound (id + 1) (2 ^ 31) ltac:(lia)) as Hr.
  rewrite <- land_mask in Hr.
  destruct (Htaken _ Hr) as [x Hx]. by rewrite Hx.
Qed.

(** ** Counting the callbacks of a call context *)

Lemma owned_nonneg k cbs : 0 ≤ owned k cbs.
Proof. unfold owned. lia. Qed.

Lemma owned_insert k i cb cbs :
  cbs !! i = None →
  owned k (<[i := cb]> cbs) =
    owned k cbs + (if decide (Callback.call_context_id cb = k) then 1 else 0).
Proof.
  intros Hi. unfold owned. case_decide.
  - rewrite map_filter_insert_True by done.
    rewrite map_size_insert_None; [lia|].
    by rewrite map_lookup_filter_None; left.
  - rewrite map_filter_insert_not'; [lia|done|]. intros y Hy. congruence.
Qed.

Lemma owned_delete k i cb cbs :
  cbs !! i = Some cb →
  owned k (delete i cbs) =
    owned k cbs - (if decide (Callback.call_context_id cb = k) then 1 else 0).
Proof.
  intros Hi. unfold owned. rewrite map_filter_delete. case_decide.
  - assert (filter (λ kv, Callback.call_context_id kv.2 = k) cbs !! i = Some cb) as Hf.
    { by apply map_lookup_filter_Some. }
    pose proof (map_size_delete_Some i _ (mk_is_Some _ _ Hf)).
    pose proof (map_size_ne_0_lookup_2 _ i (mk_is_Some _ _ Hf)). lia.
  - rewrite delete_id; [lia|].
    apply map_lookup_filter_None. right. intros x Hx. simpl. congruence.
Qed.

Lemma owned_delete_le k i cbs : owned k (delete i cbs) ≤ owned k cbs.
Proof.
  destruct (cbs !! i) as [cb|] eqn:E.
  - rewrite (owned_delete _ _ _ _ E). case_decide; lia.
  - by rewrite delete_id.
Qed.

Lemma owned_pos k i cb cbs :
  cbs !! i = Some cb → Callback.call_context_id cb = k → 0 < owned k cbs.
Proof.
  intros Hi Hk. pose proof (owned_delete k i cb cbs Hi) as H.
  rewrite decide_True in H by done.
  pose proof (owned_nonneg k (delete i cbs)). lia.
Qed.

(** ** Running computations symbolically *)

Lemma bind_Ok {A B} (m : M A) (k : A → M B) s a s' :
  m s = (Ok a, s') → (m ≫= k) s = k a s'.
Proof. intros H. unfold mbind, M_bind, bind. by rewrite H. Qed.

Lemma bind_Throw {A B} (m : M A) (k : A → M B) s e s' :
  m s = (Throw e, s') → (m ≫= k) s = (Throw e, s').
Proof. intros H. unfold mbind, M_bind, bind. by rewrite H. Qed.

Lemma bind_Loops {A B} (m : M A) (k : A → M B) s s' :
  m s = (Loops, s') → (m ≫= k) s = (Loops, s').
Proof. intros H. unfold mbind, M_bind, bind. by rewrite H. Qed.

Lemma read_Ok l c s : heap s !! l = Some c → read l s = (Ok c, s).
Proof. intros H. unfold read. by rewrite H. Qed.

Lemma write_Ok l f c s :
  heap s !! l = Some c → write l f s = (Ok tt, set_heap (<[l := f c]> (heap s)) s).
Proof. intros H. unfold write. by rewrite (bind_Ok _ _ _ _ _ (read_Ok _ _ _ H)). Qed.

Ltac run_pure := erewrite bind_Ok by reflexivity; simpl.

Lemma set_call_contexts_id s : set_call_contexts (call_contexts s) s = s.
Proof. by destruct s. Qed.

Lemma enterCallContext_obj s l c :
  heap s !! l = Some c →
  (∀ l0, entered_call_context s = RObj l0 → is_Some (heap s !! l0)) →
  enterCallContext (RObj l) s = (Ok tt, entered_state l c s).
Proof.
  intros Hl Hent. unfold enterCallContext, entered_state.
  run_pure.
  erewrite bind_Ok with (s' := set_call_contexts (evict (RObj l) s) s); cycle 1.
  { unfold evict. destruct (entered_call_context s) as [| |l0] eqn:E; simpl;
      try by rewrite set_call_contexts_id.
    destruct (Hent l0 eq_refl) as [c0 Hc0]. rewrite Hc0.
    case_bool_decide; simpl; [|by rewrite set_call_contexts_id].
    run_pure. erewrite bind_Ok by by apply read_Ok.
    case_bool_decide; simpl; [done|by rewrite set_call_contexts_id]. }
  run_pure. run_pure.
  erewrite bind_Ok by (by apply write_Ok).
  erewrite write_Ok by (simpl; apply lookup_insert_eq). simpl.
  by rewrite insert_insert_eq.
Qed.

(** ** The invariant of the engine *)

Lemma Inv_init : Inv init.
Proof.
  split; simpl; try done; try (unfold MAX_ID_MASK; lia).
Qed.

Lemma Inv_entered_live s :
  Inv s → ∀ l0, entered_call_context s = RObj l0 → is_Some (heap s !! l0).
Proof.
  intros HI l0 E. pose proof (inv_entered s HI) as H. rewrite E in H.
  destruct H as (c & Hc & _). eauto.
Qed.

Lemma Inv_registry_inj s k1 k2 l :
  Inv s → call_contexts s !! k1 = Some l → call_contexts s !! k2 = Some l → k1 = k2.
Proof.
  intros HI H1 H2.
  destruct (inv_registered s HI _ _ H1) as (c1 & Hc1 & <-).
  destruct (inv_registered s HI _ _ H2) as (c2 & Hc2 & <-).
  congruence.
Qed.

(** *** Activating a registered call context *)

Lemma evict_lookup s call_context k l :
  evict call_context s !! k = Some l → call_contexts s !! k = Some l.
Proof.
  unfold evict. destruct (entered_call_context s); try done.
  destruct (heap s !! _); try done.
  destruct (_ && _); try done.
  intros H. apply lookup_delete_Some in H. tauto.
Qed.

(** What the eviction test removes: the previously active call context,
    when it is another object than the one entered and has no pending
    call. *)
Lemma evict_removed s call_context k l :
  Inv s →
  call_contexts s !! k = Some l → evict call_context s !! k = None →
  entered_call_context s = RObj l ∧ RObj l ≠ call_context ∧
  ∃ c, heap s !! l = Some c ∧ CallContext.id c = k ∧ CallContext.pending_calls c = 0.
Proof.
  intros HI Hk. unfold evict.
  pose proof (inv_entered s HI) as Hent.
  destruct (entered_call_context s) as [| |l0]; try congruence.
  destruct Hent as (c0 & Hc0 & Hreg). rewrite Hc0.
  destruct (bool_decide (RObj l0 ≠ call_context)) eqn:E1; simpl; [|congruence].
  destruct (bool_decide (CallContext.pending_calls c0 = 0)) eqn:E2; [|congruence].
  apply bool_decide_eq_true in E1, E2.
  intros Hdel. apply lookup_delete_None in Hdel as [Heq|]; [|congruence].
  assert (l = l0) as -> by congruence. eauto 10.
Qed.

Lemma evict_kept s call_context k l c :
  Inv s →
  call_contexts s !! k = Some l → heap s !! l = Some c →
  call_context = RObj l ∨ CallContext.pending_calls c ≠ 0 ∨ entered_call_context s ≠ RObj l →
  evict call_context s !! k = Some l.
Proof.
  intros HI Hk Hc Hor.
  destruct (evict call_context s !! k) as [l'|] eqn:E.
  - apply evict_lookup in E. congruence.
  - destruct (evict_removed _ _ _ _ HI Hk E) as (He & Hne & c' & Hc' & _ & Hp).
    destruct Hor as [->|[?|?]]; congruence.
Qed.

Lemma Inv_entered_state s l c k :
  Inv s → call_contexts s !! k = Some l → heap s !! l = Some c →
  Inv (entered_state l c s).
Proof.
  intros HI Hk Hc.
  assert (CallContext.id c = k) as Hid.
  { destruct (inv_registered s HI _ _ Hk) as (c' & Hc' & <-). congruence. }
  assert (∀ k' l', evict (RObj l) s !! k' = Some l' → call_contexts s !! k' = Some l')
    as Hsub by (intros; by eapply evict_lookup).
  split; unfold entered_state; simpl.
  - apply HI.
  - apply HI.
  - destruct (evict (RObj l) s !! call_context_id s) eqn:E; [|done].
    apply Hsub in E. by rewrite (inv_cursor_free s HI) in E.
  - apply HI.
  - intros k' l' Hk'%Hsub.
    destruct (inv_registered s HI _ _ Hk') as (c' & Hc' & Hid').
    destruct (decide (l' = l)) as [->|Hne].
    + rewrite lookup_insert_eq. eexists. split; [done|]. simpl. congruence.
    + rewrite lookup_insert_ne by done. eauto.
  - exists (reset_outcome c). rewrite lookup_insert_eq. split; [done|]. simpl.
    rewrite Hid. eapply evict_kept; eauto.
  - intros i cb Hi. destruct (inv_owner s HI _ _ Hi) as [l' Hl'].
    destruct (inv_registered s HI _ _ Hl') as (c' & Hc' & Hid').
    destruct (evict (RObj l) s !! Callback.call_context_id cb) eqn:E; [eauto|].
    destruct (evict_removed _ _ _ _ HI Hl' E) as (_ & _ & c'' & Hc'' & _ & Hp).
    pose proof (inv_owned s HI _ _ _ Hl' Hc'') as Hle.
    pose proof (owned_pos _ _ _ _ Hi eq_refl). lia.
  - intros k' l' c' Hk'%Hsub.
    destruct (decide (l' = l)) as [->|Hne].
    + rewrite lookup_insert_eq. intros [= <-]. simpl.
      eapply (inv_owned s HI); eauto.
    + rewrite lookup_insert_ne by done. by apply (inv_owned s HI).
  - intros l' Hl'. pose proof (inv_heap s HI l' Hl') as Hn.
    rewrite lookup_insert_ne; [done|]. intros ->. congruence.
Qed.

(** *** The invariant only looks at the engine and the object store *)

Lemma Inv_ext s s' :
  call_context_id s' = call_context_id s →
  call_contexts s' = call_contexts s →
  callback_id s' = callback_id s →
  callbacks s' = callbacks s →
  entered_call_context s' = entered_call_context s →
  heap s' = heap s →
  next_loc s' = next_loc s →
  Inv s → Inv s'.
Proof.
  intros E1 E2 E3 E4 E5 E6 E7 [].
  split; rewrite ?E1, ?E2, ?E3, ?E4, ?E5, ?E6, ?E7; done.
Qed.

(** Updating a live object keeps the invariant as long as its identifier
    stays and its count still covers its callbacks. *)
Lemma Inv_heap_update s l c c' :
  Inv s → heap s !! l = Some c →
  CallContext.id c' = CallContext.id c →
  (∀ k, call_contexts s !! k = Some l →
        owned k (callbacks s) ≤ CallContext.pending_calls c') →
  Inv (set_heap (<[l := c']> (heap s)) s).
Proof.
  intros HI Hc Hid Hown. split; simpl; try apply HI.
  - intros k l' Hk. destruct (inv_registered s HI _ _ Hk) as (c0 & Hc0 & Hid0).
    destruct (decide (l' = l)) as [->|Hne].
    + rewrite lookup_insert_eq. eexists; split; [done|]. congruence.
    + rewrite lookup_insert_ne by done. eauto.
  - pose proof (inv_entered s HI) as H.
    destruct (entered_call_context s) as [| |l0]; try done.
    destruct H as (c0 & Hc0 & Hreg).
    destruct (decide (l0 = l)) as [->|Hne].
    + rewrite lookup_insert_eq. eexists; split; [done|]. congruence.
    + rewrite lookup_insert_ne by done. eauto.
  - intros k l' c0 Hk. destruct (decide (l' = l)) as [->|Hne].
    + rewrite lookup_insert_eq. intros [= <-]. by apply Hown.
    + rewrite lookup_insert_ne by done. by apply (inv_owned s HI).
  - intros l' Hl'. pose proof (inv_heap s HI l' Hl').
    rewrite lookup_insert_ne; [done|]. intros ->. congruence.
Qed.

Lemma owned_zero k cbs :
  (∀ i cb, cbs !! i = Some cb → Callback.call_context_id cb ≠ k) →
  owned k cbs = 0.
Proof.
  intros H. unfold owned.
  replace (filter (λ kv, Callback.call_context_id kv.2 = k) cbs) with (∅ : gmap Z Callback.t);
    [by rewrite map_size_empty|].
  symmetry. apply map_empty. intros i. apply map_lookup_filter_None.
  right. intros cb Hcb. simpl. by eapply H.
Qed.

(** *** Allocating a call context *)

Lemma newCallContext_Ok s id' :
  next_call_context_id s = Some id' →
  newCallContext s = (Ok (next_loc s), allocated_state id' s).
Proof.
  unfold next_call_context_id. intros H. unfold newCallContext.
  do 5 run_pure. unfold next_free. rewrite H. by run_pure.
Qed.

Lemma newCallContext_Loops s :
  next_call_context_id s = None → (newCallContext s).1 = Loops.
Proof.
  unfold next_call_context_id. intros H. unfold newCallContext.
  do 5 run_pure. unfold next_free. rewrite H. done.
Qed.

Lemma next_call_context_id_total s :
  Z.of_nat (size (call_contexts s)) < MAX_ID_MASK →
  is_Some (next_call_context_id s).
Proof.
  intros Hsz. apply find_next_complete.
  pose proof (map_size_insert (call_context_id s) (next_loc s) (call_contexts s)) as H.
  destruct (call_contexts s !! call_context_id s); unfold MAX_ID_MASK in *; simpl in H; lia.
Qed.

Lemma Inv_allocated_state s id' :
  Inv s → next_call_context_id s = Some id' → Inv (allocated_state id' s).
Proof.
  intros HI Hn. unfold next_call_context_id in Hn.
  apply find_next_Some in Hn as [Hfree Hrange].
  pose proof (inv_heap s HI (next_loc s) ltac:(lia)) as Hnl.
  split; unfold allocated_state; simpl; try apply HI; try done.
  - intros k l Hk. apply lookup_insert_Some in Hk as [[<- <-]|[Hne Hk]].
    + rewrite lookup_insert_eq. eauto.
    + destruct (inv_registered s HI _ _ Hk) as (c & Hc & Hid).
      rewrite lookup_insert_ne by congruence. eauto.
  - pose proof (inv_entered s HI) as H.
    destruct (entered_call_context s) as [| |l0]; try done.
    destruct H as (c0 & Hc0 & Hreg).
    exists c0. rewrite !lookup_insert_ne; [done| |congruence].
    intros E. rewrite <- E, (inv_cursor_free s HI) in Hreg. done.
  - intros i cb Hi. destruct (inv_owner s HI _ _ Hi) as [l Hl].
    destruct (decide (call_context_id s = Callback.call_context_id cb)) as [<-|Hne].
    + rewrite lookup_insert_eq. eauto.
    + rewrite lookup_insert_ne by done. eauto.
  - intros k l c Hk Hc. apply lookup_insert_Some in Hk as [[<- <-]|[Hne Hk]].
    + rewrite lookup_insert_eq in Hc. injection Hc as <-. simpl.
      rewrite owned_zero; [done|]. intros i cb Hi E.
      destruct (inv_owner s HI _ _ Hi) as [l Hl].
      rewrite E, (inv_cursor_free s HI) in Hl. done.
    + destruct (inv_registered s HI _ _ Hk) as (c' & Hc' & Hid).
      rewrite lookup_insert_ne in Hc by congruence.
      by apply (inv_owned s HI _ _ _ Hk).
  - intros l Hl. rewrite lookup_insert_ne by lia. apply (inv_heap s HI). lia.
Qed.

(** *** The promise runtime leaves the engine alone *)

Lemma runtime_only_refl s : runtime_only s s.
Proof. exists (promises s), (next_promise s), (jobs s). by destruct s. Qed.

Lemma runtime_only_trans s1 s2 s3 :
  runtime_only s1 s2 → runtime_only s2 s3 → runtime_only s1 s3.
Proof.
  intros (ps & np & js & ->) (ps' & np' & js' & ->). by exists ps', np', js'.
Qed.

Lemma Inv_runtime_only s s' : runtime_only s s' → Inv s → Inv s'.
Proof. intros (ps & np & js & ->). by apply (Inv_ext s). Qed.

Lemma enqueue_eq js s : enqueue js s = (Ok tt, set_jobs (jobs s ++ js) s).
Proof. done. Qed.

Lemma settle_promise_runtime p st s :
  ∃ s', settle_promise p st s = (Ok tt, s') ∧ runtime_only s s'.
Proof.
  unfold settle_promise. run_pure.
  destruct (promises s !! p) as [[n|st']|].
  - run_pure. eexists; split; [done|].
    by exists (<[p := Settled st]> (promises s)), (next_promise s),
      (jobs s ++ replicate n (job_of st)).
  - eexists; split; [done|apply runtime_only_refl].
  - eexists; split; [done|].
    exists (<[p := Settled st]> (promises s)), (next_promise s), (jobs s). by destruct s.
Qed.

Lemma promise_resolve_then_runtime result s :
  ∃ s', promise_resolve_then result s = (Ok tt, s') ∧ runtime_only s s'.
Proof.
  destruct result as [v|p]; simpl.
  - eexists; split; [done|].
    exists (promises s), (next_promise s), (jobs s ++ [OnFulfilled v]). by destruct s.
  - run_pure. destruct (promises s !! p) as [[n|st']|].
    + eexists; split; [done|].
      exists (<[p := Pending (S n)]> (promises s)), (next_promise s), (jobs s). by destruct s.
    + eexists; split; [done|].
      exists (promises s), (next_promise s), (jobs s ++ [job_of st']). by destruct s.
    + eexists; split; [done|].
      exists (<[p := Pending 1]> (promises s)), (next_promise s), (jobs s). by destruct s.
Qed.

(** *** Registering and removing callbacks *)

Lemma createCallback_Ok s l c id' :
  entered_call_context s = RObj l → heap s !! l = Some c →
  next_callback_id s (Callback.mk (CallContext.id c) (CallbackPromise (next_promise s))) = Some id' →
  createCallback s =
    (Ok (callback_id s, CallbackPromise (next_promise s)), created_state l c id' s).
Proof.
  intros He Hc Hn. unfold createCallback, new_promise, next_callback_id in *.
  do 2 run_pure. rewrite He. run_pure.
  erewrite bind_Ok by (by apply read_Ok). do 2 run_pure.
  erewrite bind_Ok by (by apply write_Ok). run_pure.
  unfold next_free. rewrite Hn. by run_pure.
Qed.

Lemma createCallback_Loops s l c :
  entered_call_context s = RObj l → heap s !! l = Some c →
  next_callback_id s (Callback.mk (CallContext.id c) (CallbackPromise (next_promise s))) = None →
  (createCallback s).1 = Loops.
Proof.
  intros He Hc Hn. unfold createCallback, new_promise, next_callback_id in *.
  do 2 run_pure. rewrite He. run_pure.
  erewrite bind_Ok by (by apply read_Ok). do 2 run_pure.
  erewrite bind_Ok by (by apply write_Ok). run_pure.
  unfold next_free. rewrite Hn. done.
Qed.

(** Without an active call context line 115 throws, after the promise of
    line 112 has been made. *)
Lemma createCallback_Throw s :
  truthy (entered_call_context s) = false →
  createCallback s =
    (Throw TypeError,
     set_next_promise (S (next_promise s))
       (set_promises (<[CallbackPromise (next_promise s) := Pending 0]> (promises s)) s)).
Proof.
  intros He. unfold createCallback, new_promise.
  do 2 run_pure. by destruct (entered_call_context s).
Qed.

Lemma next_callback_id_total s cb :
  Z.of_nat (size (callbacks s)) < MAX_ID_MASK →
  is_Some (next_callback_id s cb).
Proof.
  intros Hsz. apply find_next_complete.
  pose proof (map_size_insert (callback_id s) cb (callbacks s)) as H.
  destruct (callbacks s !! callback_id s); unfold MAX_ID_MASK in *; simpl in H; lia.
Qed.

Lemma Inv_created_state s l c id' :
  Inv s → entered_call_context s = RObj l → heap s !! l = Some c →
  next_callback_id s (Callback.mk (CallContext.id c) (CallbackPromise (next_promise s))) = Some id' →
  Inv (created_state l c id' s).
Proof.
  intros HI He Hc Hn. unfold next_callback_id in Hn.
  apply find_next_Some in Hn as [Hfree Hrange].
  pose proof (inv_entered s HI) as Hent. rewrite He in Hent.
  destruct Hent as (c0 & Hc0 & Hreg). assert (c0 = c) as -> by congruence.
  split; unfold created_state; simpl; try apply HI; try done.
  - intros k l' Hk. destruct (inv_registered s HI _ _ Hk) as (c' & Hc' & Hid).
    destruct (decide (l' = l)) as [->|Hne].
    + rewrite lookup_insert_eq. eexists; split; [done|]. simpl. congruence.
    + rewrite lookup_insert_ne by done. eauto.
  - rewrite He. rewrite lookup_insert_eq. eauto.
  - intros i cb Hi. apply lookup_insert_Some in Hi as [[_ <-]|[_ Hi]]; simpl; [eauto|].
    by apply (inv_owner s HI _ _ Hi).
  - intros k l' c' Hk Hc'.
    rewrite owned_insert by apply HI. simpl.
    destruct (decide (l' = l)) as [->|Hne].
    + rewrite lookup_insert_eq in Hc'. injection Hc' as <-. simpl.
      pose proof (inv_owned s HI _ _ _ Hk Hc). case_decide; lia.
    + rewrite lookup_insert_ne in Hc' by done.
      pose proof (inv_owned s HI _ _ _ Hk Hc').
      rewrite decide_False; [lia|]. intros E. congruence.
  - intros l' Hl'. pose proof (inv_heap s HI l' Hl').
    rewrite lookup_insert_ne; [done|]. intros ->. congruence.
Qed.

Lemma Inv_removeCallback s id :
  Inv s → Inv (set_callbacks (delete id (callbacks s)) s).
Proof.
  intros HI. split; simpl; try apply HI.
  - apply lookup_delete_None. right. apply HI.
  - pose proof (inv_entered s HI) as H.
    destruct (entered_call_context s); try done. rewrite H. apply delete_empty.
  - intros i cb Hi%lookup_delete_Some. by apply (inv_owner s HI i), Hi.
  - intros k l c Hk Hc. pose proof (inv_owned s HI _ _ _ Hk Hc).
    pose proof (owned_delete_le k id (callbacks s)). lia.
Qed.

(** *** Settling a callback *)

Lemma set_callbacks_id s : set_callbacks (callbacks s) s = s.
Proof. by destruct s. Qed.

Lemma executeCallback_unknown handler callback_id args s :
  callbacks s !! callback_id = None →
  executeCallback handler callback_id args s = (Throw TypeError, s).
Proof.
  intros H. unfold executeCallback. do 2 run_pure. rewrite H.
  by rewrite delete_id, set_callbacks_id.
Qed.

Lemma executeCallback_known handler callback_id args s cb l c :
  callbacks s !! callback_id = Some cb →
  call_contexts s !! Callback.call_context_id cb = Some l →
  heap s !! l = Some c →
  (∀ l0, entered_call_context s = RObj l0 → is_Some (heap s !! l0)) →
  executeCallback handler callback_id args s =
    (handler cb args ≫= λ _, gets entered_call_context)
      (resumed_state callback_id l c s).
Proof.
  intros Hcb Hl Hc Hlive. unfold executeCallback. do 2 run_pure. rewrite Hcb.
  do 2 run_pure. rewrite Hl.
  erewrite bind_Ok by (by apply (enterCallContext_obj _ l c)).
  run_pure.
  erewrite bind_Ok by (apply write_Ok; simpl; apply lookup_insert_eq).
  done.
Qed.

Lemma Inv_resumed_state s callback_id cb l c :
  Inv s →
  callbacks s !! callback_id = Some cb →
  call_contexts s !! Callback.call_context_id cb = Some l →
  heap s !! l = Some c →
  Inv (resumed_state callback_id l c s).
Proof.
  intros HI Hcb Hl Hc. unfold resumed_state.
  set (s0 := set_callbacks (delete callback_id (callbacks s)) s).
  assert (Inv s0) as HI0 by by apply Inv_removeCallback.
  assert (Inv (entered_state l c s0)) as HI1 by by eapply Inv_entered_state.
  eapply Inv_heap_update; [done|simpl; apply lookup_insert_eq|done|].
  simpl. intros k Hk%evict_lookup. subst s0. simpl in Hk.
  assert (k = Callback.call_context_id cb) as ->
    by apply (Inv_registry_inj s _ _ l HI Hk Hl).
  rewrite (owned_delete _ _ _ _ Hcb), decide_True by done.
  pose proof (inv_owned s HI _ _ _ Hl Hc). lia.
Qed.

(** *** User code *)

Lemma client_step_refl s : client_step s s.
Proof. split; auto. Qed.

Lemma client_step_runtime_only s s' : runtime_only s s' → client_step s s'.
Proof. intros (ps & np & js & ->). split; simpl; auto. Qed.

Lemma client_step_trans s1 s2 s3 :
  client_step s1 s2 → client_step s2 s3 → client_step s1 s3.
Proof.
  intros [A1 A2 A3 A4 A5] [B1 B2 B3 B4 B5]. split; try congruence.
  intros l. destruct (B5 l) as [E2|(He2 & c2 & n2 & Hc2 & Hn2 & Hc3)];
    destruct (A5 l) as [E1|(He1 & c1 & n1 & Hc1 & Hn1 & Hc2')].
  - left. congruence.
  - right. split; [done|]. exists c1, n1. rewrite E2. eauto.
  - right. split; [congruence|]. exists c2, n2. rewrite <- E1. eauto.
  - right. split; [done|]. exists c1, (n1 + n2). split; [done|]. split; [lia|].
    rewrite Hc3. f_equal. rewrite Hc2' in Hc2. injection Hc2 as <-.
    unfold CallContext.set_pending_calls. simpl. f_equal. lia.
Qed.

Lemma call_op_spec op s :
  Inv s → (call_op op s).1 ≠ Loops →
  Inv (call_op op s).2 ∧ client_step s (call_op op s).2.
Proof.
  intros HI Hnl. destruct op as [|id| |n st]; simpl in *.
  - destruct (entered_call_context s) as [| |l] eqn:He.
    + unfold mbind, M_bind, bind in *. rewrite (createCallback_Throw s) in * by by rewrite He.
      simpl. split; [by apply (Inv_ext s)|]. split; simpl; auto.
    + pose proof (inv_entered s HI) as H. by rewrite He in H.
    + destruct (Inv_entered_live s HI l He) as [c Hc].
      destruct (next_callback_id s (Callback.mk (CallContext.id c) (CallbackPromise (next_promise s))))
        as [id'|] eqn:Hn.
      * unfold mbind, M_bind, bind in *.
        rewrite (createCallback_Ok s l c id') in * by done. simpl.
        split; [by apply Inv_created_state|].
        split; simpl; auto.
        intros l'. destruct (decide (l' = l)) as [->|Hne].
        -- right. split; [done|]. exists c, 1. rewrite lookup_insert_eq. auto with lia.
        -- left. by rewrite lookup_insert_ne.
      * exfalso. apply Hnl. unfold mbind, M_bind, bind.
        pose proof (createCallback_Loops s l c He Hc Hn) as HL.
        destruct (createCallback s) as [[] ?]; simpl in *; done.
  - split; [by apply Inv_removeCallback|]. split; simpl; auto.
  - split; [done|apply client_step_refl].
  - destruct (settle_promise_runtime (UserPromise n) st s) as (s' & E & Hr).
    unfold mbind, M_bind, bind. rewrite E. simpl.
    split; [by eapply Inv_runtime_only|by apply client_step_runtime_only].
Qed.

Lemma run_ops_spec ops s :
  Inv s → (run_ops ops s).1 ≠ Loops →
  Inv (run_ops ops s).2 ∧ client_step s (run_ops ops s).2.
Proof.
  revert s. induction ops as [|op ops IH]; intros s HI Hnl; simpl in *.
  - split; [done|apply client_step_refl].
  - unfold mbind, M_bind, bind in *.
    pose proof (call_op_spec op s HI) as Hop.
    destruct (call_op op s) as [[r|e|] s1]; simpl in *; [|by apply Hop|done].
    destruct (Hop ltac:(done)) as [HI1 Hcs1].
    destruct (IH s1 HI1 Hnl) as [HI2 Hcs2].
    split; [done|by eapply client_step_trans].
Qed.

(** With a live call context active, the calls of a method do not throw. *)
Lemma call_op_no_throw op s l e :
  Inv s → entered_call_context s = RObj l → (call_op op s).1 ≠ Throw e.
Proof.
  intros HI He. destruct op as [|id| |n st]; simpl; try done.
  - destruct (Inv_entered_live s HI l He) as [c Hc].
    destruct (next_callback_id s (Callback.mk (CallContext.id c) (CallbackPromise (next_promise s))))
      as [id'|] eqn:Hn; unfold mbind, M_bind, bind.
    + by rewrite (createCallback_Ok s l c id').
    + pose proof (createCallback_Loops s l c He Hc Hn) as HL.
      destruct (createCallback s) as [[] ?]; simpl in *; done.
  - destruct (settle_promise_runtime (UserPromise n) st s) as (s' & E & Hr).
    unfold mbind, M_bind, bind. by rewrite E.
Qed.

Lemma run_ops_no_throw ops s l e :
  Inv s → entered_call_context s = RObj l → (run_ops ops s).1 ≠ Throw e.
Proof.
  revert s. induction ops as [|op ops IH]; intros s HI He; simpl; [done|].
  unfold mbind, M_bind, bind.
  pose proof (call_op_spec op s HI) as Hop.
  destruct (call_op op s) as [[r|e'|] s1] eqn:E; simpl in *; try done.
  - destruct (Hop ltac:(done)) as [HI1 Hcs1]. apply IH; [done|].
    by rewrite (cs_entered _ _ Hcs1).
  - pose proof (call_op_no_throw op s l e' HI He) as Hnt.
    by rewrite E in Hnt.
Qed.

(** *** Starting an endpoint *)

Lemma executeEndpoint_started method args s id' :
  Inv s → next_call_context_id s = Some id' →
  executeEndpoint method args s =
    (call_method method args ≫= λ result,
       promise_resolve_then result ≫= λ _, gets entered_call_context)
      (started_state id' s).
Proof.
  intros HI Hn. unfold executeEndpoint.
  erewrite bind_Ok by (by apply newCallContext_Ok).
  erewrite bind_Ok; [done|].
  apply enterCallContext_obj.
  - simpl. apply lookup_insert_eq.
  - apply Inv_entered_live. by apply Inv_allocated_state.
Qed.

Lemma executeEndpoint_Loops method args s :
  next_call_context_id s = None → (executeEndpoint method args s).1 = Loops.
Proof.
  intros Hn. unfold executeEndpoint, mbind, M_bind, bind.
  pose proof (newCallContext_Loops s Hn).
  destruct (newCallContext s) as [[] ?]; simpl in *; done.
Qed.

Lemma Inv_started_state s id' :
  Inv s → next_call_context_id s = Some id' → Inv (started_state id' s).
Proof.
  intros HI Hn. unfold started_state.
  eapply (Inv_entered_state _ _ _ (call_context_id s)).
  - by apply Inv_allocated_state.
  - simpl. apply lookup_insert_eq.
  - simpl. apply lookup_insert_eq.
Qed.

(** Every way [executeEndpoint] can come back. *)
Lemma executeEndpoint_spec method args s r s' :
  Inv s → executeEndpoint method args s = (r, s') → r ≠ Loops →
  ∃ id' s2,
    next_call_context_id s = Some id' ∧
    run_ops (method args).1 (started_state id' s) = (Ok tt, s2) ∧
    match (method args).2 with
    | Return result =>
        r = Ok (RObj (next_loc s)) ∧ promise_resolve_then result s2 = (Ok tt, s')
    | Raise e => r = Throw (Thrown e) ∧ s' = s2
    end.
Proof.
  intros HI E Hnl.
  destruct (next_call_context_id s) as [id'|] eqn:Hn; cycle 1.
  { pose proof (executeEndpoint_Loops method args s Hn) as HL.
    rewrite E in HL. simpl in HL. congruence. }
  rewrite (executeEndpoint_started _ _ _ id') in E by done.
  pose proof (Inv_started_state s id' HI Hn) as HI1.
  pose proof (run_ops_spec (method args).1 _ HI1) as Hspec.
  pose proof (λ e, run_ops_no_throw (method args).1 _ (next_loc s) e HI1 eq_refl) as Hnt.
  unfold call_method, mbind, M_bind, bind in E.
  destruct (run_ops (method args).1 (started_state id' s)) as [[[]|e|] s2] eqn:Hops;
    simpl in *.
  - exists id', s2. split; [done|]. split; [done|].
    destruct (Hspec ltac:(done)) as [HI2 Hcs].
    destruct (method args).2 as [result|e]; simpl in E.
    + destruct (promise_resolve_then_runtime result s2) as (s3 & E3 & Hr3).
      rewrite E3 in *. unfold gets in E. injection E as <- <-.
      split; [|done]. f_equal.
      destruct Hr3 as (ps & np & js & ->). simpl.
      by rewrite (cs_entered _ _ Hcs).
    + unfold throw in E. by injection E as <- <-.
  - by destruct (Hnt e).
  - injection E as <- <-. done.
Qed.

(** Every way [executeReplyCallback] and [executeRejectCallback] can come
    back. *)
Lemma executeCallback_spec handler callback_id args s :
  Inv s →
  (callbacks s !! callback_id = None ∧
   executeCallback handler callback_id args s = (Throw TypeError, s)) ∨
  (∃ cb l c,
    callbacks s !! callback_id = Some cb ∧
    call_contexts s !! Callback.call_context_id cb = Some l ∧
    heap s !! l = Some c ∧
    executeCallback handler callback_id args s =
      (handler cb args ≫= λ _, gets entered_call_context)
        (resumed_state callback_id l c s)).
Proof.
  intros HI. destruct (callbacks s !! callback_id) as [cb|] eqn:Hcb.
  - right. destruct (inv_owner s HI _ _ Hcb) as [l Hl].
    destruct (inv_registered s HI _ _ Hl) as (c & Hc & Hid).
    exists cb, l, c. repeat split; try done.
    apply executeCallback_known; try done. by apply Inv_entered_live.
  - left. split; [done|]. by apply executeCallback_unknown.
Qed.

Lemma handler_runtime handler cb args s :
  handler = reply ∨ handler = reject →
  ∃ s', (handler cb args ≫= λ _, gets entered_call_context) s
          = (Ok (entered_call_context s), s') ∧ runtime_only s s'.
Proof.
  intros Hh.
  assert (∃ s', handler cb args s = (Ok tt, s') ∧ runtime_only s s') as (s' & E & Hr).
  { destruct Hh as [-> | ->]; apply settle_promise_runtime. }
  exists s'. split; [|done]. erewrite bind_Ok by done.
  destruct Hr as (ps & np & js & ->). done.
Qed.

(** *** Reaction jobs *)

Lemma run_next_job_spec s :
  match jobs s with
  | [] => run_next_job s = (Ok tt, s)
  | j :: js' =>
      match entered_call_context s with
      | RObj l =>
          match heap s !! l with
          | Some c =>
              run_next_job s =
                (Ok tt,
                 set_heap (<[l := match j with
                                  | OnFulfilled r => CallContext.set_replied r c
                                  | OnRejected e => CallContext.set_rejected e c
                                  end]> (heap s)) (set_jobs js' s))
          | None => run_next_job s = (Throw TypeError, set_jobs js' s)
          end
      | _ => run_next_job s = (Throw TypeError, set_jobs js' s)
      end
  end.
Proof.
  unfold run_next_job. run_pure. destruct (jobs s) as [|j js']; [done|].
  run_pure. unfold run_job. run_pure.
  destruct (entered_call_context s) as [| |l]; try done. run_pure.
  destruct (heap s !! l) as [c|] eqn:Hc.
  - destruct j; by erewrite write_Ok by done.
  - destruct j; unfold write; by erewrite bind_Throw by (unfold read; simpl; by rewrite Hc).
Qed.

Lemma Inv_run_next_job s : Inv s → Inv (run_next_job s).2.
Proof.
  intros HI. pose proof (run_next_job_spec s) as H.
  assert (∀ js, Inv (set_jobs js s)) as Hjs by (intros; by apply (Inv_ext s)).
  destruct (jobs s) as [|j js']; [by rewrite H|].
  destruct (entered_call_context s) as [| |l] eqn:He; try (rewrite H; apply Hjs).
  destruct (heap s !! l) as [c|] eqn:Hc; rewrite H; simpl; [|apply Hjs].
  apply (Inv_ext (set_heap (<[l := match j with
                                  | OnFulfilled r => CallContext.set_replied r c
                                  | OnRejected e => CallContext.set_rejected e c
                                  end]> (heap s)) s)); try done.
  eapply Inv_heap_update; [done|done|by destruct j|].
  intros k Hk. pose proof (inv_owned s HI _ _ _ Hk Hc). by destruct j.
Qed.

(** ** The invariant holds in every reachable state *)

Lemma after_Inv e s s' : Inv s → after e s = Some s' → Inv s'.
Proof.
  intros HI. unfold after.
  destruct (step e s) as [r s1] eqn:E.
  assert (r ≠ Loops → Inv s1) as Hgoal; cycle 1.
  { destruct r; intros [= <-]; by apply Hgoal. }
  intros Hnl. destruct e as [method args|id args|id args|op|]; simpl in E;
    unfold mbind, M_bind, bind in E.
  - destruct (executeEndpoint method args s) as [r0 s0] eqn:E0.
    assert (r0 ≠ Loops ∧ s0 = s1) as [Hnl0 ->]
      by (destruct r0; injection E as <- <-; done).
    destruct (executeEndpoint_spec _ _ _ _ _ HI E0 Hnl0) as (id' & s2 & Hn & Hops & Hc).
    pose proof (run_ops_spec (method args).1 _ (Inv_started_state s id' HI Hn)) as Hspec.
    rewrite Hops in Hspec. destruct (Hspec ltac:(done)) as [HI2 _]. simpl in HI2.
    destruct (method args).2 as [result|e].
    + destruct Hc as [_ Hc]. destruct (promise_resolve_then_runtime result s2) as (s3 & E3 & Hr3).
      rewrite E3 in Hc. injection Hc as <-. by eapply Inv_runtime_only.
    + by destruct Hc as [_ ->].
  - unfold executeReplyCallback in E.
    destruct (executeCallback_spec reply id args s HI) as [[_ E0]|(cb & l & c & Hcb & Hl & Hc & E0)];
      rewrite E0 in E.
    + by injection E as <- <-.
    + destruct (handler_runtime reply cb args (resumed_state id l c s) ltac:(auto)) as (s3 & E3 & Hr3).
      rewrite E3 in E. injection E as <- <-.
      eapply Inv_runtime_only; [done|]. by eapply Inv_resumed_state.
  - unfold executeRejectCallback in E.
    destruct (executeCallback_spec reject id args s HI) as [[_ E0]|(cb & l & c & Hcb & Hl & Hc & E0)];
      rewrite E0 in E.
    + by injection E as <- <-.
    + destruct (handler_runtime reject cb args (resumed_state id l c s) ltac:(auto)) as (s3 & E3 & Hr3).
      rewrite E3 in E. injection E as <- <-.
      eapply Inv_runtime_only; [done|]. by eapply Inv_resumed_state.
  - pose proof (call_op_spec op s HI) as Hop. rewrite E in Hop. by apply Hop.
  - pose proof (Inv_run_next_job s HI) as Hj.
    destruct (run_next_job s) as [[[]|e|] s0]; simpl in *; injection E as <- <-; done.
Qed.

Lemma reachable_Inv s : reachable s → Inv s.
Proof.
  induction 1 as [|s e s' _ IH Ha]; [apply Inv_init|by eapply after_Inv].
Qed.

Lemma run_reachable es s s' : reachable s → run es s = Some s' → reachable s'.
Proof.
  revert s. induction es as [|e es IH]; intros s Hs; simpl.
  - by intros [= <-].
  - destruct (after e s) as [s1|] eqn:E; [|done].
    apply IH. by eapply reachable_step.
Qed.

(** ** What each event does to the state *)

Lemma after_ExecuteEndpoint method args s s' :
  Inv s → after (ExecuteEndpoint method args) s = Some s' →
  ∃ id' s2,
    next_call_context_id s = Some id' ∧
    run_ops (method args).1 (started_state id' s) = (Ok tt, s2) ∧
    Inv s2 ∧ client_step (started_state id' s) s2 ∧ runtime_only s2 s' ∧
    step (ExecuteEndpoint method args) s =
      (match (method args).2 with
       | Return _ => Ok (RetRef (RObj (next_loc s)))
       | Raise e => Throw (Thrown e)
       end, s').
Proof.
  intros HI Ha. unfold after in Ha. simpl in *. unfold mbind, M_bind, bind in *.
  destruct (executeEndpoint method args s) as [r0 s0] eqn:E0.
  assert (r0 ≠ Loops ∧ s0 = s') as [Hnl0 ->]
    by (destruct r0; simplify_eq/=; done).
  destruct (executeEndpoint_spec _ _ _ _ _ HI E0 Hnl0) as (id' & s2 & Hn & Hops & Hc).
  pose proof (run_ops_spec (method args).1 _ (Inv_started_state s id' HI Hn)) as Hspec.
  rewrite Hops in Hspec. destruct (Hspec ltac:(done)) as [HI2 Hcs]. simpl in *.
  exists id', s2. repeat (split; [done|]).
  destruct (method args).2 as [result|e].
  - destruct Hc as [-> Hc]. split; [|done].
    destruct (promise_resolve_then_runtime result s2) as (s3 & E3 & Hr3). congruence.
  - destruct Hc as [-> ->]. split; [apply runtime_only_refl|done].
Qed.

Lemma step_executeCallback handler callback_id args s :
  handler = reply ∨ handler = reject → Inv s →
  (callbacks s !! callback_id = None ∧
   executeCallback handler callback_id args s = (Throw TypeError, s)) ∨
  (∃ cb l c s',
    callbacks s !! callback_id = Some cb ∧
    call_contexts s !! Callback.call_context_id cb = Some l ∧
    heap s !! l = Some c ∧
    handler cb args (resumed_state callback_id l c s) = (Ok tt, s') ∧
    runtime_only (resumed_state callback_id l c s) s' ∧
    executeCallback handler callback_id args s = (Ok (RObj l), s')).
Proof.
  intros Hh HI.
  destruct (executeCallback_spec handler callback_id args s HI)
    as [[Hn E0]|(cb & l & c & Hcb & Hl & Hc & E0)]; [by left|right].
  assert (∃ s', handler cb args (resumed_state callback_id l c s) = (Ok tt, s') ∧
                runtime_only (resumed_state callback_id l c s) s') as (s' & E & Hr).
  { destruct Hh as [-> | ->]; apply settle_promise_runtime. }
  exists cb, l, c, s'. repeat (split; [done|]).
  rewrite E0. erewrite bind_Ok by done.
  destruct Hr as (ps & np & js & ->). done.
Qed.

Lemma is_reply callback_id args :
  callback_event (ExecuteReplyCallback callback_id args) callback_id.
Proof. exists args. by left. Qed.

Lemma is_reject callback_id args :
  callback_event (ExecuteRejectCallback callback_id args) callback_id.
Proof. exists args. by right. Qed.

Lemma after_callback_event e callback_id s s' :
  callback_event e callback_id → Inv s → after e s = Some s' →
  (callbacks s !! callback_id = None ∧ s' = s ∧ (step e s).1 = Throw TypeError) ∨
  (∃ cb l c,
    callbacks s !! callback_id = Some cb ∧
    call_contexts s !! Callback.call_context_id cb = Some l ∧
    heap s !! l = Some c ∧
    runtime_only (resumed_state callback_id l c s) s' ∧
    (step e s).1 = Ok (RetRef (RObj l))).
Proof.
  intros (args & He) HI Ha.
  assert (∃ handler, (handler = reply ∨ handler = reject) ∧
            step e s = (r ← executeCallback handler callback_id args; mret (RetRef r)) s)
    as (handler & Hh & Hstep).
  { destruct He as [-> | ->]; [exists reply|exists reject]; auto. }
  unfold after in Ha. rewrite Hstep in *. unfold mbind, M_bind, bind in *.
  destruct (step_executeCallback handler callback_id args s Hh HI)
    as [[Hn E0]|(cb & l & c & s1 & Hcb & Hl & Hc & _ & Hr & E0)]; rewrite E0 in *.
  - left. by injection Ha as <-.
  - right. injection Ha as <-. exists cb, l, c. done.
Qed.

Lemma after_ClientCall op s s' :
  Inv s → after (ClientCall op) s = Some s' → Inv s' ∧ client_step s s'.
Proof.
  intros HI Ha. unfold after in Ha. simpl in Ha.
  pose proof (call_op_spec op s HI) as Hop.
  destruct (call_op op s) as [[] s1]; simpl in *; try done;
    injection Ha as <-; by apply Hop.
Qed.

Lemma after_RunJob s s' :
  after RunJob s = Some s' → s' = (run_next_job s).2.
Proof.
  unfold after. simpl. unfold mbind, M_bind, bind.
  destruct (run_next_job s) as [[] s1]; simpl; congruence.
Qed.

Lemma run_next_job_engine s :
  call_contexts (run_next_job s).2 = call_contexts s ∧
  entered_call_context (run_next_job s).2 = entered_call_context s ∧
  callbacks (run_next_job s).2 = callbacks s ∧
  ∀ l c, heap s !! l = Some c →
    ∃ c', heap (run_next_job s).2 !! l = Some c' ∧
          CallContext.id c' = CallContext.id c ∧
          CallContext.pending_calls c' = CallContext.pending_calls c.
Proof.
  pose proof (run_next_job_spec s) as H.
  destruct (jobs s) as [|j js']; [rewrite H; eauto 10|].
  destruct (entered_call_context s) as [| |l0] eqn:He; try (rewrite H; simpl; eauto 10).
  destruct (heap s !! l0) as [c0|] eqn:Hc0; rewrite H; simpl; [|eauto 10].
  repeat (split; [done|]). intros l c Hc.
  destruct (decide (l = l0)) as [->|Hne].
  - rewrite lookup_insert_eq. eexists. split; [done|].
    assert (c0 = c) as -> by congruence. by destruct j.
  - rewrite lookup_insert_ne by done. eauto.
Qed.

(** ** Eviction *)

Lemma started_state_registry s id' k l :
  Inv s → next_call_context_id s = Some id' →
  call_contexts s !! k = Some l →
  call_contexts (allocated_state id' s) !! k = Some l ∧
  heap (allocated_state id' s) !! l = heap s !! l ∧ l ≠ next_loc s.
Proof.
  intros HI Hn Hk. simpl.
  destruct (inv_registered s HI _ _ Hk) as (c & Hc & Hid).
  pose proof (inv_heap s HI (next_loc s) ltac:(lia)) as Hnl.
  assert (l ≠ next_loc s) as Hne by congruence.
  assert (call_context_id s ≠ k) as Hck.
  { intros E. rewrite <- E, (inv_cursor_free s HI) in Hk. done. }
  rewrite (lookup_insert_ne _ (call_context_id s)) by done.
  rewrite (lookup_insert_ne _ (next_loc s)) by done. done.
Qed.

(** What an event can take out of the registry. *)
Lemma after_registry (s s' : State) (e : event) (k : Z) (l : loc) :
  Inv s → after e s = Some s' →
  call_contexts s !! k = Some l → call_contexts s' !! k ≠ Some l →
  is_switch e = true ∧
  entered_call_context s = RObj l ∧
  (∃ l', entered_call_context s' = RObj l' ∧ l' ≠ l) ∧
  pending_at s l = Some 0 ∧
  call_contexts s' !! k = None.
Proof.
  intros Hs Ha Hk Hgone.
  assert (∀ s0 l0 c0 s1,
    Inv s0 → call_contexts s0 !! k = Some l → heap s0 !! l = heap s !! l →
    entered_call_context s0 = entered_call_context s →
    heap s0 !! l0 = Some c0 →
    call_contexts s1 = evict (RObj l0) s0 → entered_call_context s1 = RObj l0 →
    call_contexts s1 !! k ≠ Some l →
    entered_call_context s = RObj l ∧
    (∃ l', entered_call_context s1 = RObj l' ∧ l' ≠ l) ∧
    pending_at s l = Some 0 ∧ call_contexts s1 !! k = None) as Hswitch.
  { intros s0 l0 c0 s1 HI0 Hk0 Hheap Hent Hc0 Hreg He1 Hgone1. rewrite Hreg in *.
    destruct (evict (RObj l0) s0 !! k) as [l1|] eqn:Hev.
    { apply evict_lookup in Hev. congruence. }
    destruct (evict_removed _ _ _ _ HI0 Hk0 Hev) as (He0 & Hne & c & Hc & _ & Hp).
    split; [congruence|]. split; [exists l0; split; [done|congruence]|].
    split; [|done]. unfold pending_at. by rewrite <- Hheap, Hc, <- Hp. }
  destruct e as [method args|id args|id args|op|].
  - split; [done|].
    destruct (after_ExecuteEndpoint _ _ _ _ Hs Ha)
      as (id' & s2 & Hn & _ & HI2 & Hcs & (ps & np & js & ->) & _).
    destruct (started_state_registry _ _ _ _ Hs Hn Hk) as (Hk0 & Hheap & Hne).
    apply (Hswitch (allocated_state id' s) (next_loc s)
             (CallContext.mk (call_context_id s) VNull VNull 0));
      try done; simpl in *.
    + by apply Inv_allocated_state.
    + apply lookup_insert_eq.
    + by rewrite (cs_call_contexts _ _ Hcs).
    + by rewrite (cs_entered _ _ Hcs).
  - split; [done|].
    destruct (after_callback_event _ id _ _ (is_reply id args) Hs Ha)
      as [(_ & -> & _)|(cb & l0 & c0 & Hcb & Hl0 & Hc0 & (ps & np & js & ->) & _)]; [done|].
    apply (Hswitch (set_callbacks (delete id (callbacks s)) s) l0 c0); try done.
    by apply Inv_removeCallback.
  - split; [done|].
    destruct (after_callback_event _ id _ _ (is_reject id args) Hs Ha)
      as [(_ & -> & _)|(cb & l0 & c0 & Hcb & Hl0 & Hc0 & (ps & np & js & ->) & _)]; [done|].
    apply (Hswitch (set_callbacks (delete id (callbacks s)) s) l0 c0); try done.
    by apply Inv_removeCallback.
  - destruct (after_ClientCall _ _ _ Hs Ha) as [_ Hcs].
    rewrite (cs_call_contexts _ _ Hcs) in Hgone. done.
  - apply after_RunJob in Ha as ->.
    destruct (run_next_job_engine s) as (E & _). rewrite E in Hgone. done.
Qed.

(** A call context stays registered as long as a callback points at it. *)
Lemma owner_stays_registered (s s' : State) (e : event) i cb l :
  Inv s → after e s = Some s' →
  callbacks s !! i = Some cb →
  call_contexts s !! Callback.call_context_id cb = Some l →
  call_contexts s' !! Callback.call_context_id cb = Some l.
Proof.
  intros HI Ha Hcb Hl.
  destruct (decide (call_contexts s' !! Callback.call_context_id cb = Some l))
    as [|Hgone]; [done|exfalso].
  destruct (after_registry _ _ _ _ _ HI Ha Hl Hgone) as (_ & _ & _ & Hp & _).
  unfold pending_at in Hp.
  destruct (heap s !! l) as [c|] eqn:Hc; [|done]. injection Hp as Hp.
  pose proof (inv_owned s HI _ _ _ Hl Hc).
  pose proof (owned_pos _ _ _ _ Hcb eq_refl). lia.
Qed.

(** C1. In every reachable state, whatever event comes next: the call
    context that is active afterwards is in the registry, and a call
    context that leaves the registry does so during one of the three
    context-switching entry points, was the active call context before,
    is another object than the one that is active afterwards, and had no
    pending call. *)
Theorem evicted_only_when_switched_away (s s' : State) (e : event) :
  reachable s → after e s = Some s' →
  (∀ l, entered_call_context s' = RObj l → ∃ k, call_contexts s' !! k = Some l) ∧
  ∀ k l, call_contexts s !! k = Some l → call_contexts s' !! k ≠ Some l →
    is_switch e = true ∧
    entered_call_context s = RObj l ∧
    (∃ l', entered_call_context s' = RObj l' ∧ l' ≠ l) ∧
    pending_at s l = Some 0 ∧
    call_contexts s' !! k = None.
Proof.
  intros Hs%reachable_Inv Ha. pose proof (after_Inv _ _ _ Hs Ha) as HI'. split.
  - intros l He. pose proof (inv_entered s' HI') as H. rewrite He in H.
    destruct H as (c & _ & Hreg). eauto.
  - intros k l. by apply after_registry.
Qed.

Lemma after_one_endpoint_reachable : reachable after_one_endpoint.
Proof.
  apply (run_reachable [ExecuteEndpoint returns_42 []; RunJob] init);
    [apply reachable_init|reflexivity].
Qed.

Lemma evicted_only_when_switched_away_witness :
  call_contexts after_one_endpoint !! 0 = Some 0%nat ∧
  call_contexts after_two_endpoints !! 0 = None ∧
  entered_call_context after_one_endpoint = RObj 0%nat ∧
  pending_at after_one_endpoint 0%nat = Some 0.
Proof.
  assert (call_contexts after_one_endpoint !! 0 = Some 0%nat) as H0 by reflexivity.
  assert (call_contexts after_two_endpoints !! 0 ≠ Some 0%nat) as H1 by (vm_compute; congruence).
  destruct (evicted_only_when_switched_away after_one_endpoint after_two_endpoints
              (ExecuteEndpoint returns_42 [])
              after_one_endpoint_reachable eq_refl) as [_ H].
  destruct (H 0 0%nat H0 H1) as (_ & He & _ & Hp & Hn). done.
Defined.

(** ** Pending calls *)

(** Registering a callback adds one to the pending calls of the active
    call context, and to no other. *)
Lemma createCallback_increments s l c :
  reachable s → entered_call_context s = RObj l → heap s !! l = Some c →
  Z.of_nat (size (callbacks s)) < MAX_ID_MASK →
  ∃ p s',
    createCallback s = (Ok (callback_id s, p), s') ∧
    callbacks s' !! callback_id s = Some (Callback.mk (CallContext.id c) p) ∧
    pending_at s' l = Some (CallContext.pending_calls c + 1) ∧
    ∀ l', l' ≠ l → heap s' !! l' = heap s !! l'.
Proof.
  intros HI%reachable_Inv He Hc Hsz.
  destruct (next_callback_id_total s
    (Callback.mk (CallContext.id c) (CallbackPromise (next_promise s))) Hsz) as [id' Hn].
  eexists _, _. split; [by apply (createCallback_Ok s l c id')|].
  unfold pending_at, created_state. simpl. rewrite !lookup_insert_eq.
  repeat split. intros l' Hne. by rewrite lookup_insert_ne.
Qed.

(** Settling a registered callback, on either path, takes one off the
    pending calls of the call context registered under the callback's
    [call_context_id]. *)
Lemma executeCallback_decrements handler callback_id args s cb :
  handler = reply ∨ handler = reject →
  reachable s → callbacks s !! callback_id = Some cb →
  ∃ l c s',
    call_contexts s !! Callback.call_context_id cb = Some l ∧
    heap s !! l = Some c ∧
    executeCallback handler callback_id args s = (Ok (RObj l), s') ∧
    callbacks s' !! callback_id = None ∧
    pending_at s' l = Some (CallContext.pending_calls c - 1).
Proof.
  intros Hh HI%reachable_Inv Hcb.
  destruct (step_executeCallback handler callback_id args s Hh HI)
    as [[Hn _]|(cb' & l & c & s' & Hcb' & Hl & Hc & _ & (ps & np & js & ->) & E)];
    [congruence|].
  assert (cb' = cb) as -> by congruence.
  exists l, c. eexists. repeat (split; [done|]).
  unfold pending_at. simpl. rewrite lookup_delete_eq, lookup_insert_eq. done.
Qed.

(** [removeCallback] touches the callback registry and nothing else. *)
Lemma removeCallback_eq callback_id s :
  removeCallback callback_id s =
    (Ok tt, set_callbacks (delete callback_id (callbacks s)) s).
Proof. done. Qed.

(** C2, at the failing input.  After [createCallback] in call context 0,
    [removeCallback] of the callback it returned removes the callback and
    leaves the pending calls of the call context at 1, where
    [executeReplyCallback] and [executeRejectCallback] bring them back
    to 0. *)
Theorem removeCallback_keeps_pending_calls :
  callbacks with_one_callback !! 0 = Some (Callback.mk 0 (CallbackPromise 0)) ∧
  call_contexts with_one_callback !! 0 = Some 0%nat ∧
  pending_at with_one_callback 0%nat = Some 1 ∧
  callbacks (removeCallback 0 with_one_callback).2 !! 0 = None ∧
  pending_at (removeCallback 0 with_one_callback).2 0%nat = Some 1 ∧
  pending_at (executeReplyCallback 0 [] with_one_callback).2 0%nat = Some 0 ∧
  pending_at (executeRejectCallback 0 [] with_one_callback).2 0%nat = Some 0.
Proof. repeat split; reflexivity. Qed.

(** ** Errors *)

(** C3. A callback identifier that is not in the callback registry makes
    [executeReplyCallback] and [executeRejectCallback] throw (the
    [TypeError] of reading [callback.call_context_id] on line 85 or 99); the
    state, with both registries, both cursors and the active call context,
    is what it was, and the engine goes on from it. *)
Theorem unknown_callback_throws (s : State) (callback_id : Z) (args : list value) :
  callbacks s !! callback_id = None →
  executeReplyCallback callback_id args s = (Throw TypeError, s) ∧
  executeRejectCallback callback_id args s = (Throw TypeError, s) ∧
  after (ExecuteReplyCallback callback_id args) s = Some s ∧
  after (ExecuteRejectCallback callback_id args) s = Some s.
Proof.
  intros H.
  pose proof (executeCallback_unknown reply callback_id args s H) as E1.
  pose proof (executeCallback_unknown reject callback_id args s H) as E2.
  repeat split; try done; unfold after; simpl; unfold mbind, M_bind, bind.
  - unfold executeReplyCallback. by rewrite E1.
  - unfold executeRejectCallback. by rewrite E2.
Qed.

Lemma unknown_callback_throws_witness :
  executeReplyCallback 7 [VNum 1] with_one_callback = (Throw TypeError, with_one_callback) ∧
  executeRejectCallback 7 [VNum 1] with_one_callback = (Throw TypeError, with_one_callback) ∧
  after (ExecuteReplyCallback 7 [VNum 1]) with_one_callback = Some with_one_callback ∧
  after (ExecuteRejectCallback 7 [VNum 1]) with_one_callback = Some with_one_callback.
Proof. apply (unknown_callback_throws with_one_callback 7 [VNum 1]). reflexivity. Defined.

(** C9. With no call context entered, [createCallback] throws at once (the
    [TypeError] of reading [entered_call_context.id] on line 115): it
    returns no identifier, and the registries, the cursors, the active call
    context, the objects and the job queue are what they were. *)
Theorem createCallback_without_context (s : State) :
  entered_call_context s = RNull →
  ∃ s', createCallback s = (Throw TypeError, s') ∧
        after (ClientCall CreateCallback) s = Some s' ∧
        call_contexts s' = call_contexts s ∧
        call_context_id s' = call_context_id s ∧
        callbacks s' = callbacks s ∧
        callback_id s' = callback_id s ∧
        entered_call_context s' = RNull ∧
        heap s' = heap s ∧
        jobs s' = jobs s.
Proof.
  intros He. eexists. split; [apply createCallback_Throw; by rewrite He|].
  split; [|by rewrite <- He].
  unfold after. simpl. unfold mbind, M_bind, bind.
  rewrite createCallback_Throw by by rewrite He. done.
Qed.

Lemma createCallback_without_context_witness :
  ∃ s', createCallback init = (Throw TypeError, s') ∧
        after (ClientCall CreateCallback) init = Some s' ∧
        call_contexts s' = call_contexts init ∧
        call_context_id s' = call_context_id init ∧
        callbacks s' = callbacks init ∧
        callback_id s' = callback_id init ∧
        entered_call_context s' = RNull ∧
        heap s' = heap init ∧
        jobs s' = jobs init.
Proof. apply (createCallback_without_context init). reflexivity. Defined.

(** ** Settlement runs in the owner's call context *)

(** The callback made by [createCallback] names the call context that is
    active at that moment. *)
Lemma createCallback_owner s l c r s' :
  reachable s → entered_call_context s = RObj l → heap s !! l = Some c →
  createCallback s = (Ok r, s') →
  ∃ cb, callbacks s' !! r.1 = Some cb ∧
        call_contexts s' !! Callback.call_context_id cb = Some l.
Proof.
  intros HI%reachable_Inv He Hc E.
  destruct (next_callback_id s (Callback.mk (CallContext.id c) (CallbackPromise (next_promise s))))
    as [id'|] eqn:Hn.
  - rewrite (createCallback_Ok s l c id' He Hc Hn) in E.
    assert (r = (callback_id s, CallbackPromise (next_promise s))) as -> by congruence.
    assert (s' = created_state l c id' s) as -> by congruence. clear E.
    exists (Callback.mk (CallContext.id c) (CallbackPromise (next_promise s))).
    split; [apply lookup_insert_eq|].
    pose proof (inv_entered s HI) as H. rewrite He in H.
    destruct H as (c' & Hc' & Hreg).
    assert (c' = c) as -> by congruence. exact Hreg.
  - pose proof (createCallback_Loops s l c He Hc Hn) as HL.
    rewrite E in HL. discriminate HL.
Qed.

(** C5. For a registered callback, [executeReplyCallback] and
    [executeRejectCallback] call the stored handler in the state
    [resumed_state], in which the call context registered under the
    callback's [call_context_id] is the active one; this holds whatever the
    handler does.  With the handlers [createCallback] stores, the call
    returns that call context and it is still the active one. *)
Theorem callback_runs_in_owner_context
    (s : State) (callback_id : Z) (cb : Callback.t) (args : list value) :
  reachable s → callbacks s !! callback_id = Some cb →
  ∃ l c,
    call_contexts s !! Callback.call_context_id cb = Some l ∧
    heap s !! l = Some c ∧
    entered_call_context (resumed_state callback_id l c s) = RObj l ∧
    (∀ handler,
       executeCallback handler callback_id args s =
         (handler cb args ≫= λ _, gets entered_call_context)
           (resumed_state callback_id l c s)) ∧
    (∃ s1, reply cb args (resumed_state callback_id l c s) = (Ok tt, s1) ∧
           executeReplyCallback callback_id args s = (Ok (RObj l), s1) ∧
           entered_call_context s1 = RObj l) ∧
    (∃ s1, reject cb args (resumed_state callback_id l c s) = (Ok tt, s1) ∧
           executeRejectCallback callback_id args s = (Ok (RObj l), s1) ∧
           entered_call_context s1 = RObj l).
Proof.
  intros HI%reachable_Inv Hcb.
  destruct (inv_owner s HI _ _ Hcb) as [l Hl].
  destruct (inv_registered s HI _ _ Hl) as (c & Hc & Hid).
  exists l, c. repeat (split; [done|]).
  assert (∀ handler,
    executeCallback handler callback_id args s =
      (handler cb args ≫= λ _, gets entered_call_context)
        (resumed_state callback_id l c s)) as Hcall.
  { intros handler. apply executeCallback_known; try done. by apply Inv_entered_live. }
  split; [done|].
  split.
  - destruct (settle_promise_runtime (Callback.promise cb) (Fulfill (arg0 args))
                (resumed_state callback_id l c s)) as (s1 & E & (ps & np & js & ->)).
    eexists. split; [exact E|]. split; [|done].
    unfold executeReplyCallback. rewrite Hcall. by erewrite bind_Ok by exact E.
  - destruct (settle_promise_runtime (Callback.promise cb) (Reject (arg0 args))
                (resumed_state callback_id l c s)) as (s1 & E & (ps & np & js & ->)).
    eexists. split; [exact E|]. split; [|done].
    unfold executeRejectCallback. rewrite Hcall. by erewrite bind_Ok by exact E.
Qed.

Lemma with_one_callback_reachable : reachable with_one_callback.
Proof.
  apply (run_reachable [ExecuteEndpoint one_call []] init);
    [apply reachable_init|reflexivity].
Qed.

Lemma callback_runs_in_owner_context_witness :
  ∃ l c,
    call_contexts with_one_callback !! 0 = Some l ∧
    heap with_one_callback !! l = Some c ∧
    entered_call_context (resumed_state 0 l c with_one_callback) = RObj l ∧
    (∀ handler,
       executeCallback handler 0 [VNum 5] with_one_callback =
         (handler (Callback.mk 0 (CallbackPromise 0)) [VNum 5]
            ≫= λ _, gets entered_call_context)
           (resumed_state 0 l c with_one_callback)) ∧
    (∃ s1, reply (Callback.mk 0 (CallbackPromise 0)) [VNum 5]
             (resumed_state 0 l c with_one_callback) = (Ok tt, s1) ∧
           executeReplyCallback 0 [VNum 5] with_one_callback = (Ok (RObj l), s1) ∧
           entered_call_context s1 = RObj l) ∧
    (∃ s1, reject (Callback.mk 0 (CallbackPromise 0)) [VNum 5]
             (resumed_state 0 l c with_one_callback) = (Ok tt, s1) ∧
           executeRejectCallback 0 [VNum 5] with_one_callback = (Ok (RObj l), s1) ∧
           entered_call_context s1 = RObj l).
Proof.
  apply (callback_runs_in_owner_context with_one_callback 0
           (Callback.mk 0 (CallbackPromise 0)) [VNum 5]).
  - apply with_one_callback_reachable.
  - reflexivity.
Defined.

(** ** Identifiers of registered call contexts *)

Lemma registered_distinct s k1 k2 l1 l2 c1 c2 :
  Inv s →
  call_contexts s !! k1 = Some l1 → call_contexts s !! k2 = Some l2 →
  heap s !! l1 = Some c1 → heap s !! l2 = Some c2 →
  l1 ≠ l2 → CallContext.id c1 ≠ CallContext.id c2.
Proof.
  intros HI H1 H2 Hc1 Hc2 Hne E.
  destruct (inv_registered s HI _ _ H1) as (c1' & Hc1' & E1).
  destruct (inv_registered s HI _ _ H2) as (c2' & Hc2' & E2).
  assert (k1 = k2) as -> by congruence. congruence.
Qed.

(** C6. In every reachable state the cursor is not a key of the registry,
    so [newCallContext] registers its object under an identifier that was
    free, and it does return unless all identifiers are taken; distinct
    registered call contexts carry distinct identifiers; and the call
    context [executeEndpoint] returns is registered under its identifier,
    which was free before the call and which no other registered call
    context carries. *)
Theorem context_ids_unique (s : State) :
  reachable s →
  call_contexts s !! call_context_id s = None ∧
  (∀ k1 k2 l1 l2 c1 c2,
     call_contexts s !! k1 = Some l1 → call_contexts s !! k2 = Some l2 →
     heap s !! l1 = Some c1 → heap s !! l2 = Some c2 →
     l1 ≠ l2 → CallContext.id c1 ≠ CallContext.id c2) ∧
  (Z.of_nat (size (call_contexts s)) < MAX_ID_MASK →
     ∃ l s1, newCallContext s = (Ok l, s1)) ∧
  (∀ l s1, newCallContext s = (Ok l, s1) →
     ∃ c, heap s1 !! l = Some c ∧
          CallContext.id c = call_context_id s ∧
          call_contexts s !! CallContext.id c = None ∧
          call_contexts s1 !! CallContext.id c = Some l) ∧
  (∀ method args r s', executeEndpoint method args s = (Ok r, s') →
     ∃ l c, r = RObj l ∧ heap s' !! l = Some c ∧
            call_contexts s !! CallContext.id c = None ∧
            call_contexts s' !! CallContext.id c = Some l ∧
            ∀ k' l' c', call_contexts s' !! k' = Some l' → heap s' !! l' = Some c' →
                        l' ≠ l → CallContext.id c' ≠ CallContext.id c).
Proof.
  intros HI%reachable_Inv.
  split; [apply HI|]. split; [intros *; by apply registered_distinct|].
  split; [|split].
  - intros Hsz. destruct (next_call_context_id_total s Hsz) as [id' Hn].
    eexists _, _. by apply newCallContext_Ok.
  - intros l s1 E. destruct (next_call_context_id s) as [id'|] eqn:Hn.
    + rewrite (newCallContext_Ok s id' Hn) in E.
      assert (l = next_loc s) as -> by congruence.
      assert (s1 = allocated_state id' s) as -> by congruence.
      eexists. simpl. rewrite lookup_insert_eq. split; [done|]. simpl.
      split; [done|]. split; [apply HI|apply lookup_insert_eq].
    + pose proof (newCallContext_Loops s Hn) as HL. rewrite E in HL. discriminate HL.
  - intros method args r s' E.
    destruct (executeEndpoint_spec _ _ _ _ _ HI E ltac:(done)) as (id' & s2 & Hn & Hops & Hc).
    pose proof (Inv_started_state s id' HI Hn) as HI1.
    pose proof (run_ops_spec (method args).1 _ HI1) as Hspec.
    rewrite Hops in Hspec. destruct (Hspec ltac:(done)) as [HI2 Hcs]. simpl in HI2, Hcs.
    destruct (method args).2 as [result|e]; [|by destruct Hc].
    destruct Hc as [Hr Hc]. injection Hr as ->.
    destruct (promise_resolve_then_runtime result s2) as (s3 & E3 & Hrt).
    assert (s3 = s') as -> by congruence.
    assert (Inv s') as HI' by by eapply Inv_runtime_only.
    destruct Hrt as (ps & np & js & ->). simpl in *.
    assert (call_contexts s2 !! call_context_id s = Some (next_loc s)) as Hreg.
    { rewrite (cs_call_contexts _ _ Hcs). simpl.
      eapply evict_kept; [by apply Inv_allocated_state| | |by left];
        simpl; apply lookup_insert_eq. }
    destruct (inv_registered _ HI2 _ _ Hreg) as (c & Hc2 & Hid).
    exists (next_loc s), c. rewrite Hid. repeat (split; [done || apply HI|]).
    intros k' l' c' Hk' Hc' Hne. rewrite <- Hid.
    apply (registered_distinct _ k' (call_context_id s) l' (next_loc s) c' c HI'); done.
Qed.

Lemma context_ids_unique_witness :
  call_contexts after_one_endpoint !! call_context_id after_one_endpoint = None ∧
  (∃ l s1, newCallContext after_one_endpoint = (Ok l, s1)) ∧
  ∃ l c, heap after_two_endpoints !! l = Some c ∧
     call_contexts after_one_endpoint !! CallContext.id c = None ∧
     call_contexts after_two_endpoints !! CallContext.id c = Some l.
Proof.
  destruct (context_ids_unique after_one_endpoint after_one_endpoint_reachable)
    as (H1 & _ & H3 & _ & H5).
  split; [exact H1|]. split; [apply H3; vm_compute; reflexivity|].
  destruct (H5 returns_42 [] (RObj 1%nat)
              (set_jobs [OnFulfilled (VNum 42)] after_two_endpoints) eq_refl)
    as (l & c & Hr & Hc & Hfree & Hreg & _).
  exists l, c. done.
Defined.

(** ** The active call context *)

Lemma after_entered e s s' :
  Inv s → after e s = Some s' → entered_call_context s' = entered_by e s.
Proof.
  intros HI Ha. destruct e as [method args|id args|id args|op|]; simpl.
  - destruct (after_ExecuteEndpoint _ _ _ _ HI Ha)
      as (id' & s2 & Hn & _ & HI2 & Hcs & (ps & np & js & ->) & _).
    simpl. by rewrite (cs_entered _ _ Hcs).
  - destruct (after_callback_event _ id _ _ (is_reply id args) HI Ha)
      as [(Hn & -> & _)|(cb & l0 & c0 & Hcb & Hl0 & Hc0 & (ps & np & js & ->) & _)].
    + by rewrite Hn.
    + by rewrite Hcb, Hl0.
  - destruct (after_callback_event _ id _ _ (is_reject id args) HI Ha)
      as [(Hn & -> & _)|(cb & l0 & c0 & Hcb & Hl0 & Hc0 & (ps & np & js & ->) & _)].
    + by rewrite Hn.
    + by rewrite Hcb, Hl0.
  - destruct (after_ClientCall _ _ _ HI Ha) as [_ Hcs]. apply Hcs.
  - apply after_RunJob in Ha as ->. apply run_next_job_engine.
Qed.

Lemma after_entered_obj e s s' l :
  Inv s → after e s = Some s' → entered_call_context s = RObj l →
  ∃ l', entered_call_context s' = RObj l'.
Proof.
  intros HI Ha He. pose proof (after_Inv _ _ _ HI Ha) as HI'.
  pose proof (inv_entered s' HI') as H'.
  destruct (entered_call_context s') as [| |l'] eqn:He'; [|done|eauto].
  exfalso. rewrite (after_entered _ _ _ HI Ha) in He'.
  destruct e as [method args|id args|id args|op|]; simpl in He'; try congruence;
    destruct (callbacks s !! id) as [cb|] eqn:Hcb; try congruence;
    destruct (inv_owner s HI _ _ Hcb) as [l0 Hl0]; rewrite Hl0 in He'; congruence.
Qed.

Lemma after_entered_null e s s' :
  Inv s → after e s = Some s' → entered_call_context s = RNull →
  (entered_call_context s' = RNull ↔ is_endpoint e = false).
Proof.
  intros HI Ha He. rewrite (after_entered _ _ _ HI Ha).
  pose proof (inv_entered s HI) as H. rewrite He in H.
  destruct e as [method args|id args|id args|op|]; simpl; rewrite ?H, ?lookup_empty;
    split; congruence.
Qed.

Lemma run_entered es s s' :
  Inv s → run es s = Some s' →
  (∀ l, entered_call_context s = RObj l → ∃ l', entered_call_context s' = RObj l') ∧
  (entered_call_context s = RNull →
     (entered_call_context s' = RNull ↔ Forall (λ e, is_endpoint e = false) es)).
Proof.
  revert s. induction es as [|e es IH]; intros s HI Hrun; simpl in Hrun.
  - injection Hrun as <-. split; [eauto|]. intros He. split; [by constructor|done].
  - destruct (after e s) as [s1|] eqn:Ha; [|done].
    pose proof (after_Inv _ _ _ HI Ha) as HI1.
    destruct (IH s1 HI1 Hrun) as [IHobj IHnull]. split.
    + intros l He. destruct (after_entered_obj _ _ _ _ HI Ha He) as [l1 He1]. eauto.
    + intros He. pose proof (after_entered_null _ _ _ HI Ha He) as Hn.
      rewrite Forall_cons. split.
      * intros He'. destruct (entered_call_context s1) as [| |l1] eqn:He1.
        -- split; [by apply Hn|by apply IHnull].
        -- pose proof (inv_entered s1 HI1) as H1. by rewrite He1 in H1.
        -- destruct (IHobj l1 eq_refl) as [l' Hl']. congruence.
      * intros [Hne Hall]. apply IHnull; [by apply Hn|done].
Qed.

(** C10. After any run of the engine: [getEnteredCallContext] returns the
    variable [entered_call_context] and changes nothing; that variable is
    [null] exactly when the run contains no [executeEndpoint]; when it is
    not [null] it is a call context that is in the registry under its own
    identifier; an event changes it only by entering a call context (the
    new one of [executeEndpoint], the owner of the callback for the two
    callback entry points), so it holds the most recently entered one;
    and once it is a call context it is one after every later event. *)
Theorem active_context_never_cleared (es : list event) (s : State) :
  run es init = Some s →
  getEnteredCallContext s = (Ok (entered_call_context s), s) ∧
  (entered_call_context s = RNull ↔ Forall (λ e, is_endpoint e = false) es) ∧
  entered_call_context s ≠ RUndefined ∧
  (∀ l, entered_call_context s = RObj l →
     ∃ c, heap s !! l = Some c ∧ call_contexts s !! CallContext.id c = Some l) ∧
  (∀ e s', after e s = Some s' →
     entered_call_context s' = entered_by e s ∧
     ∀ l, entered_call_context s = RObj l → ∃ l', entered_call_context s' = RObj l').
Proof.
  intros Hrun.
  assert (Inv s) as HI.
  { apply reachable_Inv. eapply run_reachable; [apply reachable_init|done]. }
  split; [done|].
  split; [by apply (run_entered es init s Inv_init Hrun)|].
  pose proof (inv_entered s HI) as H.
  split; [by destruct (entered_call_context s)|].
  split.
  - intros l He. by rewrite He in H.
  - intros e s' Ha. split; [by apply after_entered|].
    intros l He. by eapply after_entered_obj.
Qed.

Lemma active_context_never_cleared_witness :
  getEnteredCallContext after_one_endpoint = (Ok (RObj 0%nat), after_one_endpoint) ∧
  entered_call_context after_one_endpoint ≠ RNull ∧
  ∃ c, heap after_one_endpoint !! 0%nat = Some c ∧
       CallContext.pending_calls c = 0 ∧
       call_contexts after_one_endpoint !! CallContext.id c = Some 0%nat.
Proof.
  destruct (active_context_never_cleared
              [ExecuteEndpoint returns_42 []; RunJob] after_one_endpoint eq_refl)
    as (Hget & Hnull & _ & Hreg & _).
  split; [exact Hget|]. split; [discriminate|].
  destruct (Hreg 0%nat eq_refl) as (c & Hc & Hk).
  exists c. split; [exact Hc|]. split; [|exact Hk].
  vm_compute in Hc. by injection Hc as <-.
Defined.

(** ** An endpoint that returns at once *)

Lemma started_state_facts s id' :
  Inv s → next_call_context_id s = Some id' →
  call_contexts (started_state id' s) !! call_context_id s = Some (next_loc s) ∧
  heap (started_state id' s) !! next_loc s
    = Some (CallContext.mk (call_context_id s) VNull VNull 0) ∧
  entered_call_context (started_state id' s) = RObj (next_loc s) ∧
  jobs (started_state id' s) = jobs s ∧
  promises (started_state id' s) = promises s.
Proof.
  intros HI Hn. split_and!; try done.
  - simpl. eapply evict_kept; [by apply Inv_allocated_state| | |by left];
      simpl; apply lookup_insert_eq.
  - simpl. by rewrite lookup_insert_eq.
Qed.

Lemma run_ops_passive ops s :
  forallb passive ops = true →
  ∃ cbs, run_ops ops s = (Ok tt, set_callbacks cbs s).
Proof.
  revert s. induction ops as [|op ops IH]; intros s Hp; simpl in *.
  - exists (callbacks s). by rewrite set_callbacks_id.
  - apply andb_prop in Hp as [Hop Hops].
    destruct op as [|id| |n st]; try done; simpl.
    + destruct (IH (set_callbacks (delete id (callbacks s)) s) Hops) as [cbs E].
      exists cbs. unfold mbind, M_bind, bind. simpl. by rewrite E.
    + destruct (IH s Hops) as [cbs E]. exists cbs.
      unfold mbind, M_bind, bind. simpl. by rewrite E.
Qed.

(** What an endpoint does whose method registers no callback, settles no
    promise and returns a result that is settled already. *)
Lemma endpoint_settles s method args result st :
  Inv s → jobs s = [] →
  Z.of_nat (size (call_contexts s)) < MAX_ID_MASK →
  forallb passive (method args).1 = true →
  (method args).2 = Return result →
  settled_at_once result s = Some st →
  ∃ s1,
    executeEndpoint method args s = (Ok (RObj (next_loc s)), s1) ∧
    heap s1 !! next_loc s = Some (CallContext.mk (call_context_id s) VNull VNull 0) ∧
    jobs s1 = [job_of st] ∧
    entered_call_context s1 = RObj (next_loc s) ∧
    call_contexts s1 !! call_context_id s = Some (next_loc s) ∧
    back_at_host s1 =
      set_heap (<[next_loc s :=
                    CallContext.mk (call_context_id s) (outcome_after st).1
                      (outcome_after st).2 0]> (heap s1))
        (set_jobs [] s1).
Proof.
  intros HI Hjobs Hsz Hpassive Hm Hst.
  destruct (next_call_context_id_total s Hsz) as [id' Hn].
  destruct (started_state_facts s id' HI Hn) as (Hreg & Hheap & Hent & Hj & Hp).
  remember (started_state id' s) as s0 eqn:Hs0.
  destruct (run_ops_passive (method args).1 s0 Hpassive) as [cbs Hops].
  set (s0' := set_callbacks cbs s0).
  assert (promise_resolve_then result s0' = (Ok tt, set_jobs [job_of st] s0')) as Hthen.
  { destruct result as [v|p]; simpl in Hst.
    - injection Hst as <-. simpl. unfold enqueue, modify. simpl. by rewrite Hj, Hjobs.
    - unfold promise_resolve_then. erewrite bind_Ok by reflexivity. simpl. rewrite Hp.
      destruct (promises s !! p) as [[n|st']|]; try done.
      injection Hst as <-. unfold enqueue, modify. simpl. by rewrite Hj, Hjobs. }
  assert (executeEndpoint method args s
          = (Ok (RObj (next_loc s)), set_jobs [job_of st] s0')) as E.
  { rewrite (executeEndpoint_started _ _ _ id' HI Hn), <- Hs0.
    assert (call_method method args s0 = (Ok result, s0')) as Hcall.
    { unfold call_method. erewrite bind_Ok by exact Hops. by rewrite Hm. }
    erewrite bind_Ok by exact Hcall. erewrite bind_Ok by exact Hthen.
    unfold gets. simpl. by rewrite Hent. }
  exists (set_jobs [job_of st] s0'). split; [exact E|].
  split; [exact Hheap|]. split; [done|]. split; [exact Hent|]. split; [exact Hreg|].
  pose proof (run_next_job_spec (set_jobs [job_of st] s0')) as Hjob.
  simpl in Hjob. rewrite Hent, Hheap in Hjob.
  unfold back_at_host, run_jobs. simpl. rewrite Hjob. by destruct st.
Qed.

(** C8 as stated fails.  When [executeEndpoint] returns for a method that
    only returns 42, [replied] of the call context it hands back is still
    [null]: the write is a queued reaction.  And a method that issues no
    outgoing call, rejects a pending promise an earlier endpoint returned
    and returns 42 leaves, after the queue has run, [replied = 42] together
    with [rejected = 9] in the call context it got. *)
Lemma plain_42_outcome_counterexample :
  executeEndpoint returns_42 [] init = (Ok (RObj 0%nat), state_42_returned) ∧
  heap state_42_returned !! 0%nat = Some (CallContext.mk 0 VNull VNull 0) ∧
  executeEndpoint rejecting_method [] state_waiting
    = (Ok (RObj 1%nat), state_rejecting_returned) ∧
  back_at_host state_rejecting_returned = state_rejecting_drained ∧
  heap state_rejecting_drained !! 1%nat
    = Some (CallContext.mk 1 (VNum 42) (VNum 9) 0) ∧
  ¬ plain_42_succeeds id ∧
  ¬ plain_42_succeeds back_at_host.
Proof.
  split_and!; try reflexivity.
  - intros H.
    destruct (H init returns_42 [] (RObj 0%nat) state_42_returned
                reachable_init eq_refl eq_refl eq_refl) as (l & c & Hl & Hc & Ho).
    injection Hl as <-.
    assert (heap (id state_42_returned) !! 0%nat
            = Some (CallContext.mk 0 VNull VNull 0)) as E by reflexivity.
    rewrite E in Hc. injection Hc as <-. discriminate Ho.
  - intros H.
    assert (reachable state_waiting) as Hreach.
    { apply (run_reachable
               [ExecuteEndpoint (const_method [] (Return (PromiseOf (UserPromise 0)))) []]
               init); [apply reachable_init|reflexivity]. }
    destruct (H state_waiting rejecting_method [] (RObj 1%nat) state_rejecting_returned
                Hreach eq_refl eq_refl eq_refl) as (l & c & Hl & Hc & Ho).
    injection Hl as <-.
    assert (heap (back_at_host state_rejecting_returned) !! 1%nat
            = Some (CallContext.mk 1 (VNum 42) (VNum 9) 0)) as E by reflexivity.
    rewrite E in Hc. injection Hc as <-. discriminate Ho.
Qed.

(** C8, amended.  An endpoint started with an empty job queue whose method
    registers no callback, settles no promise and returns the plain value
    42 returns its new call context with [replied] still [null] and the
    reaction queued; once the queue has run, the call context holds
    [replied = 42], [rejected = null] and no pending call, is still active
    and registered, and entering any other call context removes it from the
    registry. *)
Theorem endpoint_returning_42 (s : State) (method : Method) (args : list value) :
  reachable s → jobs s = [] →
  Z.of_nat (size (call_contexts s)) < MAX_ID_MASK →
  forallb passive (method args).1 = true →
  (method args).2 = Return (Plain (VNum 42)) →
  ∃ s1,
    executeEndpoint method args s = (Ok (RObj (next_loc s)), s1) ∧
    heap s1 !! next_loc s = Some (CallContext.mk (call_context_id s) VNull VNull 0) ∧
    jobs s1 = [OnFulfilled (VNum 42)] ∧
    heap (back_at_host s1) !! next_loc s
      = Some (CallContext.mk (call_context_id s) (VNum 42) VNull 0) ∧
    entered_call_context (back_at_host s1) = RObj (next_loc s) ∧
    call_contexts (back_at_host s1) !! call_context_id s = Some (next_loc s) ∧
    jobs (back_at_host s1) = [] ∧
    ∀ l' c', l' ≠ next_loc s → heap (back_at_host s1) !! l' = Some c' →
      ∃ s3, enterCallContext (RObj l') (back_at_host s1) = (Ok tt, s3) ∧
            entered_call_context s3 = RObj l' ∧
            call_contexts s3 !! call_context_id s = None.
Proof.
  intros HI%reachable_Inv Hjobs Hsz Hpassive Hm.
  destruct (endpoint_settles s method args (Plain (VNum 42)) (Fulfill (VNum 42))
              HI Hjobs Hsz Hpassive Hm eq_refl)
    as (s1 & E & Hh1 & Hj1 & He1 & Hr1 & Hback).
  exists s1. split; [exact E|]. split; [exact Hh1|]. split; [exact Hj1|].
  rewrite Hback. simpl.
  split; [by rewrite lookup_insert_eq|]. split; [exact He1|]. split; [exact Hr1|].
  split; [done|].
  intros l' c' Hne Hc'.
  eexists. split.
  - apply (enterCallContext_obj _ l' c'); [exact Hc'|].
    simpl. intros l0 Hl0. rewrite He1 in Hl0. injection Hl0 as <-.
    rewrite lookup_insert_eq. eauto.
  - split; [done|]. unfold entered_state, evict. simpl.
    rewrite He1, lookup_insert_eq. simpl.
    rewrite bool_decide_eq_true_2 by congruence. simpl.
    apply lookup_delete_eq.
Qed.

Lemma endpoint_returning_42_witness :
  executeEndpoint returns_42 [] with_one_callback
    = (Ok (RObj 1%nat), state_42_beside_callback) ∧
  heap state_42_beside_callback !! 1%nat = Some (CallContext.mk 1 VNull VNull 0) ∧
  heap (back_at_host state_42_beside_callback) !! 1%nat
    = Some (CallContext.mk 1 (VNum 42) VNull 0) ∧
  call_contexts (back_at_host state_42_beside_callback) !! 1 = Some 1%nat ∧
  ∃ s3, enterCallContext (RObj 0%nat) (back_at_host state_42_beside_callback) = (Ok tt, s3) ∧
        entered_call_context s3 = RObj 0%nat ∧
        call_contexts s3 !! 1 = None.
Proof.
  destruct (endpoint_returning_42 with_one_callback returns_42 [])
    as (s1 & E & Hh1 & _ & Hh2 & _ & Hreg & _ & Hevict).
  - apply with_one_callback_reachable.
  - reflexivity.
  - vm_compute. reflexivity.
  - reflexivity.
  - reflexivity.
  - assert (executeEndpoint returns_42 [] with_one_callback
            = (Ok (RObj 1%nat), state_42_beside_callback)) as E' by reflexivity.
    assert (s1 = state_42_beside_callback) as -> by congruence.
    split; [exact E'|]. split; [exact Hh1|]. split; [exact Hh2|]. split; [exact Hreg|].
    apply (Hevict 0%nat (CallContext.mk 0 VNull VNull 1)); [discriminate|reflexivity].
Defined.

(** ** Reuse of identifiers *)

Lemma ids_from_S c n :
  0 ≤ c < 2 ^ 31 → ids_from c (S n) = c :: ids_from ((c + 1) mod 2 ^ 31) n.
Proof.
  intros Hc. unfold ids_from. simpl. f_equal.
  - rewrite Z.add_0_r. by apply Z.mod_small.
  - rewrite <- fmap_S_seq, <- list_fmap_compose. apply list_fmap_ext.
    intros _ i _. simpl. rewrite Zplus_mod_idemp_l. f_equal. lia.
Qed.

Lemma create_n_spec n s l :
  Inv s → entered_call_context s = RObj l → Z.of_nat n < 2 ^ 31 →
  (∀ i, 0 ≤ i ≤ Z.of_nat n → callbacks s !! ((callback_id s + i) mod 2 ^ 31) = None) →
  ∃ s', create_n n s = (ids_from (callback_id s) n, s') ∧
        Inv s' ∧ entered_call_context s' = RObj l ∧
        callback_id s' = (callback_id s + Z.of_nat n) mod 2 ^ 31 ∧
        dom (callbacks s') = dom (callbacks s) ∪ list_to_set (ids_from (callback_id s) n).
Proof.
  revert s. induction n as [|n IH]; intros s HI He Hn Hfree.
  - exists s. simpl. pose proof (inv_cb_cursor_range s HI). unfold MAX_ID_MASK in *.
    split_and!; try done.
    + rewrite Z.mod_small; lia.
    + unfold ids_from. simpl. by rewrite union_empty_r_L.
  - pose proof (inv_cb_cursor_range s HI) as Hr. unfold MAX_ID_MASK in Hr.
    destruct (Inv_entered_live s HI l He) as [c Hc].
    set (cb := Callback.mk (CallContext.id c) (CallbackPromise (next_promise s))).
    set (id' := (callback_id s + 1) mod 2 ^ 31).
    assert (callback_id s = (callback_id s + 0) mod 2 ^ 31) as Hc0.
    { rewrite Z.add_0_r. symmetry. apply Z.mod_small. lia. }
    assert (∀ i, 0 < i < 2 ^ 31 → (callback_id s + i) mod 2 ^ 31 ≠ callback_id s) as Hne.
    { intros i Hi E. rewrite Hc0 in E at 2. apply mod_shift_inj in E; lia. }
    assert (next_callback_id s cb = Some id') as Hnext.
    { unfold next_callback_id. rewrite find_next_free; rewrite land_mask; [done|].
      rewrite lookup_insert_ne by (intros E; symmetry in E; revert E; apply Hne; lia).
      apply Hfree. lia. }
    rewrite (ids_from_S (callback_id s) n) by lia. fold id'.
    simpl. rewrite (createCallback_Ok s l c id' He Hc Hnext). simpl.
    destruct (IH (created_state l c id' s)) as (s' & E & HI' & He' & Hid' & Hdom).
    + by apply Inv_created_state.
    + done.
    + lia.
    + intros i Hi. simpl. unfold id'. rewrite Zplus_mod_idemp_l.
      replace (callback_id s + 1 + i) with (callback_id s + (1 + i)) by lia.
      rewrite lookup_insert_ne by (intros E; symmetry in E; revert E; apply Hne; lia).
      apply Hfree. lia.
    + simpl in *. exists s'. rewrite E.
      split_and!; try done.
      * rewrite Hid'. unfold id'. rewrite Zplus_mod_idemp_l. f_equal. lia.
      * rewrite Hdom, dom_insert_L. fold id'. simpl.
        apply set_eq. intros x. rewrite !elem_of_union. tauto.
Qed.

Lemma remove_all_spec ids s :
  Inv s →
  Inv (remove_all ids s) ∧
  entered_call_context (remove_all ids s) = entered_call_context s ∧
  callback_id (remove_all ids s) = callback_id s ∧
  dom (callbacks (remove_all ids s)) = dom (callbacks s) ∖ list_to_set ids.
Proof.
  revert s. induction ids as [|id ids IH]; intros s HI; simpl.
  - split_and!; try done. by rewrite difference_empty_L.
  - destruct (IH (set_callbacks (delete id (callbacks s)) s)) as (HI' & He & Hc & Hdom).
    { by apply Inv_removeCallback. }
    split_and!; try done. rewrite Hdom. simpl. rewrite dom_delete_L.
    apply set_eq. intros x. rewrite !elem_of_difference, elem_of_union. tauto.
Qed.

(** C7 as stated fails: from a fresh callback allocator, two identifiers
    0 and 1 are allocated and freed; the next two allocations give 2
    and 3. *)
Lemma freed_ids_not_reused :
  (create_n 2 after_one_endpoint).1 = [0; 1] ∧
  callbacks (remove_all [0; 1] (create_n 2 after_one_endpoint).2) = ∅ ∧
  (create_n 2 (remove_all [0; 1] (create_n 2 after_one_endpoint).2)).1 = [2; 3] ∧
  ¬ ids_reused 2 after_one_endpoint.
Proof.
  repeat split; try (vm_compute; reflexivity).
  vm_compute. intros H. discriminate H.
Qed.

(** C7, amended.  From a state with an active call context, an empty
    callback registry and the callback cursor at 0, [N] allocations give
    the identifiers 0 .. N-1; after all of them are removed the registry is
    empty again and the next [N] allocations go on from the cursor: they
    give N, N+1, ... wrapping to 0 after 2^31 - 1. *)
Theorem callback_ids_continue (s : State) (l : loc) (N : nat) :
  reachable s → entered_call_context s = RObj l →
  callbacks s = ∅ → callback_id s = 0 → Z.of_nat N < 2 ^ 31 →
  (create_n N s).1 = Z.of_nat <$> seq 0 N ∧
  callbacks (remove_all (create_n N s).1 (create_n N s).2) = ∅ ∧
  (create_n N (remove_all (create_n N s).1 (create_n N s).2)).1
    = ids_from (Z.of_nat N) N.
Proof.
  intros HI%reachable_Inv He Hemp Hcur HN.
  destruct (create_n_spec N s l HI He HN) as (s1 & E1 & HI1 & He1 & Hid1 & Hdom1).
  { intros i Hi. by rewrite Hemp. }
  rewrite E1. simpl. rewrite Hcur in *.
  destruct (remove_all_spec (ids_from 0 N) s1 HI1) as (HI2 & He2 & Hid2 & Hdom2).
  assert (callbacks (remove_all (ids_from 0 N) s1) = ∅) as Hemp2.
  { apply dom_empty_iff_L. rewrite Hdom2, Hdom1, Hemp, dom_empty_L, union_empty_l_L.
    apply difference_diag_L. }
  split; [|split; [done|]].
  - unfold ids_from. apply list_fmap_ext. intros k i Hi%lookup_seq. simpl.
    apply Z.mod_small. lia.
  - destruct (create_n_spec N (remove_all (ids_from 0 N) s1) l HI2) as (s3 & E3 & _).
    + congruence.
    + done.
    + intros i Hi. by rewrite Hemp2.
    + rewrite E3. simpl. rewrite Hid2, Hid1. f_equal. simpl.
      apply Z.mod_small. lia.
Qed.

Lemma callback_ids_continue_witness :
  (create_n 3 after_one_endpoint).1 = [0; 1; 2] ∧
  callbacks (remove_all (create_n 3 after_one_endpoint).1 (create_n 3 after_one_endpoint).2) = ∅ ∧
  (create_n 3 (remove_all (create_n 3 after_one_endpoint).1
                 (create_n 3 after_one_endpoint).2)).1 = [3; 4; 5].
Proof.
  apply (callback_ids_continue after_one_endpoint 0%nat 3).
  - apply after_one_endpoint_reachable.
  - reflexivity.
  - reflexivity.
  - reflexivity.
  - vm_compute. reflexivity.
Defined.

(** The call-context stream behaves the same way: three endpoints in a row
    get the identifiers 0, 1 and 2 although each of the first two has left
    the registry when the next one is allocated. *)
Example context_stream_goes_on :
  (λ s, (call_context_id s, map_to_list (call_contexts s))) <$>
    run [ExecuteEndpoint returns_42 []; ExecuteEndpoint returns_42 [];
         ExecuteEndpoint returns_42 []] init
  = Some (3, [(2, 2%nat)]).
Proof. vm_compute. reflexivity. Qed.

(** ** The outcome of a call context *)

(** C4 as stated fails: the first call context gets the outcome
    [replied = 1]; the reply to its callback enters it again, which clears
    the outcome; and the reaction of the second endpoint then writes
    [replied = 2] into it. *)
Lemma outcome_set_twice :
  outcome_in first_endpoint 0%nat = Some (VNum 1, VNull) ∧
  outcome_in (first_endpoint ++ second_endpoint) 0%nat = Some (VNum 1, VNull) ∧
  outcome_in (first_endpoint ++ second_endpoint ++ reply_arrives) 0%nat
    = Some (VNull, VNull) ∧
  outcome_in (first_endpoint ++ second_endpoint ++ reply_arrives ++ [RunJob]) 0%nat
    = Some (VNum 2, VNull) ∧
  ¬ outcome_set_once.
Proof.
  split_and!; try reflexivity.
  intros H.
  specialize (H first_endpoint (second_endpoint ++ reply_arrives)
                state_first state_cleared 0%nat
                (CallContext.mk 0 (VNum 1) VNull 1) (CallContext.mk 0 VNull VNull 0)
                eq_refl eq_refl eq_refl eq_refl).
  unfold outcome_of in H. simpl in H.
  assert ((VNull, VNull) = (VNum 1, VNull)) as E by (apply H; discriminate).
  discriminate E.
Qed.

(** C4, amended.  In every reachable state, whatever event comes next, the
    outcome fields of a call context are left as they are unless
    - the event is [executeReplyCallback] or [executeRejectCallback] for a
      callback of that call context: entering it sets both fields to
      [null], whatever they were; or
    - the event is a reaction job registered by [executeEndpoint] and the
      call context is the active one: the job leaves the queue and writes
      its value into exactly one of the two fields.
    A call context that appears with the event is the new one of
    [executeEndpoint] and starts with both fields [null]. *)
Theorem outcome_changes (s s' : State) (e : event) (l : loc) (c' : CallContext.t) :
  reachable s → after e s = Some s' → heap s' !! l = Some c' →
  match heap s !! l with
  | Some c =>
      outcome_of c' = outcome_of c ∨
      (is_switch e = true ∧ is_endpoint e = false ∧
       entered_call_context s' = RObj l ∧ outcome_of c' = (VNull, VNull)) ∨
      (e = RunJob ∧ entered_call_context s = RObj l ∧
       ∃ j js, jobs s = j :: js ∧ jobs s' = js ∧
         match j with
         | OnFulfilled r => outcome_of c' = (r, CallContext.rejected c)
         | OnRejected x => outcome_of c' = (CallContext.replied c, x)
         end)
  | None =>
      is_endpoint e = true ∧ entered_call_context s' = RObj l ∧
      outcome_of c' = (VNull, VNull)
  end.
Proof.
  intros HI%reachable_Inv Ha Hc'.
  assert (∀ s1 s2, client_step s1 s2 →
            match heap s1 !! l with
            | Some c1 => ∃ c2, heap s2 !! l = Some c2 ∧ outcome_of c2 = outcome_of c1
            | None => heap s2 !! l = None
            end) as Hclient.
  { intros s1 s2 Hcs. destruct (cs_heap _ _ Hcs l) as [E|(_ & c1 & n & Hc1 & _ & Hc2)].
    - rewrite E. destruct (heap s1 !! l); eauto.
    - rewrite Hc1. eauto. }
  destruct e as [method args|id args|id args|op|].
  - destruct (after_ExecuteEndpoint _ _ _ _ HI Ha)
      as (id' & s2 & Hn & _ & HI2 & Hcs & (ps & np & js & ->) & _).
    specialize (Hclient _ _ Hcs). simpl in Hc', Hclient.
    pose proof (cs_entered _ _ Hcs) as He. simpl in He.
    destruct (decide (l = next_loc s)) as [->|Hne].
    + rewrite (inv_heap s HI) by lia. rewrite lookup_insert_eq in Hclient.
      destruct Hclient as (c2 & Hc2 & Ho). simpl. split; [done|]. split; [done|].
      assert (c2 = c') as -> by congruence. exact Ho.
    + rewrite !lookup_insert_ne in Hclient by done.
      destruct (heap s !! l) as [c|] eqn:Hc; [|congruence].
      destruct Hclient as (c2 & Hc2 & Ho). left. congruence.
  - destruct (after_callback_event _ id _ _ (is_reply id args) HI Ha)
      as [(_ & -> & _)|(cb & l0 & c0 & Hcb & Hl0 & Hc0 & (ps & np & js & ->) & _)].
    + rewrite Hc'. by left.
    + simpl in *. destruct (decide (l = l0)) as [->|Hne].
      * rewrite Hc0. right. left. rewrite lookup_insert_eq in Hc'.
        injection Hc' as <-. done.
      * rewrite !lookup_insert_ne in Hc' by done. rewrite Hc'. by left.
  - destruct (after_callback_event _ id _ _ (is_reject id args) HI Ha)
      as [(_ & -> & _)|(cb & l0 & c0 & Hcb & Hl0 & Hc0 & (ps & np & js & ->) & _)].
    + rewrite Hc'. by left.
    + simpl in *. destruct (decide (l = l0)) as [->|Hne].
      * rewrite Hc0. right. left. rewrite lookup_insert_eq in Hc'.
        injection Hc' as <-. done.
      * rewrite !lookup_insert_ne in Hc' by done. rewrite Hc'. by left.
  - destruct (after_ClientCall _ _ _ HI Ha) as [_ Hcs].
    specialize (Hclient _ _ Hcs).
    destruct (heap s !! l) as [c|]; [|congruence].
    destruct Hclient as (c2 & Hc2 & Ho). left. congruence.
  - apply after_RunJob in Ha as ->.
    pose proof (run_next_job_spec s) as Hj.
    destruct (jobs s) as [|j js] eqn:Hjobs.
    { rewrite Hj in Hc'. simpl in Hc'. rewrite Hc'. by left. }
    destruct (entered_call_context s) as [| |l0] eqn:He;
      try (rewrite Hj in Hc'; simpl in Hc'; rewrite Hc'; by left).
    destruct (heap s !! l0) as [c0|] eqn:Hc0; rewrite Hj in *; simpl in *;
      [|rewrite Hc'; by left].
    destruct (decide (l = l0)) as [->|Hne].
    + rewrite Hc0. right. right. rewrite lookup_insert_eq in Hc'.
      injection Hc' as <-. split; [done|]. split; [done|].
      exists j, js. by destruct j.
    + rewrite lookup_insert_ne in Hc' by done. rewrite Hc'. by left.
Qed.

Lemma outcome_changes_witness :
  outcome_of (CallContext.mk 0 VNull VNull 0) = outcome_of (CallContext.mk 0 (VNum 1) VNull 1) ∨
  (is_switch (ExecuteReplyCallback 0 [VNum 2]) = true ∧
   is_endpoint (ExecuteReplyCallback 0 [VNum 2]) = false ∧
   entered_call_context state_cleared = RObj 0%nat ∧
   outcome_of (CallContext.mk 0 VNull VNull 0) = (VNull, VNull)) ∨
  (ExecuteReplyCallback 0 [VNum 2] = RunJob ∧
   entered_call_context state_second = RObj 0%nat ∧
   ∃ j js, jobs state_second = j :: js ∧
     jobs state_cleared = js ∧
     match j with
     | OnFulfilled r => outcome_of (CallContext.mk 0 VNull VNull 0) = (r, VNull)
     | OnRejected x => outcome_of (CallContext.mk 0 VNull VNull 0) = (VNum 1, x)
     end).
Proof.
  apply (outcome_changes state_second state_cleared
           (ExecuteReplyCallback 0 [VNum 2]) 0%nat (CallContext.mk 0 VNull VNull 0)).
  - apply (run_reachable (first_endpoint ++ second_endpoint) init);
      [apply reachable_init|reflexivity].
  - reflexivity.
  - reflexivity.
Defined.

(** ** Where the cursors go *)

Lemma find_next_least {A} fuel (m : gmap Z A) id id' :
  find_next fuel m id = Some id' →
  ∃ i, 0 ≤ i < Z.of_nat fuel ∧
       id' = (id + 1 + i) mod 2 ^ 31 ∧
       m !! id' = None ∧
       ∀ j, 0 ≤ j < i → is_Some (m !! ((id + 1 + j) mod 2 ^ 31)).
Proof.
  revert id. induction fuel as [|fuel IH]; intros id; simpl; [done|].
  destruct (m !! Z.land (id + 1) MAX_ID_MASK) as [x|] eqn:E.
  - intros H. destruct (IH _ H) as (i & Hi & Hid & Hfree & Hbusy).
    rewrite land_mask in Hid, Hbusy.
    assert (∀ j, ((id + 1) mod 2 ^ 31 + 1 + j) mod 2 ^ 31 = (id + 1 + (j + 1)) mod 2 ^ 31)
      as Hshift.
    { intros j. rewrite <- !Z.add_assoc, Zplus_mod_idemp_l. f_equal. lia. }
    exists (i + 1). split; [lia|]. split; [by rewrite <- Hshift|]. split; [done|].
    intros j Hj. destruct (decide (j = 0)) as [->|Hne].
    + rewrite Z.add_0_r, <- land_mask, E. eauto.
    + replace j with ((j - 1) + 1) by lia. rewrite <- Hshift. apply Hbusy. lia.
  - intros [= <-]. exists 0. split; [lia|]. rewrite Z.add_0_r, <- land_mask.
    split; [done|]. split; [done|]. intros j Hj. lia.
Qed.

(** X1. When [newCallContext] returns, the new cursor is the first
    identifier after the old one, counting upwards and wrapping at 2^31,
    that is not a key of the registry (which now holds the new call
    context): every identifier passed over is in use. *)
Theorem newCallContext_cursor_next_free (s s' : State) (l : loc) :
  newCallContext s = (Ok l, s') →
  ∃ i, 0 ≤ i ∧
       call_context_id s' = (call_context_id s + 1 + i) mod 2 ^ 31 ∧
       call_contexts s' !! call_context_id s' = None ∧
       call_contexts s' !! call_context_id s = Some l ∧
       ∀ j, 0 ≤ j < i →
         is_Some (call_contexts s' !! ((call_context_id s + 1 + j) mod 2 ^ 31)).
Proof.
  intros E. destruct (next_call_context_id s) as [id'|] eqn:Hn.
  - rewrite (newCallContext_Ok s id' Hn) in E.
    assert (l = next_loc s) as -> by congruence.
    assert (s' = allocated_state id' s) as -> by congruence. clear E.
    unfold next_call_context_id in Hn.
    destruct (find_next_least _ _ _ _ Hn) as (i & Hi & Hid & Hfree & Hbusy).
    exists i. simpl. split; [lia|]. split; [done|]. split; [done|].
    split; [apply lookup_insert_eq|done].
  - pose proof (newCallContext_Loops s Hn) as HL. rewrite E in HL. discriminate HL.
Qed.

Lemma newCallContext_cursor_next_free_witness :
  ∃ i, 0 ≤ i ∧
       call_context_id (allocated_state 2 after_one_endpoint) = (1 + 1 + i) mod 2 ^ 31 ∧
       call_contexts (allocated_state 2 after_one_endpoint) !! 2 = None ∧
       call_contexts (allocated_state 2 after_one_endpoint) !! 1 = Some 1%nat ∧
       ∀ j, 0 ≤ j < i →
         is_Some (call_contexts (allocated_state 2 after_one_endpoint)
                    !! ((1 + 1 + j) mod 2 ^ 31)).
Proof.
  apply (newCallContext_cursor_next_free after_one_endpoint
           (allocated_state 2 after_one_endpoint) 1%nat).
  reflexivity.
Defined.

(** X2. At the top of the identifier space the cursor wraps: when the
    cursor is [MAX_ID_MASK] and 0 is not in the registry,
    [newCallContext] registers its call context under [MAX_ID_MASK] and
    moves the cursor to 0. *)
Theorem newCallContext_wraps (s : State) :
  call_context_id s = MAX_ID_MASK → call_contexts s !! 0 = None →
  ∃ s', newCallContext s = (Ok (next_loc s), s') ∧
        call_context_id s' = 0 ∧
        call_contexts s' !! MAX_ID_MASK = Some (next_loc s) ∧
        heap s' !! next_loc s = Some (CallContext.mk MAX_ID_MASK VNull VNull 0).
Proof.
  intros Hc H0.
  assert (next_call_context_id s = Some 0) as Hn.
  { unfold next_call_context_id. rewrite Hc.
    apply (find_next_free _ _ MAX_ID_MASK).
    change (Z.land (MAX_ID_MASK + 1) MAX_ID_MASK) with 0.
    rewrite lookup_insert_ne; [done|]. unfold MAX_ID_MASK. lia. }
  eexists. split; [by apply newCallContext_Ok|]. simpl. rewrite Hc.
  split; [done|]. by rewrite !lookup_insert_eq.
Qed.

Lemma newCallContext_wraps_witness :
  ∃ s', newCallContext cursor_at_top = (Ok 0%nat, s') ∧
        call_context_id s' = 0 ∧
        call_contexts s' !! MAX_ID_MASK = Some 0%nat ∧
        heap s' !! 0%nat = Some (CallContext.mk MAX_ID_MASK VNull VNull 0).
Proof. apply (newCallContext_wraps cursor_at_top); reflexivity. Defined.

(** X3. In a reachable state, when [createCallback] returns, the
    identifier it returns was not a key of the callback registry; the
    callback is stored under it, names the active call context and carries
    a new pending promise; the other callbacks are as they were; and the
    callback cursor has moved to the first identifier after the old one,
    wrapping at 2^31, that is not in use. *)
Theorem createCallback_fresh (s s' : State) (r : Z * promise) :
  reachable s → createCallback s = (Ok r, s') →
  r.1 = callback_id s ∧
  callbacks s !! r.1 = None ∧
  (∃ l c, entered_call_context s = RObj l ∧ heap s !! l = Some c ∧
          callbacks s' !! r.1 = Some (Callback.mk (CallContext.id c) r.2)) ∧
  (∀ i, i ≠ r.1 → callbacks s' !! i = callbacks s !! i) ∧
  promises s' !! r.2 = Some (Pending 0) ∧
  ∃ i, 0 ≤ i ∧
       callback_id s' = (callback_id s + 1 + i) mod 2 ^ 31 ∧
       callbacks s' !! callback_id s' = None ∧
       ∀ j, 0 ≤ j < i → is_Some (callbacks s' !! ((callback_id s + 1 + j) mod 2 ^ 31)).
Proof.
  intros Hreach E. pose proof (reachable_Inv s Hreach) as HI.
  destruct (entered_call_context s) as [| |l] eqn:He;
    try (rewrite createCallback_Throw in E by (by rewrite He); discriminate E).
  destruct (Inv_entered_live s HI l He) as [c Hc].
  destruct (next_callback_id s (Callback.mk (CallContext.id c) (CallbackPromise (next_promise s))))
    as [id'|] eqn:Hn; cycle 1.
  { pose proof (createCallback_Loops s l c He Hc Hn) as HL. rewrite E in HL. discriminate HL. }
  rewrite (createCallback_Ok s l c id' He Hc Hn) in E.
  assert (r = (callback_id s, CallbackPromise (next_promise s))) as -> by congruence.
  assert (s' = created_state l c id' s) as -> by congruence. clear E.
  unfold next_callback_id in Hn.
  destruct (find_next_least _ _ _ _ Hn) as (i & Hi & Hid & Hfree & Hbusy).
  simpl. split; [done|]. split; [apply HI|].
  split; [exists l, c; by rewrite lookup_insert_eq|].
  split; [intros k Hk; by rewrite lookup_insert_ne|].
  split; [apply lookup_insert_eq|].
  exists i. split; [lia|]. done.
Qed.

Lemma createCallback_fresh_witness :
  callbacks after_one_endpoint !! 0 = None ∧
  ∃ l c, entered_call_context after_one_endpoint = RObj l ∧
         heap after_one_endpoint !! l = Some c ∧
         callbacks (created_state 0%nat (CallContext.mk 0 (VNum 42) VNull 0) 1 after_one_endpoint) !! 0
           = Some (Callback.mk (CallContext.id c) (CallbackPromise 0)).
Proof.
  destruct (createCallback_fresh after_one_endpoint
              (created_state 0%nat (CallContext.mk 0 (VNum 42) VNull 0) 1 after_one_endpoint)
              (0, CallbackPromise 0) after_one_endpoint_reachable eq_refl)
    as (_ & Hfree & Hcb & _).
  split; [exact Hfree|exact Hcb].
Defined.

(** ** Identifiers stay in the 31-bit space *)

Lemma Range_heap_update s l c c' :
  Range s → heap s !! l = Some c → CallContext.id c' = CallContext.id c →
  Range (set_heap (<[l := c']> (heap s)) s).
Proof.
  intros [Hcb Hh] Hc Hid. split; simpl; [done|].
  intros l0 c0 H0. apply lookup_insert_Some in H0 as [[<- <-]|[_ H0]].
  - rewrite Hid. by eapply Hh.
  - by eapply Hh.
Qed.

Lemma Range_runtime_only s s' : runtime_only s s' → Range s → Range s'.
Proof. by intros (ps & np & js & ->). Qed.

Lemma Range_removeCallback s id :
  Range s → Range (set_callbacks (delete id (callbacks s)) s).
Proof.
  intros [Hcb Hh]. split; simpl; [|done].
  intros i cb Hi%lookup_delete_Some. by eapply Hcb, Hi.
Qed.

Lemma Range_entered_state s l c :
  Range s → heap s !! l = Some c → Range (entered_state l c s).
Proof.
  intros [Hcb Hh] Hc. split; simpl; [done|].
  intros l0 c0 H0. apply lookup_insert_Some in H0 as [[<- <-]|[_ H0]].
  - simpl. by eapply Hh.
  - by eapply Hh.
Qed.

Lemma Range_started_state s id' :
  Inv s → Range s → Range (started_state id' s).
Proof.
  intros HI [Hcb Hh]. unfold started_state.
  apply Range_entered_state; [|simpl; apply lookup_insert_eq].
  split; simpl; [done|].
  intros l0 c0 H0. apply lookup_insert_Some in H0 as [[<- <-]|[_ H0]].
  - simpl. apply HI.
  - by eapply Hh.
Qed.

Lemma Range_resumed_state s id l c :
  Range s → heap s !! l = Some c → Range (resumed_state id l c s).
Proof.
  intros HR Hc. unfold resumed_state.
  eapply Range_heap_update; [|simpl; apply lookup_insert_eq|done].
  apply Range_entered_state; [by apply Range_removeCallback|done].
Qed.

Lemma call_op_Range op s :
  Inv s → Range s → (call_op op s).1 ≠ Loops → Range (call_op op s).2.
Proof.
  intros HI HR Hnl. destruct op as [|id| |n st]; simpl in *.
  - destruct (entered_call_context s) as [| |l] eqn:He.
    + unfold mbind, M_bind, bind. rewrite (createCallback_Throw s) by by rewrite He. done.
    + pose proof (inv_entered s HI) as H. by rewrite He in H.
    + destruct (Inv_entered_live s HI l He) as [c Hc].
      destruct (next_callback_id s (Callback.mk (CallContext.id c) (CallbackPromise (next_promise s))))
        as [id'|] eqn:Hn.
      * unfold mbind, M_bind, bind in *.
        rewrite (createCallback_Ok s l c id') in * by done. simpl.
        destruct HR as [Hcb Hh]. split; simpl.
        -- intros i cb Hi. apply lookup_insert_Some in Hi as [[<- _]|[_ Hi]];
             [apply HI|by eapply Hcb].
        -- intros l0 c0 H0. apply lookup_insert_Some in H0 as [[<- <-]|[_ H0]];
             [simpl|]; by eapply Hh.
      * exfalso. apply Hnl. unfold mbind, M_bind, bind.
        pose proof (createCallback_Loops s l c He Hc Hn) as HL.
        destruct (createCallback s) as [[] ?]; simpl in *; done.
  - by apply Range_removeCallback.
  - done.
  - destruct (settle_promise_runtime (UserPromise n) st s) as (s' & E & Hr).
    unfold mbind, M_bind, bind. rewrite E. simpl. by eapply Range_runtime_only.
Qed.

Lemma run_ops_Range ops s :
  Inv s → Range s → (run_ops ops s).1 ≠ Loops → Range (run_ops ops s).2.
Proof.
  revert s. induction ops as [|op ops IH]; intros s HI HR Hnl; simpl in *; [done|].
  unfold mbind, M_bind, bind in *.
  pose proof (call_op_spec op s HI) as Hop.
  pose proof (call_op_Range op s HI HR) as HopR.
  destruct (call_op op s) as [[r|e|] s1]; simpl in *; [|by apply HopR|done].
  destruct (Hop ltac:(done)) as [HI1 _]. apply IH; [done|by apply HopR|done].
Qed.

Lemma after_Range e s s' : Inv s → Range s → after e s = Some s' → Range s'.
Proof.
  intros HI HR Ha. destruct e as [method args|id args|id args|op|].
  - destruct (after_ExecuteEndpoint _ _ _ _ HI Ha)
      as (id' & s2 & Hn & Hops & _ & _ & Hrt & _).
    eapply Range_runtime_only; [done|].
    pose proof (run_ops_Range (method args).1 _ (Inv_started_state s id' HI Hn)
                  (Range_started_state s id' HI HR)) as H.
    rewrite Hops in H. by apply H.
  - destruct (after_callback_event _ id _ _ (is_reply id args) HI Ha)
      as [(_ & -> & _)|(cb & l0 & c0 & _ & _ & Hc0 & Hrt & _)]; [done|].
    eapply Range_runtime_only; [done|]. by apply Range_resumed_state.
  - destruct (after_callback_event _ id _ _ (is_reject id args) HI Ha)
      as [(_ & -> & _)|(cb & l0 & c0 & _ & _ & Hc0 & Hrt & _)]; [done|].
    eapply Range_runtime_only; [done|]. by apply Range_resumed_state.
  - unfold after in Ha. simpl in Ha.
    pose proof (call_op_Range op s HI HR) as H.
    destruct (call_op op s) as [[] s1]; simpl in *; try done;
      injection Ha as <-; by apply H.
  - apply after_RunJob in Ha as ->.
    pose proof (run_next_job_spec s) as Hj.
    destruct (jobs s) as [|j js]; [by rewrite Hj|].
    destruct (entered_call_context s) as [| |l0]; try (by rewrite Hj).
    destruct (heap s !! l0) as [c0|] eqn:Hc0; rewrite Hj; simpl; [|done].
    apply (Range_heap_update (set_jobs js s) l0 c0); [done|done|by destruct j].
Qed.

Lemma reachable_Range s : reachable s → Range s.
Proof.
  induction 1 as [|s e s' Hs IH Ha]; [by split|].
  eapply after_Range; [by apply reachable_Inv|done|done].
Qed.

(** X4. In every reachable state both cursors, every key of the two
    registries, the identifier stored in every call context and the
    [call_context_id] of every callback are within 0 .. [MAX_ID_MASK]. *)
Theorem identifiers_fit_31_bits (s : State) :
  reachable s →
  in_range (call_context_id s) ∧ in_range (callback_id s) ∧
  (∀ k l, call_contexts s !! k = Some l → in_range k) ∧
  (∀ l c, heap s !! l = Some c → in_range (CallContext.id c)) ∧
  (∀ i cb, callbacks s !! i = Some cb →
     in_range i ∧ in_range (Callback.call_context_id cb)).
Proof.
  intros Hs. pose proof (reachable_Inv s Hs) as HI.
  destruct (reachable_Range s Hs) as [Hcb Hh].
  assert (∀ k l, call_contexts s !! k = Some l → in_range k) as Hreg.
  { intros k l Hk. destruct (inv_registered s HI _ _ Hk) as (c & Hc & <-). by eapply Hh. }
  split; [apply HI|]. split; [apply HI|]. split; [done|]. split; [done|].
  intros i cb Hi. split; [by eapply Hcb|].
  destruct (inv_owner s HI _ _ Hi) as [l Hl]. by eapply Hreg.
Qed.

Lemma identifiers_fit_31_bits_witness :
  in_range (call_context_id with_one_callback) ∧
  in_range (callback_id with_one_callback) ∧
  in_range (Callback.call_context_id (Callback.mk 0 (CallbackPromise 0))).
Proof.
  destruct (identifiers_fit_31_bits with_one_callback with_one_callback_reachable)
    as (H1 & H2 & _ & _ & H5).
  split; [exact H1|]. split; [exact H2|].
  apply (H5 0 (Callback.mk 0 (CallbackPromise 0))). reflexivity.
Defined.

(** ** Pending calls and the registry *)

(** X5. In every reachable state the pending calls of a registered call
    context are at least the number of registered callbacks that name it,
    so they are never negative; and every registered callback names a
    registered call context with at least one pending call. *)
Theorem pending_calls_cover_callbacks (s : State) :
  reachable s →
  (∀ k l c, call_contexts s !! k = Some l → heap s !! l = Some c →
     0 ≤ owned k (callbacks s) ≤ CallContext.pending_calls c) ∧
  (∀ i cb, callbacks s !! i = Some cb →
     ∃ l c, call_contexts s !! Callback.call_context_id cb = Some l ∧
            heap s !! l = Some c ∧
            CallContext.id c = Callback.call_context_id cb ∧
            1 ≤ CallContext.pending_calls c).
Proof.
  intros HI%reachable_Inv. split.
  - intros k l c Hk Hc. split; [apply owned_nonneg|by eapply (inv_owned s HI)].
  - intros i cb Hi. destruct (inv_owner s HI _ _ Hi) as [l Hl].
    destruct (inv_registered s HI _ _ Hl) as (c & Hc & Hid).
    exists l, c. repeat (split; [done|]).
    pose proof (inv_owned s HI _ _ _ Hl Hc).
    pose proof (owned_pos _ _ _ _ Hi eq_refl). lia.
Qed.

Lemma pending_calls_cover_callbacks_witness :
  ∃ l c, call_contexts with_one_callback !! 0 = Some l ∧
         heap with_one_callback !! l = Some c ∧
         CallContext.id c = 0 ∧
         1 ≤ CallContext.pending_calls c.
Proof.
  destruct (pending_calls_cover_callbacks with_one_callback with_one_callback_reachable)
    as [_ H].
  apply (H 0 (Callback.mk 0 (CallbackPromise 0))). reflexivity.
Defined.

Lemma evict_idle s call_context l c :
  entered_call_context s = RObj l → heap s !! l = Some c →
  CallContext.pending_calls c = 0 → RObj l ≠ call_context →
  evict call_context s !! CallContext.id c = None.
Proof.
  intros He Hc Hp Hne. unfold evict. rewrite He, Hc.
  rewrite !bool_decide_eq_true_2 by done. simpl. apply lookup_delete_eq.
Qed.

Lemma Idle_active_entered_state s l c k :
  Inv s → Idle_active s →
  call_contexts s !! k = Some l → heap s !! l = Some c →
  ∀ c', CallContext.id c' = CallContext.id c →
    Idle_active (set_heap (<[l := c']> (heap (entered_state l c s))) (entered_state l c s)).
Proof.
  intros HI Hidle Hk Hc c' Hid k0 l0 c0 Hk0 Hc0 Hp. simpl in *.
  destruct (decide (l0 = l)) as [->|Hne]; [done|exfalso].
  rewrite !lookup_insert_ne in Hc0 by done.
  pose proof (evict_lookup _ _ _ _ Hk0) as Hk0'.
  pose proof (Hidle _ _ _ Hk0' Hc0 Hp) as He.
  destruct (inv_registered s HI _ _ Hk0') as (c1 & Hc1 & Hid1).
  assert (c1 = c0) as -> by congruence.
  rewrite <- Hid1, (evict_idle s (RObj l) l0 c0) in Hk0; [done..|congruence].
Qed.

Lemma after_Idle_active e s s' :
  Inv s → Idle_active s → after e s = Some s' → Idle_active s'.
Proof.
  intros HI Hidle Ha. pose proof (after_Inv _ _ _ HI Ha) as HI'.
  destruct e as [method args|id args|id args|op|].
  - destruct (after_ExecuteEndpoint _ _ _ _ HI Ha)
      as (id' & s2 & Hn & _ & HI2 & Hcs & (ps & np & js & ->) & _).
    pose proof (Inv_allocated_state s id' HI Hn) as HIa.
    intros k l c Hk Hc Hp. simpl in *.
    rewrite (cs_entered _ _ Hcs). simpl.
    destruct (decide (l = next_loc s)) as [->|Hne]; [done|exfalso].
    rewrite (cs_call_contexts _ _ Hcs) in Hk. simpl in Hk.
    destruct (cs_heap _ _ Hcs l) as [E|(He & _)]; [|simpl in He; congruence].
    rewrite Hc in E. simpl in E. rewrite !lookup_insert_ne in E by done.
    pose proof (evict_lookup _ _ _ _ Hk) as Hka. simpl in Hka.
    apply lookup_insert_Some in Hka as [[_ ?]|[Hnek Hks]]; [congruence|].
    pose proof (Hidle _ _ _ Hks (eq_sym E) Hp) as He.
    destruct (inv_registered s HI _ _ Hks) as (c1 & Hc1 & Hid1).
    assert (c1 = c) as -> by congruence.
    rewrite <- Hid1, (evict_idle (allocated_state id' s) (RObj (next_loc s)) l c) in Hk;
      [done|done| |done|congruence].
    simpl. by rewrite lookup_insert_ne.
  - destruct (after_callback_event _ id _ _ (is_reply id args) HI Ha)
      as [(_ & -> & _)|(cb & l0 & c0 & Hcb & Hl0 & Hc0 & (ps & np & js & ->) & _)]; [done|].
    intros k l c Hk Hc Hp.
    eapply (Idle_active_entered_state (set_callbacks (delete id (callbacks s)) s) l0 c0
              (Callback.call_context_id cb)); try done.
    by apply Inv_removeCallback.
  - destruct (after_callback_event _ id _ _ (is_reject id args) HI Ha)
      as [(_ & -> & _)|(cb & l0 & c0 & Hcb & Hl0 & Hc0 & (ps & np & js & ->) & _)]; [done|].
    intros k l c Hk Hc Hp.
    eapply (Idle_active_entered_state (set_callbacks (delete id (callbacks s)) s) l0 c0
              (Callback.call_context_id cb)); try done.
    by apply Inv_removeCallback.
  - destruct (after_ClientCall _ _ _ HI Ha) as [_ Hcs].
    intros k l c Hk Hc Hp. rewrite (cs_entered _ _ Hcs).
    rewrite (cs_call_contexts _ _ Hcs) in Hk.
    destruct (cs_heap _ _ Hcs l) as [E|(He & _)]; [|done].
    rewrite Hc in E. by eapply Hidle.
  - apply after_RunJob in Ha as ->.
    destruct (run_next_job_engine s) as (Er & Ee & _ & Hh).
    intros k l c Hk Hc Hp. rewrite Ee. rewrite Er in Hk.
    destruct (inv_registered s HI _ _ Hk) as (c1 & Hc1 & Hid1).
    destruct (Hh _ _ Hc1) as (c2 & Hc2 & _ & Hp2).
    assert (c2 = c) as -> by congruence.
    eapply Hidle; [done|done|congruence].
Qed.

Lemma reachable_Idle_active s : reachable s → Idle_active s.
Proof.
  induction 1 as [|s e s' Hs IH Ha]; [by intros k l c Hk|].
  eapply after_Idle_active; [by apply reachable_Inv|done|done].
Qed.

(** X6. In every reachable state the registry holds the active call
    context and, besides it, only call contexts with at least one pending
    call: a registered call context that is not the active one has
    [pending_calls >= 1]. *)
Theorem registered_is_active_or_pending (s : State) (k : Z) (l : loc) (c : CallContext.t) :
  reachable s →
  call_contexts s !! k = Some l → heap s !! l = Some c →
  entered_call_context s = RObj l ∨ 1 ≤ CallContext.pending_calls c.
Proof.
  intros Hs Hk Hc. pose proof (reachable_Inv s Hs) as HI.
  destruct (decide (CallContext.pending_calls c = 0)) as [Hp|Hp].
  - left. by eapply (reachable_Idle_active s Hs).
  - right. pose proof (inv_owned s HI _ _ _ Hk Hc).
    pose proof (owned_nonneg k (callbacks s)). lia.
Qed.

Lemma registered_is_active_or_pending_witness :
  entered_call_context state_second = RObj 0%nat ∨
  1 ≤ CallContext.pending_calls (CallContext.mk 0 (VNum 1) VNull 1).
Proof.
  apply (registered_is_active_or_pending state_second 0 0%nat).
  - apply (run_reachable (first_endpoint ++ second_endpoint) init);
      [apply reachable_init|reflexivity].
  - reflexivity.
  - reflexivity.
Defined.

(** ** The eviction rule *)

(** X7. When an event makes another call context the active one, the call
    context [l] that was active before leaves the registry if it has no
    pending call, and stays registered under its identifier if it has
    one. *)
Theorem switch_evicts_exactly_idle
    (s s' : State) (e : event) (l : loc) (c : CallContext.t) :
  reachable s → after e s = Some s' →
  entered_call_context s = RObj l → heap s !! l = Some c →
  entered_call_context s' ≠ RObj l →
  (CallContext.pending_calls c = 0 → ∀ k, call_contexts s' !! k ≠ Some l) ∧
  (CallContext.pending_calls c ≠ 0 →
     call_contexts s' !! CallContext.id c = Some l ∧ heap s' !! l = Some c).
Proof.
  intros HI%reachable_Inv Ha He Hc Hne.
  pose proof (inv_entered s HI) as Hent. rewrite He in Hent.
  destruct Hent as (c0 & Hc0 & Hreg). assert (c0 = c) as -> by congruence.
  assert (∀ s0 l0 s1,
    Inv s0 → call_contexts s0 !! CallContext.id c = Some l → heap s0 !! l = Some c →
    entered_call_context s0 = RObj l → l0 ≠ l →
    call_contexts s1 = evict (RObj l0) s0 →
    (CallContext.pending_calls c = 0 → ∀ k, call_contexts s1 !! k ≠ Some l) ∧
    (CallContext.pending_calls c ≠ 0 → call_contexts s1 !! CallContext.id c = Some l))
    as Hswitch.
  { intros s0 l0 s1 HI0 Hk0 Hc0' He0 Hne0 ->. split.
    - intros Hp k Hk. pose proof (evict_lookup _ _ _ _ Hk) as Hk'.
      assert (k = CallContext.id c) as -> by by eapply (Inv_registry_inj s0).
      rewrite (evict_idle s0 (RObj l0) l c) in Hk; [done..|congruence].
    - intros Hp. eapply evict_kept; eauto. }
  pose proof (after_entered _ _ _ HI Ha) as Hby.
  destruct e as [method args|id args|id args|op|]; simpl in Hby.
  - destruct (after_ExecuteEndpoint _ _ _ _ HI Ha)
      as (id' & s2 & Hn & _ & HI2 & Hcs & (ps & np & js & ->) & _).
    destruct (started_state_registry _ _ _ _ HI Hn Hreg) as (Hk0 & Hheap & Hnl).
    destruct (Hswitch (allocated_state id' s) (next_loc s) s2) as [H0 H1].
    + by apply Inv_allocated_state.
    + done.
    + by rewrite Hheap.
    + done.
    + done.
    + by rewrite (cs_call_contexts _ _ Hcs).
    + simpl. split; [done|]. intros Hp. split; [by apply H1|].
      destruct (cs_heap _ _ Hcs l) as [E|(He2 & _)]; [|simpl in He2; congruence].
      rewrite E. simpl. rewrite lookup_insert_ne by done.
      simpl in Hheap. by rewrite Hheap.
  - destruct (after_callback_event _ id _ _ (is_reply id args) HI Ha)
      as [(_ & -> & _)|(cb & l0 & c1 & Hcb & Hl0 & Hc1 & (ps & np & js & ->) & _)];
      [congruence|].
    simpl in *. assert (l0 ≠ l) as Hnl by congruence.
    destruct (Hswitch (set_callbacks (delete id (callbacks s)) s) l0
                (resumed_state id l0 c1 s)) as [H0 H1]; try done.
    { by apply Inv_removeCallback. }
    split; [done|]. intros Hp. split; [by apply H1|].
    by rewrite !lookup_insert_ne.
  - destruct (after_callback_event _ id _ _ (is_reject id args) HI Ha)
      as [(_ & -> & _)|(cb & l0 & c1 & Hcb & Hl0 & Hc1 & (ps & np & js & ->) & _)];
      [congruence|].
    simpl in *. assert (l0 ≠ l) as Hnl by congruence.
    destruct (Hswitch (set_callbacks (delete id (callbacks s)) s) l0
                (resumed_state id l0 c1 s)) as [H0 H1]; try done.
    { by apply Inv_removeCallback. }
    split; [done|]. intros Hp. split; [by apply H1|].
    by rewrite !lookup_insert_ne.
  - congruence.
  - congruence.
Qed.

Lemma switch_evicts_exactly_idle_witness :
  (0 = 0 → ∀ k, call_contexts after_two_endpoints !! k ≠ Some 0%nat) ∧
  (0 ≠ 0 → call_contexts after_two_endpoints !! 0 = Some 0%nat ∧
           heap after_two_endpoints !! 0%nat = Some (CallContext.mk 0 (VNum 42) VNull 0)).
Proof.
  apply (switch_evicts_exactly_idle after_one_endpoint after_two_endpoints
           (ExecuteEndpoint returns_42 []) 0%nat (CallContext.mk 0 (VNum 42) VNull 0)).
  - apply after_one_endpoint_reachable.
  - reflexivity.
  - reflexivity.
  - reflexivity.
  - discriminate.
Defined.

(** X8. No event takes a call context out of the registry while a
    registered callback names it: the object registered under the
    callback's [call_context_id] is the same before and after. *)
Theorem callback_keeps_context_registered
    (s s' : State) (e : event) (i : Z) (cb : Callback.t) :
  reachable s → after e s = Some s' → callbacks s !! i = Some cb →
  ∃ l, call_contexts s !! Callback.call_context_id cb = Some l ∧
       call_contexts s' !! Callback.call_context_id cb = Some l.
Proof.
  intros HI%reachable_Inv Ha Hcb.
  destruct (inv_owner s HI _ _ Hcb) as [l Hl].
  exists l. split; [done|]. by eapply owner_stays_registered.
Qed.

Lemma callback_keeps_context_registered_witness :
  ∃ l, call_contexts state_first !! 0 = Some l ∧
       call_contexts state_second !! 0 = Some l.
Proof.
  apply (callback_keeps_context_registered state_first state_second
           (ExecuteEndpoint (const_method [] (Return (PromiseOf (CallbackPromise 0)))) [])
           0 (Callback.mk 0 (CallbackPromise 0))).
  - apply (run_reachable first_endpoint init); [apply reachable_init|reflexivity].
  - reflexivity.
  - reflexivity.
Defined.

(** ** A removed callback leaves its call context registered for good *)

Lemma overcounted_pending s k l c :
  overcounted k l s → heap s !! l = Some c → CallContext.pending_calls c ≠ 0.
Proof.
  intros (c0 & _ & Hc0 & Hlt) Hc. assert (c0 = c) as -> by congruence.
  pose proof (owned_nonneg k (callbacks s)). lia.
Qed.

Lemma overcounted_runtime_only k l s s' :
  runtime_only s s' → overcounted k l s → overcounted k l s'.
Proof. by intros (ps & np & js & ->). Qed.

Lemma overcounted_removeCallback k l s id :
  overcounted k l s → overcounted k l (set_callbacks (delete id (callbacks s)) s).
Proof.
  intros (c & Hk & Hc & Hlt). exists c. simpl. repeat (split; [done|]).
  pose proof (owned_delete_le k id (callbacks s)). lia.
Qed.

Lemma overcounted_heap_other k l s l0 c' :
  l0 ≠ l → overcounted k l s → overcounted k l (set_heap (<[l0 := c']> (heap s)) s).
Proof.
  intros Hne (c & Hk & Hc & Hlt). exists c. simpl. by rewrite lookup_insert_ne.
Qed.

Lemma overcounted_entered_state k l s l0 c0 :
  Inv s → heap s !! l0 = Some c0 →
  overcounted k l s → overcounted k l (entered_state l0 c0 s).
Proof.
  intros HI Hc0 Hov. pose proof Hov as (c & Hk & Hc & Hlt).
  assert (evict (RObj l0) s !! k = Some l) as Hkept.
  { eapply evict_kept; eauto. right. left. by eapply overcounted_pending. }
  destruct (decide (l0 = l)) as [->|Hne].
  - exists (reset_outcome c0). simpl. rewrite lookup_insert_eq.
    assert (c0 = c) as -> by congruence. done.
  - exists c. simpl. by rewrite lookup_insert_ne.
Qed.

Lemma overcounted_started_state k l s id' :
  Inv s → next_call_context_id s = Some id' →
  overcounted k l s → overcounted k l (started_state id' s).
Proof.
  intros HI Hn (c & Hk & Hc & Hlt).
  destruct (started_state_registry _ _ _ _ HI Hn Hk) as (Hk0 & Hheap & Hne).
  unfold started_state. apply overcounted_entered_state.
  - by apply Inv_allocated_state.
  - simpl. apply lookup_insert_eq.
  - exists c. split; [done|]. split; [by rewrite Hheap|done].
Qed.

Lemma overcounted_resumed_state k l s id cb l0 c0 :
  Inv s → callbacks s !! id = Some cb →
  call_contexts s !! Callback.call_context_id cb = Some l0 → heap s !! l0 = Some c0 →
  overcounted k l s → overcounted k l (resumed_state id l0 c0 s).
Proof.
  intros HI Hcb Hl0 Hc0 Hov. unfold resumed_state.
  set (s0 := set_callbacks (delete id (callbacks s)) s).
  assert (Inv s0) as HI0 by by apply Inv_removeCallback.
  pose proof (overcounted_entered_state k l s0 l0 c0 HI0 Hc0
                (overcounted_removeCallback k l s id Hov)) as Hov1.
  destruct (decide (l0 = l)) as [->|Hne]; [|by apply overcounted_heap_other].
  destruct Hov1 as (c1 & Hk1 & _ & _). destruct Hov as (c & Hk & Hc & Hlt).
  assert (c0 = c) as -> by congruence.
  assert (k = Callback.call_context_id cb) as -> by by eapply (Inv_registry_inj s).
  eexists. split; [exact Hk1|]. simpl. rewrite lookup_insert_eq. split; [done|]. simpl.
  rewrite (owned_delete _ _ _ _ Hcb), decide_True by done. lia.
Qed.

Lemma overcounted_created_state k l s l1 c1 id' :
  Inv s → entered_call_context s = RObj l1 → heap s !! l1 = Some c1 →
  overcounted k l s → overcounted k l (created_state l1 c1 id' s).
Proof.
  intros HI He Hc1 (c & Hk & Hc & Hlt).
  pose proof (inv_entered s HI) as Hent. rewrite He in Hent.
  destruct Hent as (c' & Hc' & Hreg). assert (c' = c1) as -> by congruence.
  unfold created_state. simpl.
  destruct (decide (l1 = l)) as [->|Hne].
  - assert (c1 = c) as -> by congruence.
    assert (CallContext.id c = k) as Hid by by eapply (Inv_registry_inj s).
    eexists. simpl. rewrite lookup_insert_eq. repeat (split; [done|]). simpl.
    rewrite owned_insert by apply HI. simpl. rewrite decide_True by done. lia.
  - exists c. simpl. rewrite lookup_insert_ne by done. repeat (split; [done|]).
    rewrite owned_insert by apply HI. simpl. rewrite decide_False; [lia|].
    intros E. rewrite E in Hreg. congruence.
Qed.

Lemma call_op_overcounted k l op s :
  Inv s → overcounted k l s → (call_op op s).1 ≠ Loops →
  overcounted k l (call_op op s).2.
Proof.
  intros HI Hov Hnl. destruct op as [|id| |n st]; simpl in *.
  - destruct (entered_call_context s) as [| |l1] eqn:He.
    + unfold mbind, M_bind, bind. rewrite (createCallback_Throw s) by by rewrite He. done.
    + pose proof (inv_entered s HI) as H. by rewrite He in H.
    + destruct (Inv_entered_live s HI l1 He) as [c1 Hc1].
      destruct (next_callback_id s (Callback.mk (CallContext.id c1) (CallbackPromise (next_promise s))))
        as [id'|] eqn:Hn.
      * unfold mbind, M_bind, bind in *.
        rewrite (createCallback_Ok s l1 c1 id') in * by done. simpl.
        by apply overcounted_created_state.
      * exfalso. apply Hnl. unfold mbind, M_bind, bind.
        pose proof (createCallback_Loops s l1 c1 He Hc1 Hn) as HL.
        destruct (createCallback s) as [[] ?]; simpl in *; done.
  - by apply overcounted_removeCallback.
  - done.
  - destruct (settle_promise_runtime (UserPromise n) st s) as (s' & E & Hr).
    unfold mbind, M_bind, bind. rewrite E. simpl. by eapply overcounted_runtime_only.
Qed.

Lemma run_ops_overcounted k l ops s :
  Inv s → overcounted k l s → (run_ops ops s).1 ≠ Loops →
  overcounted k l (run_ops ops s).2.
Proof.
  revert s. induction ops as [|op ops IH]; intros s HI Hov Hnl; simpl in *; [done|].
  unfold mbind, M_bind, bind in *.
  pose proof (call_op_spec op s HI) as Hop.
  pose proof (call_op_overcounted k l op s HI Hov) as Hopo.
  destruct (call_op op s) as [[r|e|] s1]; simpl in *; [|by apply Hopo|done].
  destruct (Hop ltac:(done)) as [HI1 _]. apply IH; [done|by apply Hopo|done].
Qed.

Lemma after_overcounted k l e s s' :
  Inv s → overcounted k l s → after e s = Some s' → overcounted k l s'.
Proof.
  intros HI Hov Ha. destruct e as [method args|id args|id args|op|].
  - destruct (after_ExecuteEndpoint _ _ _ _ HI Ha)
      as (id' & s2 & Hn & Hops & _ & _ & Hrt & _).
    eapply overcounted_runtime_only; [done|].
    pose proof (run_ops_overcounted k l (method args).1 _ (Inv_started_state s id' HI Hn)
                  (overcounted_started_state k l s id' HI Hn Hov)) as H.
    rewrite Hops in H. by apply H.
  - destruct (after_callback_event _ id _ _ (is_reply id args) HI Ha)
      as [(_ & -> & _)|(cb & l0 & c0 & Hcb & Hl0 & Hc0 & Hrt & _)]; [done|].
    eapply overcounted_runtime_only; [done|]. by eapply overcounted_resumed_state.
  - destruct (after_callback_event _ id _ _ (is_reject id args) HI Ha)
      as [(_ & -> & _)|(cb & l0 & c0 & Hcb & Hl0 & Hc0 & Hrt & _)]; [done|].
    eapply overcounted_runtime_only; [done|]. by eapply overcounted_resumed_state.
  - unfold after in Ha. simpl in Ha.
    pose proof (call_op_overcounted k l op s HI Hov) as H.
    destruct (call_op op s) as [[] s1]; simpl in *; try done;
      injection Ha as <-; by apply H.
  - apply after_RunJob in Ha as ->.
    destruct Hov as (c & Hk & Hc & Hlt).
    destruct (run_next_job_engine s) as (Er & _ & Ecb & Hh).
    destruct (Hh _ _ Hc) as (c' & Hc' & _ & Hp).
    exists c'. rewrite Er, Ecb, Hp. done.
Qed.

Lemma run_overcounted k l es s s' :
  Inv s → overcounted k l s → run es s = Some s' → overcounted k l s'.
Proof.
  revert s. induction es as [|e es IH]; intros s HI Hov Hrun; simpl in Hrun.
  - by injection Hrun as <-.
  - destruct (after e s) as [s1|] eqn:Ha; [|done].
    eapply IH; [by eapply after_Inv|by eapply after_overcounted|done].
Qed.

(** X9. Once [removeCallback] has removed a registered callback, the call
    context the callback named stays in the registry through every later
    run of events: its pending calls stay above the number of callbacks
    that name it, so they never reach 0 again. *)
Theorem removeCallback_pins_context
    (s s' : State) (i : Z) (cb : Callback.t) (es : list event) :
  reachable s → callbacks s !! i = Some cb →
  run (ClientCall (RemoveCallback i) :: es) s = Some s' →
  ∃ l c', call_contexts s !! Callback.call_context_id cb = Some l ∧
          call_contexts s' !! Callback.call_context_id cb = Some l ∧
          heap s' !! l = Some c' ∧
          owned (Callback.call_context_id cb) (callbacks s') < CallContext.pending_calls c'.
Proof.
  intros HI%reachable_Inv Hcb Hrun.
  destruct (inv_owner s HI _ _ Hcb) as [l Hl].
  destruct (inv_registered s HI _ _ Hl) as (c & Hc & Hid).
  change (run (ClientCall (RemoveCallback i) :: es) s)
    with (run es (set_callbacks (delete i (callbacks s)) s)) in Hrun.
  assert (overcounted (Callback.call_context_id cb) l
            (set_callbacks (delete i (callbacks s)) s)) as Hov.
  { exists c. simpl. repeat (split; [done|]).
    rewrite (owned_delete _ _ _ _ Hcb), decide_True by done.
    pose proof (inv_owned s HI _ _ _ Hl Hc). lia. }
  destruct (run_overcounted _ _ _ _ _ (Inv_removeCallback s i HI) Hov Hrun)
    as (c' & Hk' & Hc' & Hlt).
  by exists l, c'.
Qed.

Lemma removeCallback_pins_context_witness :
  ∃ l c', call_contexts with_one_callback !! 0 = Some l ∧
          call_contexts after_removal_and_switch !! 0 = Some l ∧
          heap after_removal_and_switch !! l = Some c' ∧
          owned 0 (callbacks after_removal_and_switch) < CallContext.pending_calls c'.
Proof.
  apply (removeCallback_pins_context with_one_callback after_removal_and_switch
           0 (Callback.mk 0 (CallbackPromise 0))
           [ExecuteEndpoint returns_42 []; RunJob; ExecuteEndpoint returns_42 []]).
  - apply with_one_callback_reachable.
  - reflexivity.
  - reflexivity.
Defined.

(** ** Delivering twice, delivering after removal *)

(** X10. A callback is settled once: right after [executeReplyCallback]
    or [executeRejectCallback] has settled a registered callback, a second
    delivery for the same identifier, on either path, throws and leaves
    the state as it is. *)
Theorem second_delivery_throws
    (s : State) (callback_id : Z) (cb : Callback.t) (args args' : list value) :
  reachable s → callbacks s !! callback_id = Some cb →
  ∃ s1 s2,
    executeReplyCallback callback_id args s = (Ok (entered_call_context s1), s1) ∧
    executeRejectCallback callback_id args s = (Ok (entered_call_context s2), s2) ∧
    executeReplyCallback callback_id args' s1 = (Throw TypeError, s1) ∧
    executeRejectCallback callback_id args' s1 = (Throw TypeError, s1) ∧
    executeReplyCallback callback_id args' s2 = (Throw TypeError, s2) ∧
    executeRejectCallback callback_id args' s2 = (Throw TypeError, s2).
Proof.
  intros HI%reachable_Inv Hcb.
  destruct (step_executeCallback reply callback_id args s ltac:(auto) HI)
    as [[Hn _]|(cb1 & l1 & c1 & s1 & _ & _ & _ & _ & (ps1 & np1 & js1 & ->) & E1)];
    [congruence|].
  destruct (step_executeCallback reject callback_id args s ltac:(auto) HI)
    as [[Hn _]|(cb2 & l2 & c2 & s2 & _ & _ & _ & _ & (ps2 & np2 & js2 & ->) & E2)];
    [congruence|].
  exists (set_jobs js1 (set_next_promise np1
            (set_promises ps1 (resumed_state callback_id l1 c1 s)))),
         (set_jobs js2 (set_next_promise np2
            (set_promises ps2 (resumed_state callback_id l2 c2 s)))).
  split; [exact E1|]. split; [exact E2|].
  split_and!; apply executeCallback_unknown; simpl; apply lookup_delete_eq.
Qed.

Lemma second_delivery_throws_witness :
  ∃ s1 s2,
    executeReplyCallback 0 [VNum 1] with_one_callback = (Ok (entered_call_context s1), s1) ∧
    executeRejectCallback 0 [VNum 1] with_one_callback = (Ok (entered_call_context s2), s2) ∧
    executeReplyCallback 0 [VNum 2] s1 = (Throw TypeError, s1) ∧
    executeRejectCallback 0 [VNum 2] s1 = (Throw TypeError, s1) ∧
    executeReplyCallback 0 [VNum 2] s2 = (Throw TypeError, s2) ∧
    executeRejectCallback 0 [VNum 2] s2 = (Throw TypeError, s2).
Proof.
  apply (second_delivery_throws with_one_callback 0 (Callback.mk 0 (CallbackPromise 0))).
  - apply with_one_callback_reachable.
  - reflexivity.
Defined.

(** X11. In any state, after [removeCallback] a delivery for the removed
    identifier throws on either path and changes nothing, and removing the
    identifier a second time changes nothing either. *)
Theorem delivery_after_removal_throws (s : State) (callback_id : Z) (args : list value) :
  executeReplyCallback callback_id args (removeCallback callback_id s).2
    = (Throw TypeError, (removeCallback callback_id s).2) ∧
  executeRejectCallback callback_id args (removeCallback callback_id s).2
    = (Throw TypeError, (removeCallback callback_id s).2) ∧
  (removeCallback callback_id (removeCallback callback_id s).2).2
    = (removeCallback callback_id s).2.
Proof.
  split_and!; try (apply executeCallback_unknown; simpl; apply lookup_delete_eq).
  simpl. by rewrite delete_delete_eq.
Qed.

(** ** How an endpoint ends *)

(** X12. When the method throws, [executeEndpoint] throws the same value
    and stops there: the new call context is registered under the old
    cursor and is the active one, its outcome fields are [null], and the
    state is the one the method's own calls left, so no reaction has been
    queued or attached. *)
Theorem executeEndpoint_method_throws
    (s s' : State) (method : Method) (args : list value) (e : value) :
  reachable s → after (ExecuteEndpoint method args) s = Some s' →
  (method args).2 = Raise e →
  executeEndpoint method args s = (Throw (Thrown e), s') ∧
  entered_call_context s' = RObj (next_loc s) ∧
  call_contexts s' !! call_context_id s = Some (next_loc s) ∧
  (∃ c, heap s' !! next_loc s = Some c ∧
        CallContext.id c = call_context_id s ∧
        outcome_of c = (VNull, VNull)) ∧
  ∃ id', run_ops (method args).1 (started_state id' s) = (Ok tt, s').
Proof.
  intros HI%reachable_Inv Ha Hm.
  destruct (after_ExecuteEndpoint _ _ _ _ HI Ha)
    as (id' & s2 & Hn & Hops & HI2 & Hcs & _ & Hstep).
  rewrite Hm in Hstep. simpl in Hstep. unfold mbind, M_bind, bind in Hstep.
  destruct (executeEndpoint method args s) as [r0 s0] eqn:E0.
  destruct (executeEndpoint_spec _ _ _ _ _ HI E0) as (id'' & s2' & Hn' & Hops' & Hc).
  { destruct r0; simpl in Hstep; congruence. }
  rewrite Hm in Hc. destruct Hc as [-> ->].
  assert (id'' = id') as -> by congruence.
  assert (s2' = s2) as -> by congruence.
  assert (s' = s2) as -> by (simpl in Hstep; congruence).
  split; [done|].
  split; [by rewrite (cs_entered _ _ Hcs)|].
  assert (call_contexts s2 !! call_context_id s = Some (next_loc s)) as Hreg.
  { rewrite (cs_call_contexts _ _ Hcs). simpl.
    eapply evict_kept; [by apply Inv_allocated_state| | |by left];
      simpl; apply lookup_insert_eq. }
  split; [done|]. split; [|by exists id'].
  destruct (cs_heap _ _ Hcs (next_loc s)) as [E|(_ & c & n & Hc & _ & Hc2)].
  - rewrite E. simpl. rewrite lookup_insert_eq. eauto.
  - rewrite Hc2. simpl in Hc. rewrite lookup_insert_eq in Hc. injection Hc as <-. eauto.
Qed.

Lemma executeEndpoint_method_throws_witness :
  executeEndpoint (const_method [] (Raise (VNum 13))) [] init
    = (Throw (Thrown (VNum 13)), after_throwing_method) ∧
  entered_call_context after_throwing_method = RObj 0%nat ∧
  call_contexts after_throwing_method !! 0 = Some 0%nat ∧
  (∃ c, heap after_throwing_method !! 0%nat = Some c ∧
        CallContext.id c = 0 ∧ outcome_of c = (VNull, VNull)) ∧
  ∃ id', run_ops [] (started_state id' init) = (Ok tt, after_throwing_method).
Proof.
  apply (executeEndpoint_method_throws init after_throwing_method
           (const_method [] (Raise (VNum 13))) [] (VNum 13)).
  - apply reachable_init.
  - reflexivity.
  - reflexivity.
Defined.

(** X13. An endpoint started with an empty job queue whose method
    registers no callback, settles no promise and returns a plain value or
    an already settled promise: it returns its new call context, and once
    the queued reaction has run that call context holds the value in
    [replied] (with [rejected] null) if the result was fulfilled, and in
    [rejected] (with [replied] null) if it was a rejected promise; no
    pending call, empty queue. *)
Theorem endpoint_settled_at_once
    (s : State) (method : Method) (args : list value)
    (result : js_result) (st : settlement) :
  reachable s → jobs s = [] →
  Z.of_nat (size (call_contexts s)) < MAX_ID_MASK →
  forallb passive (method args).1 = true →
  (method args).2 = Return result →
  settled_at_once result s = Some st →
  ∃ s1 c,
    executeEndpoint method args s = (Ok (RObj (next_loc s)), s1) ∧
    jobs s1 = [job_of st] ∧
    heap (back_at_host s1) !! next_loc s = Some c ∧
    CallContext.id c = call_context_id s ∧
    outcome_of c = outcome_after st ∧
    CallContext.pending_calls c = 0 ∧
    entered_call_context (back_at_host s1) = RObj (next_loc s) ∧
    jobs (back_at_host s1) = [].
Proof.
  intros HI%reachable_Inv Hjobs Hsz Hpassive Hm Hst.
  destruct (endpoint_settles s method args result st HI Hjobs Hsz Hpassive Hm Hst)
    as (s1 & E & Hh1 & Hj1 & He1 & Hr1 & Hback).
  exists s1. eexists. split; [exact E|]. split; [exact Hj1|].
  rewrite Hback. simpl. rewrite lookup_insert_eq.
  split; [done|]. by destruct st.
Qed.

Lemma endpoint_settled_at_once_witness :
  ∃ s1 c,
    executeEndpoint (const_method [RemoveCallback 3] (Return (PromiseOf (UserPromise 0))))
        [] rejected_promise
      = (Ok (RObj 0%nat), s1) ∧
    jobs s1 = [OnRejected (VNum 9)] ∧
    heap (back_at_host s1) !! 0%nat = Some c ∧
    CallContext.id c = 0 ∧
    outcome_of c = (VNull, VNum 9) ∧
    CallContext.pending_calls c = 0 ∧
    entered_call_context (back_at_host s1) = RObj 0%nat ∧
    jobs (back_at_host s1) = [].
Proof.
  apply (endpoint_settled_at_once rejected_promise
           (const_method [RemoveCallback 3] (Return (PromiseOf (UserPromise 0)))) []
           (PromiseOf (UserPromise 0)) (Reject (VNum 9))).
  - apply (run_reachable [ClientCall (SettleUserPromise 0 (Reject (VNum 9)))] init);
      [apply reachable_init|reflexivity].
  - reflexivity.
  - vm_compute. reflexivity.
  - reflexivity.
  - reflexivity.
  - reflexivity.
Defined.



(** ** Reactions always find a call context *)

Lemma settle_promise_no_reaction p st s :
  No_reaction_without_context s →
  entered_call_context s = RNull →
  No_reaction_without_context (settle_promise p st s).2.
Proof.
  intros Hq He. destruct (Hq He) as [Hj Hp].
  unfold settle_promise. erewrite bind_Ok by reflexivity.
  destruct (promises s !! p) as [[n|st']|] eqn:E; simpl.
  - rewrite (Hp _ _ E). simpl. intros _. rewrite Hj. split; [done|].
    intros p' n' H'. simpl in H'.
    apply lookup_insert_Some in H' as [[_ ?]|[_ H']]; [done|by eapply Hp].
  - done.
  - intros _. split; [done|].
    intros p' n' H'. simpl in H'.
    apply lookup_insert_Some in H' as [[_ ?]|[_ H']]; [done|by eapply Hp].
Qed.

Lemma after_No_reaction e s s' :
  Inv s → No_reaction_without_context s → after e s = Some s' →
  No_reaction_without_context s'.
Proof.
  intros HI Hq Ha He'.
  destruct (entered_call_context s) as [| |l] eqn:He.
  - pose proof (after_entered_null _ _ _ HI Ha He) as [Hnull _].
    specialize (Hnull He').
    pose proof (inv_entered s HI) as Hcb. rewrite He in Hcb.
    destruct (Hq He) as [Hj Hp].
    destruct e as [method args|id args|id args|op|]; try done.
    + destruct (after_callback_event _ id _ _ (is_reply id args) HI Ha)
        as [(_ & -> & _)|(cb & _ & _ & Hc & _)]; [done|].
      by rewrite Hcb, lookup_empty in Hc.
    + destruct (after_callback_event _ id _ _ (is_reject id args) HI Ha)
        as [(_ & -> & _)|(cb & _ & _ & Hc & _)]; [done|].
      by rewrite Hcb, lookup_empty in Hc.
    + unfold after in Ha. simpl in Ha. destruct op as [|id| |n st]; simpl in Ha.
      * unfold mbind, M_bind, bind in Ha.
        rewrite (createCallback_Throw s) in Ha by by rewrite He.
        injection Ha as <-. simpl. split; [done|].
        intros p' n' H'. simpl in H'.
        apply lookup_insert_Some in H' as [[_ ?]|[_ H']]; [congruence|by eapply Hp].
      * injection Ha as <-. done.
      * injection Ha as <-. done.
      * pose proof (settle_promise_no_reaction (UserPromise n) st s Hq He) as Hs.
        destruct (settle_promise_runtime (UserPromise n) st s) as (s1 & E & Hr).
        unfold mbind, M_bind, bind in Ha. rewrite E in *. simpl in *.
        injection Ha as <-. apply Hs. by destruct Hr as (? & ? & ? & ->).
    + apply after_RunJob in Ha as ->. pose proof (run_next_job_spec s) as H.
      rewrite Hj in H. by rewrite H.
  - pose proof (inv_entered s HI) as H. by rewrite He in H.
  - destruct (after_entered_obj _ _ _ _ HI Ha He) as [l' Hl']. congruence.
Qed.

Lemma reachable_No_reaction s : reachable s → No_reaction_without_context s.
Proof.
  induction 1 as [|s e s' Hs IH Ha]; [by intros _; split|].
  eapply after_No_reaction; [by apply reachable_Inv|done|done].
Qed.

(** X15. In every reachable state the next reaction job runs without
    throwing: when the arrow functions of lines 74-75 run,
    [entered_call_context] is a live call context.  A job is queued only
    after some [executeEndpoint] has entered a call context, and the
    active call context is never cleared after that. *)
Theorem reaction_never_throws (s : State) :
  reachable s →
  run_next_job s = (Ok tt, (run_next_job s).2) ∧
  (jobs s ≠ [] → ∃ l c, entered_call_context s = RObj l ∧ heap s !! l = Some c).
Proof.
  intros Hs. pose proof (reachable_Inv s Hs) as HI.
  pose proof (reachable_No_reaction s Hs) as Hq.
  pose proof (run_next_job_spec s) as H.
  pose proof (inv_entered s HI) as Hent.
  destruct (jobs s) as [|j js] eqn:Hj; [by rewrite H|].
  destruct (entered_call_context s) as [| |l] eqn:He.
  - destruct (Hq He) as [Hj' _]. congruence.
  - done.
  - destruct Hent as (c & Hc & _). rewrite Hc in H. rewrite H. eauto.
Qed.

Lemma reaction_never_throws_witness :
  run_next_job state_first_queued = (Ok tt, (run_next_job state_first_queued).2) ∧
  (jobs state_first_queued ≠ [] →
     ∃ l c, entered_call_context state_first_queued = RObj l ∧
            heap state_first_queued !! l = Some c).
Proof.
  apply (reaction_never_throws state_first_queued).
  apply (run_reachable
           [ExecuteEndpoint (const_method [CreateCallback] (Return (Plain (VNum 1)))) []] init);
    [apply reachable_init|reflexivity].
Defined.

(** ** An endpoint that makes one call and waits for it *)

(** X16. An endpoint whose method registers one callback and returns a
    fresh promise of its own, started with an empty job queue: it returns
    its new call context with one pending call and no outcome; the reply
    to the callback returns the same call context, now without pending
    call and without the callback; and when the method's promise is then
    fulfilled with [v] and the queue has run, the call context holds
    [replied = v], [rejected = null]. *)
Theorem endpoint_awaiting_one_call
    (s : State) (method : Method) (args rargs : list value) (n : nat) (v : value) :
  reachable s → jobs s = [] →
  Z.of_nat (size (call_contexts s)) < MAX_ID_MASK →
  Z.of_nat (size (callbacks s)) < MAX_ID_MASK →
  method args = ([CreateCallback], Return (PromiseOf (UserPromise n))) →
  promises s !! UserPromise n = None →
  ∃ s1 s2 s3,
    executeEndpoint method args s = (Ok (RObj (next_loc s)), s1) ∧
    heap s1 !! next_loc s = Some (CallContext.mk (call_context_id s) VNull VNull 1) ∧
    callbacks s1 !! callback_id s
      = Some (Callback.mk (call_context_id s) (CallbackPromise (next_promise s))) ∧
    back_at_host s1 = s1 ∧
    executeReplyCallback (callback_id s) rargs s1 = (Ok (RObj (next_loc s)), s2) ∧
    heap s2 !! next_loc s = Some (CallContext.mk (call_context_id s) VNull VNull 0) ∧
    callbacks s2 !! callback_id s = None ∧
    back_at_host s2 = s2 ∧
    call_op (SettleUserPromise n (Fulfill v)) s2 = (Ok RetUnit, s3) ∧
    heap (back_at_host s3) !! next_loc s
      = Some (CallContext.mk (call_context_id s) v VNull 0) ∧
    entered_call_context (back_at_host s3) = RObj (next_loc s) ∧
    jobs (back_at_host s3) = [].
Proof.
  intros HI%reachable_Inv Hjobs Hsz Hszcb Hm Hfresh.
  destruct (next_call_context_id_total s Hsz) as [id' Hn].
  destruct (started_state_facts s id' HI Hn) as (Hreg & Hheap & Hent & Hj & Hp).
  pose proof (Inv_started_state s id' HI Hn) as HI0.
  assert (callbacks (started_state id' s) = callbacks s) as Hcbs by done.
  assert (callback_id (started_state id' s) = callback_id s) as Hcbid by done.
  assert (next_promise (started_state id' s) = next_promise s) as Hnp by done.
  remember (started_state id' s) as s0 eqn:Hs0.
  set (c0 := CallContext.mk (call_context_id s) VNull VNull 0) in *.
  set (cb := Callback.mk (call_context_id s) (CallbackPromise (next_promise s))).
  destruct (next_callback_id_total s0 cb) as [idc Hidc]; [by rewrite Hcbs|].
  (* the method registers its callback *)
  set (sc := created_state (next_loc s) c0 idc s0).
  assert (createCallback s0 = (Ok (callback_id s, CallbackPromise (next_promise s)), sc)) as Hcreate.
  { rewrite (createCallback_Ok s0 (next_loc s) c0 idc Hent Hheap);
      rewrite ?Hcbid, ?Hnp; done. }
  pose proof (Inv_created_state s0 (next_loc s) c0 idc HI0 Hent Hheap) as HIc.
  rewrite Hnp in HIc. specialize (HIc Hidc). fold sc in HIc.
  (* line 73 attaches the reaction *)
  set (s1 := set_promises (<[UserPromise n := Pending 1]> (promises sc)) sc).
  assert (promise_resolve_then (PromiseOf (UserPromise n)) sc = (Ok tt, s1)) as Hthen.
  { unfold promise_resolve_then. erewrite bind_Ok by reflexivity.
    assert (promises sc !! UserPromise n = None) as ->; [|done].
    simpl. rewrite lookup_insert_ne by done. by rewrite Hp. }
  assert (Inv s1) as HI1 by by apply (Inv_ext sc).
  assert (executeEndpoint method args s = (Ok (RObj (next_loc s)), s1)) as E1.
  { rewrite (executeEndpoint_started _ _ _ id' HI Hn), <- Hs0.
    assert (call_method method args s0 = (Ok (PromiseOf (UserPromise n)), sc)) as Hcall.
    { unfold call_method. rewrite Hm. cbn [fst snd run_ops call_op].
      erewrite bind_Ok with (a := tt) (s' := sc); [reflexivity|].
      erewrite bind_Ok; [reflexivity|]. by erewrite bind_Ok by exact Hcreate. }
    erewrite bind_Ok by exact Hcall. erewrite bind_Ok by exact Hthen.
    unfold gets. f_equal. f_equal. exact Hent. }
  assert (heap s1 !! next_loc s
          = Some (CallContext.mk (call_context_id s) VNull VNull 1)) as Hh1.
  { simpl. by rewrite lookup_insert_eq. }
  assert (callbacks s1 !! callback_id s = Some cb) as Hcb1.
  { simpl. rewrite Hcbid, Hnp. apply lookup_insert_eq. }
  assert (call_contexts s1 !! call_context_id s = Some (next_loc s)) as Hreg1 by done.
  assert (jobs s1 = []) as Hj1 by (simpl; congruence).
  (* the reply arrives *)
  set (sr := resumed_state (callback_id s) (next_loc s)
               (CallContext.mk (call_context_id s) VNull VNull 1) s1).
  set (s2 := set_jobs (jobs sr ++ [])
               (set_promises
                  (<[CallbackPromise (next_promise s) := Settled (Fulfill (arg0 rargs))]>
                     (promises sr)) sr)).
  assert (promises sr !! CallbackPromise (next_promise s) = Some (Pending 0)) as Hpr.
  { simpl. rewrite lookup_insert_ne by done. rewrite Hnp. apply lookup_insert_eq. }
  assert (jobs sr = []) as Hjr by (simpl; congruence).
  assert (executeReplyCallback (callback_id s) rargs s1 = (Ok (RObj (next_loc s)), s2)) as E2.
  { unfold executeReplyCallback.
    rewrite (executeCallback_known reply _ rargs s1 cb (next_loc s) _ Hcb1 Hreg1 Hh1
               (Inv_entered_live s1 HI1)).
    fold sr.
    assert (reply cb rargs sr = (Ok tt, s2)) as Hreply.
    { unfold reply, settle_promise. cbn [Callback.promise cb].
      erewrite bind_Ok by reflexivity. rewrite Hpr.
      erewrite bind_Ok by reflexivity. reflexivity. }
    erewrite bind_Ok by exact Hreply. reflexivity. }
  assert (heap s2 !! next_loc s
          = Some (CallContext.mk (call_context_id s) VNull VNull 0)) as Hh2.
  { simpl. by rewrite lookup_insert_eq. }
  assert (jobs s2 = []) as Hj2 by (simpl; by rewrite Hj, Hjobs).
  (* the method's promise is fulfilled *)
  set (s3 := set_jobs (jobs s2 ++ [OnFulfilled v])
               (set_promises (<[UserPromise n := Settled (Fulfill v)]> (promises s2)) s2)).
  assert (promises s2 !! UserPromise n = Some (Pending 1)) as Hpu.
  { simpl. rewrite lookup_insert_ne by done. apply lookup_insert_eq. }
  assert (call_op (SettleUserPromise n (Fulfill v)) s2 = (Ok RetUnit, s3)) as E3.
  { cbn [call_op].
    assert (settle_promise (UserPromise n) (Fulfill v) s2 = (Ok tt, s3)) as Hsettle.
    { unfold settle_promise. erewrite bind_Ok by reflexivity. rewrite Hpu.
      erewrite bind_Ok by reflexivity. reflexivity. }
    by erewrite bind_Ok by exact Hsettle. }
  assert (jobs s3 = [OnFulfilled v]) as Hj3 by (simpl; by rewrite Hj, Hjobs).
  assert (entered_call_context s3 = RObj (next_loc s)) as He3 by done.
  assert (heap s3 !! next_loc s
          = Some (CallContext.mk (call_context_id s) VNull VNull 0)) as Hh3 by exact Hh2.
  exists s1, s2, s3.
  split; [exact E1|]. split; [exact Hh1|]. split; [exact Hcb1|].
  split; [unfold back_at_host, run_jobs; by rewrite Hj1|].
  split; [exact E2|]. split; [exact Hh2|].
  split; [simpl; apply lookup_delete_eq|].
  split; [unfold back_at_host, run_jobs; by rewrite Hj2|].
  split; [exact E3|].
  pose proof (run_next_job_spec s3) as Hjob. rewrite Hj3, He3, Hh3 in Hjob.
  unfold back_at_host, run_jobs. rewrite Hj3. cbn [length drain].
  rewrite Hjob. cbn [snd]. split_and!; [|done..].
  cbn [heap set_heap]. by rewrite lookup_insert_eq.
Qed.

Lemma endpoint_awaiting_one_call_witness :
  ∃ s1 s2 s3,
    executeEndpoint (const_method [CreateCallback] (Return (PromiseOf (UserPromise 0)))) [] init
      = (Ok (RObj 0%nat), s1) ∧
    heap s1 !! 0%nat = Some (CallContext.mk 0 VNull VNull 1) ∧
    callbacks s1 !! 0 = Some (Callback.mk 0 (CallbackPromise 0)) ∧
    back_at_host s1 = s1 ∧
    executeReplyCallback 0 [VNum 7] s1 = (Ok (RObj 0%nat), s2) ∧
    heap s2 !! 0%nat = Some (CallContext.mk 0 VNull VNull 0) ∧
    callbacks s2 !! 0 = None ∧
    back_at_host s2 = s2 ∧
    call_op (SettleUserPromise 0 (Fulfill (VNum 8))) s2 = (Ok RetUnit, s3) ∧
    heap (back_at_host s3) !! 0%nat = Some (CallContext.mk 0 (VNum 8) VNull 0) ∧
    entered_call_context (back_at_host s3) = RObj 0%nat ∧
    jobs (back_at_host s3) = [].
Proof.
  apply (endpoint_awaiting_one_call init
           (const_method [CreateCallback] (Return (PromiseOf (UserPromise 0))))
           [] [VNum 7] 0%nat (VNum 8)).
  - apply reachable_init.
  - reflexivity.
  - vm_compute. reflexivity.
  - vm_compute. reflexivity.
  - reflexivity.
  - reflexivity.
Defined.

(** ** Two callbacks of one call context *)

Lemma evict_self s l :
  entered_call_context s = RObj l → evict (RObj l) s = call_contexts s.
Proof.
  intros He. unfold evict. rewrite He.
  destruct (heap s !! l); [|done].
  by rewrite (bool_decide_eq_false_2 (RObj l ≠ RObj l)) by (intros H; by apply H).
Qed.

Lemma engine_view_runtime_only s s' :
  runtime_only s s' → engine_view s' = engine_view s.
Proof. by intros (ps & np & js & ->). Qed.

(** The engine after two deliveries in a row for callbacks of the call
    context [l]. *)
Lemma executeCallback_twice h1 h2 i j args1 args2 s cbi cbj l c :
  (h1 = reply ∨ h1 = reject) → (h2 = reply ∨ h2 = reject) →
  Inv s → i ≠ j →
  callbacks s !! i = Some cbi → callbacks s !! j = Some cbj →
  call_contexts s !! Callback.call_context_id cbi = Some l →
  Callback.call_context_id cbj = Callback.call_context_id cbi →
  heap s !! l = Some c →
  ∃ s1 s2,
    executeCallback h1 i args1 s = (Ok (RObj l), s1) ∧
    executeCallback h2 j args2 s1 = (Ok (RObj l), s2) ∧
    engine_view s2 =
      (call_context_id s, evict (RObj l) s, callback_id s,
       delete j (delete i (callbacks s)), RObj l,
       <[l := CallContext.mk (CallContext.id c) VNull VNull
                (CallContext.pending_calls c - 1 - 1)]> (heap s)).
Proof.
  intros Hh1 Hh2 HI Hij Hi Hj Hl Hown Hc.
  destruct (step_executeCallback h1 i args1 s Hh1 HI)
    as [[Hn _]|(cb1 & l1 & c1 & s1 & Hcb1 & Hl1 & Hc1 & _ & Hr1 & E1)]; [congruence|].
  assert (cb1 = cbi) as -> by congruence.
  assert (l1 = l) as -> by congruence.
  assert (c1 = c) as -> by congruence.
  assert (Inv s1) as HI1.
  { eapply Inv_runtime_only; [done|]. by eapply Inv_resumed_state. }
  pose proof (engine_view_runtime_only _ _ Hr1) as Hv1.
  unfold engine_view in Hv1. simpl in Hv1.
  injection Hv1 as Hv1a Hv1b Hv1c Hv1d Hv1e Hv1f.
  destruct (step_executeCallback h2 j args2 s1 Hh2 HI1)
    as [[Hn _]|(cb2 & l2 & c2 & s2 & Hcb2 & Hl2 & Hc2 & _ & Hr2 & E2)].
  { rewrite Hv1d, lookup_delete_ne in Hn by done. congruence. }
  rewrite Hv1d, lookup_delete_ne in Hcb2 by done.
  assert (cb2 = cbj) as -> by congruence.
  rewrite Hv1b in Hl2. apply evict_lookup in Hl2. simpl in Hl2.
  assert (l2 = l) as -> by congruence.
  rewrite Hv1f, lookup_insert_eq in Hc2. injection Hc2 as <-.
  exists s1, s2. split; [done|]. split; [done|].
  rewrite (engine_view_runtime_only _ _ Hr2). unfold engine_view. simpl.
  rewrite Hv1a, Hv1c, Hv1d, Hv1f.
  rewrite !insert_insert_eq.
  assert (evict (RObj l) (set_callbacks (delete j (delete i (callbacks s))) s1)
          = evict (RObj l) s) as ->; [|done].
  rewrite (evict_self _ l) by done. simpl. by rewrite Hv1b.
Qed.

(** X17. Two registered callbacks of the same call context can be settled
    in either order, each by a reply or by a reject: both orders return
    that call context twice and end with the same registries, cursors,
    active call context and call contexts, with two pending calls less. *)
Theorem deliveries_commute
    (s : State) (i j : Z) (cbi cbj : Callback.t) (args1 args2 : list value)
    (h1 h2 : Callback.t → list value → M unit) :
  reachable s → i ≠ j →
  (h1 = reply ∨ h1 = reject) → (h2 = reply ∨ h2 = reject) →
  callbacks s !! i = Some cbi → callbacks s !! j = Some cbj →
  Callback.call_context_id cbj = Callback.call_context_id cbi →
  ∃ l c si sij sj sji,
    call_contexts s !! Callback.call_context_id cbi = Some l ∧
    heap s !! l = Some c ∧
    executeCallback h1 i args1 s = (Ok (RObj l), si) ∧
    executeCallback h2 j args2 si = (Ok (RObj l), sij) ∧
    executeCallback h2 j args2 s = (Ok (RObj l), sj) ∧
    executeCallback h1 i args1 sj = (Ok (RObj l), sji) ∧
    engine_view sij = engine_view sji ∧
    pending_at sij l = Some (CallContext.pending_calls c - 2) ∧
    callbacks sij !! i = None ∧ callbacks sij !! j = None.
Proof.
  intros HI%reachable_Inv Hij Hh1 Hh2 Hi Hj Hown.
  destruct (inv_owner s HI _ _ Hi) as [l Hl].
  destruct (inv_registered s HI _ _ Hl) as (c & Hc & Hid).
  destruct (executeCallback_twice h1 h2 i j args1 args2 s cbi cbj l c)
    as (si & sij & E1 & E2 & V12); try done.
  destruct (executeCallback_twice h2 h1 j i args2 args1 s cbj cbi l c)
    as (sj & sji & E3 & E4 & V21); try done; try congruence.
  exists l, c, si, sij, sj, sji. repeat (split; [done|]).
  split; [by rewrite V12, V21, delete_delete|].
  unfold engine_view in V12. injection V12 as _ _ _ Hcbs _ Hheap.
  unfold pending_at. rewrite Hheap, Hcbs, lookup_insert_eq. simpl.
  split; [f_equal; lia|].
  split; [rewrite lookup_delete_ne by done|]; apply lookup_delete_eq.
Qed.

Lemma deliveries_commute_witness :
  ∃ l c si sij sj sji,
    call_contexts with_two_callbacks !! 0 = Some l ∧
    heap with_two_callbacks !! l = Some c ∧
    executeCallback reply 0 [VNum 1] with_two_callbacks = (Ok (RObj l), si) ∧
    executeCallback reject 1 [VNum 2] si = (Ok (RObj l), sij) ∧
    executeCallback reject 1 [VNum 2] with_two_callbacks = (Ok (RObj l), sj) ∧
    executeCallback reply 0 [VNum 1] sj = (Ok (RObj l), sji) ∧
    engine_view sij = engine_view sji ∧
    pending_at sij l = Some (CallContext.pending_calls c - 2) ∧
    callbacks sij !! 0 = None ∧ callbacks sij !! 1 = None.
Proof.
  apply (deliveries_commute with_two_callbacks 0 1
           (Callback.mk 0 (CallbackPromise 0)) (Callback.mk 0 (CallbackPromise 1))
           [VNum 1] [VNum 2] reply reject).
  - apply (run_reachable
             [ExecuteEndpoint
                (const_method [CreateCallback; CreateCallback]
                   (Return (PromiseOf (UserPromise 0)))) []] init);
      [apply reachable_init|reflexivity].
  - discriminate.
  - by left.
  - by right.
  - reflexivity.
  - reflexivity.
  - reflexivity.
Defined.

(** ** Counting one call *)

(** X18. In a reachable state with an active call context and a callback
    registry that is not full, [createCallback] returns the old cursor as
    identifier, raises the pending calls of the active call context by
    exactly 1, leaves every other call context and the registry of call
    contexts as they were, and keeps the active call context. *)
Theorem createCallback_counts_one_call (s : State) (l : loc) (c : CallContext.t) :
  reachable s → entered_call_context s = RObj l → heap s !! l = Some c →
  Z.of_nat (size (callbacks s)) < MAX_ID_MASK →
  ∃ p s',
    createCallback s = (Ok (callback_id s, p), s') ∧
    heap s' !! l
      = Some (CallContext.set_pending_calls (CallContext.pending_calls c + 1) c) ∧
    (∀ l', l' ≠ l → heap s' !! l' = heap s !! l') ∧
    call_contexts s' = call_contexts s ∧
    call_context_id s' = call_context_id s ∧
    entered_call_context s' = RObj l.
Proof.
  intros HI%reachable_Inv He Hc Hsz.
  destruct (next_callback_id_total s
    (Callback.mk (CallContext.id c) (CallbackPromise (next_promise s))) Hsz) as [id' Hn].
  eexists _, _. split; [by apply (createCallback_Ok s l c id')|].
  simpl. rewrite lookup_insert_eq. split; [done|].
  split; [intros l' Hne; by rewrite lookup_insert_ne|done].
Qed.

Lemma createCallback_counts_one_call_witness :
  ∃ p s',
    createCallback with_one_callback = (Ok (callback_id with_one_callback, p), s') ∧
    heap s' !! 0%nat = Some (CallContext.mk 0 VNull VNull 2) ∧
    (∀ l', l' ≠ 0%nat → heap s' !! l' = heap with_one_callback !! l') ∧
    call_contexts s' = call_contexts with_one_callback ∧
    call_context_id s' = call_context_id with_one_callback ∧
    entered_call_context s' = RObj 0%nat.
Proof.
  apply (createCallback_counts_one_call with_one_callback 0%nat
           (CallContext.mk 0 VNull VNull 1)).
  - apply with_one_callback_reachable.
  - reflexivity.
  - reflexivity.
  - vm_compute. reflexivity.
Defined.

(** X19. In a reachable state, settling a registered callback by
    [executeReplyCallback] or [executeRejectCallback] returns the call
    context registered under the callback's [call_context_id], removes the
    callback, lowers the pending calls of that call context by exactly 1
    and resets its outcome; every other call context keeps its fields. *)
Theorem delivery_counts_one_call_less
    (s : State) (callback_id : Z) (cb : Callback.t) (args : list value)
    (handler : Callback.t → list value → M unit) :
  reachable s → handler = reply ∨ handler = reject →
  callbacks s !! callback_id = Some cb →
  ∃ l c s',
    call_contexts s !! Callback.call_context_id cb = Some l ∧
    heap s !! l = Some c ∧
    executeCallback handler callback_id args s = (Ok (RObj l), s') ∧
    callbacks s' = delete callback_id (callbacks s) ∧
    heap s' !! l = Some (CallContext.mk (CallContext.id c) VNull VNull
                           (CallContext.pending_calls c - 1)) ∧
    ∀ l', l' ≠ l → heap s' !! l' = heap s !! l'.
Proof.
  intros HI%reachable_Inv Hh Hcb.
  destruct (step_executeCallback handler callback_id args s Hh HI)
    as [[Hn _]|(cb' & l & c & s' & Hcb' & Hl & Hc & _ & (ps & np & js & ->) & E)];
    [congruence|].
  assert (cb' = cb) as -> by congruence.
  exists l, c. eexists. repeat (split; [done|]). simpl.
  rewrite lookup_insert_eq. split; [done|].
  intros l' Hne. by rewrite !lookup_insert_ne.
Qed.

Lemma delivery_counts_one_call_less_witness :
  ∃ l c s',
    call_contexts with_one_callback !! 0 = Some l ∧
    heap with_one_callback !! l = Some c ∧
    executeCallback reject 0 [VNum 3] with_one_callback = (Ok (RObj l), s') ∧
    callbacks s' = delete 0 (callbacks with_one_callback) ∧
    heap s' !! l = Some (CallContext.mk (CallContext.id c) VNull VNull
                           (CallContext.pending_calls c - 1)) ∧
    ∀ l', l' ≠ l → heap s' !! l' = heap with_one_callback !! l'.
Proof.
  apply (delivery_counts_one_call_less with_one_callback 0
           (Callback.mk 0 (CallbackPromise 0)) [VNum 3] reject).
  - apply with_one_callback_reachable.
  - by right.
  - reflexivity.
Defined.
